(** * Lexically constrained beam search (sockeye/lexical_constraints.py)

    A shallow embedding of [ConstrainedHypothesis], [NullHypothesis],
    [get_bank_sizes] and [topk], with the properties of the constraint state
    machine and of the bank allocator.

    Python integers are unbounded, so they are [Z].  Python lists are
    [list]s read and written through [py_get] and [py_set], which implement
    Python's index rule: an index [i] with [-len <= i < 0] denotes
    [len + i], anything outside [-len <= i < len] raises [IndexError].
    Code that can raise returns a [result]. *)

From stdpp Require Import base list.
From Stdlib Require Import ZArith Lia Sorting.Sorted.

Local Open Scope Z_scope.

(** ** Outcomes of running a piece of Python *)

Inductive exn := IndexError | ZeroDivisionError | ValueError.

(** [Timeout] is only produced by the loops that are given an iteration
    budget: it stands for a loop that is still running when the budget is
    used up. *)
Inductive result (A : Type) :=
| Ok (a : A)
| Raise (e : exn)
| Timeout.
Arguments Ok {A} a.
Arguments Raise {A} e.
Arguments Timeout {A}.

Definition bind {A B} (r : result A) (k : A → result B) : result B :=
  match r with
  | Ok a => k a
  | Raise e => Raise e
  | Timeout => Timeout
  end.

Notation "'let!' x ':=' r 'in' k" := (bind r (λ x, k))
  (at level 10, x pattern, r at level 100, k at level 200, only parsing).

Definition returns {A} (r : result A) : Prop := ∃ a, r = Ok a.

(** ** Python lists *)

Section py_list.
Context {A : Type}.

(** The position a Python index denotes, when it denotes one. *)
Definition py_index (l : list A) (i : Z) : option nat :=
  let n := Z.of_nat (length l) in
  if decide (0 ≤ i < n) then Some (Z.to_nat i)
  else if decide (- n ≤ i < 0) then Some (Z.to_nat (n + i))
  else None.

(** [l[i]] *)
Definition py_get (l : list A) (i : Z) : result A :=
  match py_index l i with
  | Some k => match l !! k with Some x => Ok x | None => Raise IndexError end
  | None => Raise IndexError
  end.

(** [l[i] = x] *)
Definition py_set (l : list A) (i : Z) (x : A) : result (list A) :=
  match py_index l i with
  | Some k => Ok (<[k:=x]> l)
  | None => Raise IndexError
  end.

(** [len(l)] *)
Definition len (l : list A) : Z := Z.of_nat (length l).

(** [l[:-1]] *)
Definition py_init (l : list A) : list A := take (length l - 1)%nat l.
End py_list.

(** [range(a, b)] and [range(a, b, -1)] *)
Definition range (a b : Z) : list Z := seqZ a (b - a).
Definition range_down (a b : Z) : list Z := (λ k, a - k) <$> seqZ 0 (a - b).

(** [sorted(l, key=key)]: Python's sort is stable, elements with equal keys
    keep the order they have in [l].  [le] is the order on keys. *)
Section sorted.
Context {A K : Type} (le : K → K → bool) (key : A → K).

Fixpoint insert_by (x : A) (l : list A) : list A :=
  match l with
  | [] => [x]
  | y :: l' => if le (key x) (key y) then x :: y :: l' else y :: insert_by x l'
  end.

Definition sorted (l : list A) : list A := foldr insert_by [] l.
End sorted.

(** ** ConstrainedHypothesis *)

(** The class of an object decides which [isValid] and [finished] run:
    [NullHypothesis] overrides both and inherits everything else. *)
Inductive hyp_class := ConstrainedHypothesis | NullHypothesis.

Record hypothesis := MkHypothesis {
  cls : hyp_class;
  constraints : list Z;
  is_sequence : list Z;
  eos_id : Z;
  met : list bool;
  lastMet : Z
}.

#[export] Instance hyp_class_eq_dec : EqDecision hyp_class.
Proof. solve_decision. Defined.
#[export] Instance hypothesis_eq_dec : EqDecision hypothesis.
Proof. solve_decision. Defined.

(** The loop of [__init__] over the phrases, on the two lists it grows. *)
Fixpoint init_phrases (constraint_list : list (list Z)) (cs sq : list Z)
  : result (list Z * list Z) :=
  match constraint_list with
  | [] => Ok (cs, sq)
  | phrase :: rest =>
      let cs := cs ++ phrase in
      let sq := sq ++ replicate (length phrase) 1 in
      let! sq := py_set sq (-1) 0 in
      init_phrases rest cs sq
  end.

(** [ConstrainedHypothesis.__init__], run on an object of class [c]. *)
Definition init (c : hyp_class) (constraint_list : list (list Z)) (eos : Z)
  : result hypothesis :=
  let! (cs, sq) := init_phrases constraint_list [] [] in
  Ok {| cls := c; constraints := cs; is_sequence := sq; eos_id := eos;
        met := (λ _, false) <$> cs; lastMet := -1 |}.

(** [ConstrainedHypothesis(constraint_list, eos_id)] *)
Definition new_ConstrainedHypothesis (constraint_list : list (list Z)) (eos : Z)
  : result hypothesis :=
  init ConstrainedHypothesis constraint_list eos.

(** [NullHypothesis()]: [super().__init__(([], []), 0)] *)
Definition new_NullHypothesis : result hypothesis :=
  init NullHypothesis [[]; []] 0.

Definition size (s : hypothesis) : Z := len (constraints s).

(** [sum(self.met)]: [True] counts 1 and [False] counts 0. *)
Definition numMet (s : hypothesis) : Z :=
  foldr (λ (b : bool) n, (if b then 1 else 0) + n) 0 (met s).

Definition numNeeded (s : hypothesis) : Z := size s - numMet s.

Definition finished (s : hypothesis) : bool :=
  match cls s with
  | NullHypothesis => true
  | ConstrainedHypothesis => bool_decide (numNeeded s = 0)
  end.

Definition isValid (s : hypothesis) (wordid : Z) : bool :=
  match cls s with
  | NullHypothesis => false
  | ConstrainedHypothesis => finished s || bool_decide (wordid ≠ eos_id s)
  end.

(** [self.lastMet != -1 and self.is_sequence[self.lastMet] == 1] *)
Definition mid_phrase (s : hypothesis) : result bool :=
  if decide (lastMet s ≠ -1) then
    let! v := py_get (is_sequence s) (lastMet s) in
    Ok (bool_decide (v = 1))
  else Ok false.

(** The body of the [for i, id in enumerate(self.constraints)] loop of
    [allowed], from position [i] on. *)
Fixpoint allowed_loop (s : hypothesis) (i : Z) (ids : list Z) (items : list Z)
  : result (list Z) :=
  match ids with
  | [] => Ok items
  | _ :: ids' =>
      let! m := py_get (met s) i in
      let! eligible :=
        (if m then Ok false
         else if decide (i = 0) then Ok true
         else let! v := py_get (is_sequence s) (i - 1) in Ok (bool_decide (v = 0))) in
      let! items :=
        (if eligible then let! c := py_get (constraints s) i in Ok (items ++ [c])
         else Ok items) in
      allowed_loop s (i + 1) ids' items
  end.

Definition allowed (s : hypothesis) : result (list Z) :=
  let! mid := mid_phrase s in
  if mid then
    let! c := py_get (constraints s) (lastMet s + 1) in
    Ok [c]
  else allowed_loop s 0 (constraints s) [].

(** The [while obj.is_sequence[index]] loop of [advance].  [index] goes
    down by one each round and an index below [-len] raises, so the loop
    always ends; [budget] is the recursion measure. *)
Fixpoint rollback (budget : nat) (sq : list Z) (m : list bool) (index : Z)
  : result (list bool) :=
  let! v := py_get sq index in
  if decide (v ≠ 0) then
    match budget with
    | O => Timeout
    | S budget =>
        let! m := py_set m index false in
        rollback budget sq m (index - 1)
    end
  else Ok m.

(** [list(zip(obj.constraints, [0] + obj.is_sequence[:-1], obj.met))] *)
Definition zip3 (cs sq : list Z) (m : list bool) : list (Z * Z * bool) :=
  zip (zip cs sq) m.

(** [advance]: [copy.deepcopy(self)] gives a fresh object, so the method is
    a function from the receiver to the returned object. *)
Definition advance (s : hypothesis) (word_id : Z) : result hypothesis :=
  let! mid := mid_phrase s in
  if mid then
    let! expected := py_get (constraints s) (lastMet s + 1) in
    if decide (word_id = expected) then
      let! m := py_set (met s) (lastMet s + 1) true in
      Ok {| cls := cls s; constraints := constraints s;
            is_sequence := is_sequence s; eos_id := eos_id s;
            met := m; lastMet := lastMet s + 1 |}
    else
      let! m := rollback (2 * length (is_sequence s)) (is_sequence s) (met s) (lastMet s) in
      Ok {| cls := cls s; constraints := constraints s;
            is_sequence := is_sequence s; eos_id := eos_id s;
            met := m; lastMet := -1 |}
  else
    (* try: ... except: pass *)
    let l := zip3 (constraints s) (0 :: py_init (is_sequence s)) (met s) in
    match list_find (λ e, e = (word_id, 0, false)) l with
    | Some (pos, _) =>
        match py_set (met s) (Z.of_nat pos) true with
        | Ok m =>
            Ok {| cls := cls s; constraints := constraints s;
                  is_sequence := is_sequence s; eos_id := eos_id s;
                  met := m; lastMet := Z.of_nat pos |}
        | _ => Ok s
        end
    | None => Ok s
    end.

(** The states a hypothesis goes through from [s0] on: [s0] advanced any
    number of times. *)
Inductive reachable_from (s0 : hypothesis) : hypothesis → Prop :=
| reachable_start : reachable_from s0 s0
| reachable_advance s word_id s' :
    reachable_from s0 s → advance s word_id = Ok s' → reachable_from s0 s'.

(** The states of a constrained hypothesis: built by the constructor, then
    advanced. *)
Definition reachable (s : hypothesis) : Prop :=
  ∃ constraint_list eos s0,
    new_ConstrainedHypothesis constraint_list eos = Ok s0 ∧ reachable_from s0 s.

(** Position [k] of a phrase is followed by the next token of the same
    phrase when [is_sequence[k]] is 1. *)
Definition link (s : hypothesis) (k : nat) : Prop := is_sequence s !! k = Some 1.

(** The position at which the phrase that holds position [k] starts. *)
Fixpoint phrase_first (sq : list Z) (k : nat) : nat :=
  match k with
  | O => O
  | S k' => if decide (sq !! k' = Some 1) then phrase_first sq k' else k
  end.

Definition same_phrase (s : hypothesis) (j k : nat) : Prop :=
  phrase_first (is_sequence s) j = phrase_first (is_sequence s) k.

(** A position that can be met on its own: the first one, or one whose
    predecessor is not a sequential link. *)
Definition eligible (s : hypothesis) (q : nat) : Prop :=
  match q with
  | O => True
  | S q' => is_sequence s !! q' = Some 0
  end.

(** ** get_bank_sizes *)

(** [sorted(list(range(i - 1, -1, -1)) + list(range(i + 1, n)),
            key=lambda x: abs(x - i))] *)
Definition bank_order (i n : Z) : list Z :=
  sorted Z.leb (λ x, Z.abs (x - i)) (range_down (i - 1) (-1) ++ range (i + 1) n).

(** The [for j in sorted(...)] loop: one pass over the other banks. *)
Fixpoint transfer_loop (candidates : list Z) (i : Z) (order : list Z)
    (deficit : Z) (assigned : list Z) : result (Z * list Z) :=
  match order with
  | [] => Ok (deficit, assigned)
  | j :: order' =>
      let! cj := py_get candidates j in
      let! aj := py_get assigned j in
      let capacity := cj - aj in
      if decide (capacity > 0) then
        let transfer := Z.abs deficit `min` capacity in
        let deficit := deficit + transfer in
        let! ai := py_get assigned i in
        let! assigned := py_set assigned i (ai - transfer) in
        let! aj := py_get assigned j in
        let! assigned := py_set assigned j (aj + transfer) in
        transfer_loop candidates i order' deficit assigned
      else transfer_loop candidates i order' deficit assigned
  end.

(** The [while deficit < 0] loop; [budget] bounds the number of passes. *)
Fixpoint redistribute (budget : nat) (candidates : list Z) (i : Z)
    (deficit : Z) (assigned : list Z) : result (list Z) :=
  if decide (deficit < 0) then
    match budget with
    | O => Timeout
    | S budget =>
        let order := bank_order i (len assigned) in
        let! (deficit, assigned) := transfer_loop candidates i order deficit assigned in
        redistribute budget candidates i deficit assigned
    end
  else Ok assigned.

(** The [for i in range(len(assigned))] loop. *)
Fixpoint banks_loop (budget : nat) (candidates : list Z) (banks : list Z)
    (assigned : list Z) : result (list Z) :=
  match banks with
  | [] => Ok assigned
  | i :: banks' =>
      let! ci := py_get candidates i in
      let! ai := py_get assigned i in
      let deficit := ci - ai in
      let! assigned := redistribute budget candidates i deficit assigned in
      banks_loop budget candidates banks' assigned
  end.

(** [get_bank_sizes(num_constraints, beam_size, candidates)]; every
    [while] loop it runs may make [budget] passes. *)
Definition get_bank_sizes (budget : nat) (num_constraints beam_size : Z)
    (candidates : list Z) : result (list Z) :=
  let num_banks := num_constraints + 1 in
  if decide (num_banks = 0) then Raise ZeroDivisionError
  else
    let bank_size := beam_size `div` num_banks in
    let remainder := beam_size - bank_size * num_banks in
    let assigned := replicate (Z.to_nat num_banks) bank_size in
    let! last := py_get assigned (-1) in
    let! assigned := py_set assigned (-1) (last + remainder) in
    banks_loop budget candidates (range 0 (len assigned)) assigned.

(** ** Candidate and topk *)

Section topk.
(** Scores are floating-point numbers; [topk] only compares them, picks
    the column of a row's least one and builds [np.inf]. *)
Context {score_t : Type}.
Variable score_le : score_t → score_t → bool.
Variable inf : score_t.
Variable argmin : list score_t → Z.

Record candidate := Candidate {
  row : Z;
  col : Z;
  score : score_t;
  cand_constraints : hypothesis
}.

(** [Candidate.__eq__] *)
Definition candidate_eqb (c d : candidate) : bool :=
  bool_decide (row c = row d) && bool_decide (col c = col d).

(** [candidates.add(cand)]; the set is kept as the list of its elements
    in the order they were added. *)
Definition set_add (cand : candidate) (candidates : list candidate)
  : list candidate :=
  if existsb (candidate_eqb cand) candidates then candidates
  else candidates ++ [cand].

(** The order in which Python iterates over the set. *)
Variable set_iter : list candidate → list candidate.

(** Source (1): [for row, col, seq_score in zip(best_ids, best_word_ids,
    sequence_scores)] *)
Fixpoint add_best (hypotheses : list hypothesis)
    (best : list (Z * Z * score_t)) (candidates : list candidate)
  : result (list candidate) :=
  match best with
  | [] => Ok candidates
  | (r, c, seq_score) :: best' =>
      let! hyp := py_get hypotheses r in
      let! candidates :=
        (if isValid hyp c then
           let! new_constraint := advance hyp c in
           Ok (set_add (Candidate r c seq_score new_constraint) candidates)
         else Ok candidates) in
      add_best hypotheses best' candidates
  end.

(** [for col in nextones] *)
Fixpoint add_nextones (scores : list (list score_t)) (hyp : hypothesis)
    (r : Z) (nextones : list Z) (candidates : list candidate)
  : result (list candidate) :=
  match nextones with
  | [] => Ok candidates
  | c :: nextones' =>
      let! new_constraint := advance hyp c in
      let! scores_row := py_get scores r in
      let! sc := py_get scores_row c in
      add_nextones scores hyp r nextones'
        (set_add (Candidate r c sc new_constraint) candidates)
  end.

(** Sources (2) and (3): [for row in range(beam_size)] *)
Fixpoint add_rows (inactive : list bool) (scores : list (list score_t))
    (hypotheses : list hypothesis) (best_next : list Z) (rows : list Z)
    (candidates : list candidate) : result (list candidate) :=
  match rows with
  | [] => Ok candidates
  | r :: rows' =>
      let! off := py_get inactive r in
      if (off : bool) then
        add_rows inactive scores hypotheses best_next rows' candidates
      else
        let! hyp := py_get hypotheses r in
        let! nextones := allowed hyp in
        let! c := py_get best_next r in
        let nextones := if isValid hyp c then nextones ++ [c] else nextones in
        let! candidates := add_nextones scores hyp r nextones candidates in
        add_rows inactive scores hypotheses best_next rows' candidates
  end.

(** [while len(new_kbest) < beam_size: new_kbest.append(Candidate(0, 0,
    np.inf, NullHypothesis()))], [missing] rounds of it. *)
Fixpoint pad_null (missing : nat) (new_kbest : list candidate)
  : result (list candidate) :=
  match missing with
  | O => Ok new_kbest
  | S missing =>
      let! null := new_NullHypothesis in
      pad_null missing (new_kbest ++ [Candidate 0 0 inf null])
  end.

(** [for cand in new_kbest: counts[cand.constraints.numMet()] += 1] *)
Fixpoint count_banks (new_kbest : list candidate) (counts : list Z)
  : result (list Z) :=
  match new_kbest with
  | [] => Ok counts
  | cand :: rest =>
      let bank := numMet (cand_constraints cand) in
      let! n := py_get counts bank in
      let! counts := py_set counts bank (n + 1) in
      count_banks rest counts
  end.

(** [for i, cand in enumerate(new_kbest)]: keep a candidate while its
    bank has room. *)
Fixpoint prune (new_kbest : list candidate) (counts : list Z)
    (pruned_candidates : list candidate) : result (list candidate) :=
  match new_kbest with
  | [] => Ok pruned_candidates
  | cand :: rest =>
      let bank := numMet (cand_constraints cand) in
      let! n := py_get counts bank in
      let! counts := py_set counts bank (n - 1) in
      let! n := py_get counts bank in
      prune rest counts
        (if decide (0 ≤ n) then pruned_candidates ++ [cand]
         else pruned_candidates)
  end.

(** [while len(pruned_candidates) < beam_size:
      pruned_candidates.append(pruned_candidates[new_active_beam_size-1])],
    [missing] rounds of it. *)
Fixpoint pad_last (missing : nat) (new_active_beam_size : Z)
    (pruned_candidates : list candidate) : result (list candidate) :=
  match missing with
  | O => Ok pruned_candidates
  | S missing =>
      let! last := py_get pruned_candidates (new_active_beam_size - 1) in
      pad_last missing new_active_beam_size (pruned_candidates ++ [last])
  end.

(** [topk]; the result is the four output arrays (the inactivity mask is
    handed back as it came). *)
Definition topk (budget : nat) (beam_size : Z) (inactive : list bool)
    (scores : list (list score_t)) (hypotheses : list hypothesis)
    (best_ids best_word_ids : list Z) (sequence_scores : list score_t)
  : result (list Z * list Z * list (list score_t) * list hypothesis) :=
  let! first := py_get hypotheses 0 in
  let num_constraints := size first in
  let! candidates :=
    add_best hypotheses (zip (zip best_ids best_word_ids) sequence_scores) [] in
  let best_next := argmin <$> scores in
  let! candidates :=
    add_rows inactive scores hypotheses best_next (range 0 beam_size) candidates in
  let new_kbest := sorted score_le score (set_iter candidates) in
  let! new_kbest := pad_null (Z.to_nat (beam_size - len new_kbest)) new_kbest in
  let! counts :=
    count_banks new_kbest (replicate (Z.to_nat (num_constraints + 1)) 0) in
  let! bank_sizes := get_bank_sizes budget num_constraints beam_size counts in
  let! pruned_candidates := prune new_kbest bank_sizes [] in
  let new_active_beam_size := len pruned_candidates in
  let! pruned_candidates :=
    pad_last (Z.to_nat (beam_size - len pruned_candidates))
      new_active_beam_size pruned_candidates in
  Ok (row <$> pruned_candidates, col <$> pruned_candidates,
      (λ x, [score x]) <$> pruned_candidates,
      cand_constraints <$> pruned_candidates).
End topk.

(** ** main: the command-line tool

    A Python [str] is the list of its code points.  The lines are the ones
    iterating over [sys.stdin] yields; what is printed is the object handed
    to [json.dumps]. *)

Definition str := list Z.

(** The code points [str.isspace] accepts, which [rstrip()] strips. *)
Definition is_space (c : Z) : bool :=
  bool_decide (9 ≤ c ≤ 13 ∨ 28 ≤ c ≤ 32 ∨ c = 133 ∨ c = 160 ∨ c = 5760 ∨
               8192 ≤ c ≤ 8202 ∨ c = 8232 ∨ c = 8233 ∨ c = 8239 ∨ c = 8287 ∨
               c = 12288).

(** [s.rstrip()] *)
Fixpoint rstrip (s : str) : str :=
  match s with
  | [] => []
  | c :: s' =>
      match rstrip s' with
      | [] => if is_space c then [] else [c]
      | r => c :: r
      end
  end.

(** [s.split('\t')] *)
Fixpoint split_tab (s : str) : list str :=
  match s with
  | [] => [[]]
  | c :: s' =>
      if decide (c = 9) then [] :: split_tab s'
      else match split_tab s' with
           | field :: fields => (c :: field) :: fields
           | [] => [[c]]
           end
  end.

(** The command line: [--add-sos], [--add-eos] and the list object behind
    [args.constraints], which the loop of [main] may write to. *)
Record args := Args {
  add_sos : bool;
  add_eos : bool;
  args_constraints : list str
}.

(** The object printed for a line. *)
Record json_obj := JsonObj {
  text : str;
  obj_constraints : option (list str)
}.

Section main.
(** [C.BOS_SYMBOL] and [C.EOS_SYMBOL] come from the constants module, and
    [bpe.segment] from the BPE model when [--bpe] is given. *)
Variable BOS_SYMBOL EOS_SYMBOL : str.
Variable bpe : option (str → str).

Definition maybe_segment (phr : str) : str :=
  match bpe with
  | Some segment => segment phr
  | None => phr
  end.

(** The body of [for i, constraint in enumerate(constraints)]: what
    [constraints[i]] is replaced with. *)
Definition wrap_constraint (a : args) (constraint : str) : str :=
  let phrase := [] in
  let phrase := if add_sos a then phrase ++ (BOS_SYMBOL ++ [32]) else phrase in
  let phrase := phrase ++ maybe_segment constraint in
  let phrase := if add_eos a then phrase ++ ([32] ++ EOS_SYMBOL) else phrase in
  phrase.

(** One round of [for line in sys.stdin]: the arguments as the round leaves
    them and the object it prints.  Without a tab in the line,
    [constraints] is the list object of [args.constraints] itself, so the
    assignments [constraints[i] = phrase] write to it. *)
Definition main_line (a : args) (line : str) : result (args * json_obj) :=
  let line := rstrip line in
  if decide (9 ∈ line) then
    match split_tab line with
    | source :: constraints =>
        let constraints := wrap_constraint a <$> constraints in
        Ok (a, {| text := maybe_segment source;
                  obj_constraints :=
                    if decide (0 < len constraints) then Some constraints
                    else None |})
    | [] => Raise ValueError
    end
  else
    let constraints := wrap_constraint a <$> args_constraints a in
    Ok ({| add_sos := add_sos a; add_eos := add_eos a;
           args_constraints := constraints |},
        {| text := maybe_segment line;
           obj_constraints :=
             if decide (0 < len constraints) then Some constraints else None |}).

(** The loop over the lines, with the objects printed so far. *)
Fixpoint main_loop (a : args) (lines : list str) (printed : list json_obj)
  : result (args * list json_obj) :=
  match lines with
  | [] => Ok (a, printed)
  | line :: lines' =>
      let! (a', obj) := main_line a line in
      main_loop a' lines' (printed ++ [obj])
  end.
End main.

(** The line [source\tconstraint1\t...] of the usage note: the fields joined
    by tabs. *)
Definition join_tab (source : str) (constraints : list str) : str :=
  source ++ concat (cons 9 <$> constraints).

#[export] Instance eligible_dec s q : Decision (eligible s q).
Proof. destruct q; simpl; apply _. Defined.

(** What [allowed] is to return outside a phrase, in the words of its
    description: the constraint tokens that are not met yet and stand at
    position 0 or after a position that is not a sequential link, by
    increasing position. *)
Definition open_tokens (s : hypothesis) : list Z :=
  omap (λ q, if decide (met s !! q = Some false ∧ eligible s q)
             then constraints s !! q else None)
       (seq 0 (length (constraints s))).

(** ** The invariant of the constraint state machine

    The two parallel arrays have the length of [constraints]; the last entry
    of [is_sequence] is 0; along every link the met positions of a phrase
    form a prefix of it, and a phrase met in part is the one [lastMet] is
    in; a phrase entered at its first token was the first one open to that
    token. *)
Record wf (s : hypothesis) : Prop := {
  wf_len_seq : length (is_sequence s) = length (constraints s);
  wf_len_met : length (met s) = length (constraints s);
  wf_bits : ∀ k v, is_sequence s !! k = Some v → v = 0 ∨ v = 1;
  wf_last : ∀ v, last (is_sequence s) = Some v → v = 0;
  wf_lastMet : lastMet s = -1 ∨ 0 ≤ lastMet s < len (constraints s);
  wf_down : ∀ k, link s k → met s !! S k = Some true → met s !! k = Some true;
  wf_front : ∀ k, link s k → met s !! k = Some true →
             met s !! S k = Some false → lastMet s = Z.of_nat k;
  wf_mid : ∀ k, lastMet s = Z.of_nat k → link s k →
           met s !! k = Some true ∧ met s !! S k = Some false;
  wf_first : ∀ k q, lastMet s = Z.of_nat k → link s k →
             (q < phrase_first (is_sequence s) k)%nat → eligible s q →
             constraints s !! q = constraints s !! phrase_first (is_sequence s) k →
             met s !! q = Some true
}.

(** ** Notions used to state the properties *)

(** Positions [j..k] are all sequential links: the walk that starts at [k]
    reaches [j]. *)
Definition run (sq : list Z) (j k : nat) : Prop :=
  (j ≤ k)%nat ∧ ∀ i, (j ≤ i ≤ k)%nat → ∃ v, sq !! i = Some v ∧ v ≠ 0.

(** [s] with its progress replaced. *)
Definition with_progress (s : hypothesis) (m : list bool) (l : Z) : hypothesis :=
  {| cls := cls s; constraints := constraints s; is_sequence := is_sequence s;
     eos_id := eos_id s; met := m; lastMet := l |}.

(** [q] is a position the single-word search of [advance] accepts for [t]. *)
Definition open_for (s : hypothesis) (t : Z) (q : nat) : Prop :=
  constraints s !! q = Some t ∧ eligible s q ∧ met s !! q = Some false.

Inductive advance_spec (s : hypothesis) (t : Z) : hypothesis → Prop :=
| advance_continue k :
    lastMet s = Z.of_nat k → link s k → constraints s !! S k = Some t →
    advance_spec s t (with_progress s (<[S k:=true]> (met s)) (Z.of_nat (S k)))
| advance_abandon k c m' :
    lastMet s = Z.of_nat k → link s k → constraints s !! S k = Some c → t ≠ c →
    length m' = length (met s) →
    (∀ j, run (is_sequence s) j k → m' !! j = Some false) →
    (∀ j, ¬ run (is_sequence s) j k → m' !! j = met s !! j) →
    advance_spec s t (with_progress s m' (-1))
| advance_match pos :
    (∀ k, lastMet s = Z.of_nat k → ¬ link s k) →
    open_for s t pos → (∀ q, (q < pos)%nat → ¬ open_for s t q) →
    advance_spec s t (with_progress s (<[pos:=true]> (met s)) (Z.of_nat pos))
| advance_skip :
    (∀ k, lastMet s = Z.of_nat k → ¬ link s k) →
    (∀ q, ¬ open_for s t q) →
    advance_spec s t s.

(** The sum of a list of integers. *)
Definition sumZ (l : list Z) : Z := foldr Z.add 0 l.

(** How many more candidates bank [k] has than slots. *)
Definition room (candidates assigned : list Z) (k : nat) : Z :=
  candidates !!! k - assigned !!! k.

(** What the allocator keeps true of [assigned]: one entry per bank, the
    entries add up to [beam_size], none is negative. *)
Record alloc_inv (candidates : list Z) (beam_size : Z) (assigned : list Z)
  : Prop := {
  ai_len : length assigned = length candidates;
  ai_sum : sumZ assigned = beam_size;
  ai_nonneg : Forall (λ a, 0 ≤ a) assigned
}.

(** The room left in the banks of [order], full banks counting 0. *)
Definition spare (candidates assigned : list Z) (order : list Z) : Z :=
  sumZ ((λ j, 0 `max` room candidates assigned (Z.to_nat j)) <$> order).

(** [advance] applied along a list of tokens, from left to right: the state
    of a hypothesis that emits [word_ids] one token after the other. *)
Fixpoint advance_all (s : hypothesis) (word_ids : list Z) : result hypothesis :=
  match word_ids with
  | [] => Ok s
  | word_id :: rest => let! s' := advance s word_id in advance_all s' rest
  end.

(** The state in which the first [n] constraint tokens of [s] are met, the
    last of them being the one met last, and no other. *)
Definition met_upto (s : hypothesis) (n : nat) : hypothesis :=
  {| cls := cls s; constraints := constraints s; is_sequence := is_sequence s;
     eos_id := eos_id s;
     met := replicate n true ++ replicate (length (constraints s) - n) false;
     lastMet := Z.of_nat n - 1 |}.

(** The sequence flags of one phrase: 1 for every token but the last, 0 for
    the last. *)
Definition phrase_flags (phrase : list Z) : list Z :=
  match phrase with
  | [] => []
  | _ :: rest => replicate (length rest) 1 ++ [0]
  end.

(** What [Candidate.__eq__] and [Candidate.__hash__] look at. *)
Definition cand_key {score_t} (c : @candidate score_t) : Z * Z := (row c, col c).

(** A candidate as the three sources of [topk] build them: its state is the
    state of its row advanced on its column, and its column is valid for
    that row or one of the tokens [allowed()] offers for it. *)
Definition well_proposed {score_t} (hypotheses : list hypothesis)
    (c : @candidate score_t) : Prop :=
  ∃ hyp, py_get hypotheses (row c) = Ok hyp ∧
         advance hyp (col c) = Ok (cand_constraints c) ∧
         (isValid hyp (col c) = true ∨
          ∃ items, allowed hyp = Ok items ∧ col c ∈ items).

(** The bank counters of the pruning loop of [topk] once the loop is over
    (the loop itself only hands back the candidates it kept). *)
Fixpoint drain {score_t} (new_kbest : list (@candidate score_t))
    (counts : list Z) : result (list Z) :=
  match new_kbest with
  | [] => Ok counts
  | cand :: rest =>
      let bank := numMet (cand_constraints cand) in
      let! n := py_get counts bank in
      let! counts := py_set counts bank (n - 1) in
      drain rest counts
  end.

(** What the candidate set keeps true: no two members with the same row
    and column, and every member built from its row's state. *)
Definition merged {score_t} (hypotheses : list hypothesis)
    (candidates : list (@candidate score_t)) : Prop :=
  NoDup (cand_key <$> candidates) ∧ Forall (well_proposed hypotheses) candidates.

(** The candidates of bank [k]: those whose state has [k] constraint tokens
    met. *)
Definition in_bank {score_t} (k : nat) (l : list (@candidate score_t))
  : list (@candidate score_t) :=
  filter (λ cand, numMet (cand_constraints cand) = Z.of_nat k) l.

(** * Properties *)

(** ** The phrase [1, 2] with end-of-sequence id 3, step by step *)

Example ex_new : new_ConstrainedHypothesis [[1; 2]] 3
  = Ok (MkHypothesis ConstrainedHypothesis [1; 2] [1; 0] 3 [false; false] (-1)).
Proof. reflexivity. Qed.

Example ex_advance_1 :
  advance (MkHypothesis ConstrainedHypothesis [1; 2] [1; 0] 3 [false; false] (-1)) 1
  = Ok (MkHypothesis ConstrainedHypothesis [1; 2] [1; 0] 3 [true; false] 0).
Proof. reflexivity. Qed.

Example ex_allowed :
  allowed (MkHypothesis ConstrainedHypothesis [1; 2] [1; 0] 3 [true; false] 0)
  = Ok [2].
Proof. reflexivity. Qed.

Example ex_advance_2 :
  let s := MkHypothesis ConstrainedHypothesis [1; 2] [1; 0] 3 [true; true] 1 in
  advance (MkHypothesis ConstrainedHypothesis [1; 2] [1; 0] 3 [true; false] 0) 2
  = Ok s ∧ finished s = true ∧ isValid s 3 = true.
Proof. done. Qed.

Example ex_advance_5 :
  advance (MkHypothesis ConstrainedHypothesis [1; 2] [1; 0] 3 [true; false] 0) 5
  = Ok (MkHypothesis ConstrainedHypothesis [1; 2] [1; 0] 3 [false; false] (-1)).
Proof. reflexivity. Qed.

Example ex_bank_order : bank_order 2 6 = [1; 3; 0; 4; 5].
Proof. reflexivity. Qed.

Example ex_get_bank_sizes : get_bank_sizes 1 1 4 [1; 5] = Ok [1; 3].
Proof. reflexivity. Qed.

(** ** Python list accesses *)

Section py_list_facts.
Context {A : Type}.
Implicit Types (l : list A) (i : Z) (k : nat) (x : A).

Lemma py_index_nat l k :
  (k < length l)%nat → py_index l (Z.of_nat k) = Some k.
Proof.
  intros Hk. unfold py_index.
  rewrite decide_True by lia. by rewrite Nat2Z.id.
Qed.

Lemma py_index_Some l i k :
  py_index l i = Some k →
  (k < length l)%nat ∧
  (i = Z.of_nat k ∨ i = Z.of_nat k - Z.of_nat (length l)).
Proof.
  unfold py_index. intros H.
  repeat case_decide; simplify_eq; lia.
Qed.

Lemma py_index_neg l i :
  - Z.of_nat (length l) ≤ i < 0 →
  py_index l i = Some (Z.to_nat (Z.of_nat (length l) + i)).
Proof.
  intros Hi. unfold py_index.
  rewrite decide_False by lia. by rewrite decide_True by lia.
Qed.

Lemma py_index_None l i :
  py_index l i = None ↔ i < - Z.of_nat (length l) ∨ Z.of_nat (length l) ≤ i.
Proof. unfold py_index. repeat case_decide; split; intros; try done; lia. Qed.

Lemma py_get_nat l k x : l !! k = Some x → py_get l (Z.of_nat k) = Ok x.
Proof.
  intros H. unfold py_get.
  rewrite py_index_nat by by eapply lookup_lt_Some. by rewrite H.
Qed.

Lemma py_get_Ok l i x :
  py_get l i = Ok x → ∃ k, py_index l i = Some k ∧ l !! k = Some x.
Proof.
  unfold py_get. destruct (py_index l i) as [k|]; [|done].
  destruct (l !! k) eqn:E; [|done]. intros [= ->]. eauto.
Qed.

Lemma py_get_Ok_nat l k x : py_get l (Z.of_nat k) = Ok x → l !! k = Some x.
Proof.
  intros (k' & Hk & Hx)%py_get_Ok.
  apply py_index_Some in Hk as Hk'. destruct Hk' as [? [?|?]]; [|lia].
  by replace k with k' by lia.
Qed.

Lemma py_get_last l x : last l = Some x → py_get l (-1) = Ok x.
Proof.
  intros H. assert (length l ≠ 0)%nat by (by destruct l).
  rewrite last_lookup in H. unfold py_get.
  rewrite py_index_neg by lia.
  replace (Z.to_nat (Z.of_nat (length l) + -1)) with (pred (length l)) by lia.
  by rewrite H.
Qed.

Lemma py_get_not_timeout l i : py_get l i ≠ Timeout.
Proof. unfold py_get. by repeat case_match. Qed.

Lemma py_set_nat l k x :
  (k < length l)%nat → py_set l (Z.of_nat k) x = Ok (<[k:=x]> l).
Proof. intros H. unfold py_set. by rewrite py_index_nat. Qed.

Lemma py_set_Ok l i x l' :
  py_set l i x = Ok l' → ∃ k, py_index l i = Some k ∧ l' = <[k:=x]> l.
Proof.
  unfold py_set. destruct (py_index l i) as [k|]; [|done].
  intros [= <-]. eauto.
Qed.

Lemma py_set_length l i x l' : py_set l i x = Ok l' → length l' = length l.
Proof. intros (k & _ & ->)%py_set_Ok. by rewrite length_insert. Qed.

Lemma py_set_not_timeout l i x : py_set l i x ≠ Timeout.
Proof. unfold py_set. by case_match. Qed.
End py_list_facts.

(** ** The constructor *)

Lemma init_phrases_Ok constraint_list cs sq cs' sq' :
  init_phrases constraint_list cs sq = Ok (cs', sq') →
  length sq = length cs →
  (∀ k v, sq !! k = Some v → v = 0 ∨ v = 1) →
  (∀ v, last sq = Some v → v = 0) →
  length sq' = length cs' ∧
  (∀ k v, sq' !! k = Some v → v = 0 ∨ v = 1) ∧
  (∀ v, last sq' = Some v → v = 0).
Proof.
  revert cs sq. induction constraint_list as [|phrase rest IH]; intros cs sq; simpl.
  { intros [= -> ->]. auto. }
  destruct (py_set _ _ _) as [sq1| |] eqn:Hset; simpl; [|done..].
  intros Hrest Hlen Hbits Hlast.
  apply py_set_Ok in Hset as (k & Hk & ->).
  apply py_index_Some in Hk as Hk'. destruct Hk' as [Hlt Hk'].
  rewrite length_app, length_replicate in Hlt, Hk'.
  assert (k = pred (length sq + length phrase)) as Hklast by lia.
  apply IH in Hrest; [done|..].
  - rewrite length_insert, !length_app, length_replicate. lia.
  - intros j v Hj. destruct (decide (j = k)) as [->|Hne].
    + rewrite list_lookup_insert_eq in Hj; [injection Hj as <-; auto|].
      by rewrite length_app, length_replicate.
    + rewrite list_lookup_insert_ne in Hj by done.
      apply lookup_app_Some in Hj as [Hj|[_ Hj]]; [by eapply Hbits|].
      apply lookup_replicate in Hj as [-> _]. auto.
  - intros v. rewrite last_lookup, length_insert, length_app, length_replicate.
    rewrite <- Hklast, list_lookup_insert_eq; [by intros [= <-]|].
    by rewrite length_app, length_replicate.
Qed.

Lemma init_wf c constraint_list eos s :
  init c constraint_list eos = Ok s → wf s ∧ cls s = c.
Proof.
  unfold init. destruct (init_phrases _ _ _) as [[cs sq]| |] eqn:Hinit; [|done..].
  simpl. intros [= <-].
  apply init_phrases_Ok in Hinit as (Hlen & Hbits & Hlast); [|done..].
  split; [|done]. split; simpl; try done.
  - by rewrite length_fmap.
  - by left.
  - intros k _. rewrite list_lookup_fmap. by destruct (cs !! S k).
  - intros k _. rewrite list_lookup_fmap. by destruct (cs !! k).
  - lia.
  - lia.
Qed.

(** ** The rollback walk of [advance] *)

Lemma run_stop sq j k : sq !! k = Some 0 → ¬ run sq j k.
Proof. intros Hk [Hle Hrun]. destruct (Hrun k) as (v & ? & ?); [lia|congruence]. Qed.

Lemma run_S sq j k v :
  sq !! S k = Some v → v ≠ 0 → run sq j (S k) ↔ j = S k ∨ run sq j k.
Proof.
  intros Hk Hv. split.
  - intros [Hle Hrun]. destruct (decide (j = S k)) as [|Hne]; [by left|right].
    split; [lia|]. intros i Hi. apply Hrun. lia.
  - intros [->|[Hle Hrun]].
    + split; [done|]. intros i Hi. replace i with (S k) by lia. eauto.
    + split; [lia|]. intros i Hi. destruct (decide (i = S k)) as [->|]; [eauto|].
      apply Hrun. lia.
Qed.

Lemma run_O sq j v : sq !! O = Some v → v ≠ 0 → run sq j O ↔ j = O.
Proof.
  intros Hk Hv. split.
  - intros [Hle _]. lia.
  - intros ->. split; [done|]. intros i Hi. replace i with O by lia. eauto.
Qed.

(** The walk never uses up its budget: it is a total function of the
    lists it is given. *)
Lemma rollback_not_timeout budget sq m index :
  index + len sq < Z.of_nat budget → rollback budget sq m index ≠ Timeout.
Proof.
  revert m index. induction budget as [|budget IH]; intros m index Hlt; simpl.
  - destruct (py_get sq index) as [v| |] eqn:Hget; simpl; [|done|].
    + apply py_get_Ok in Hget as (k & Hk%py_index_Some & _). unfold len in Hlt. lia.
    + by apply py_get_not_timeout in Hget.
  - destruct (py_get sq index) as [v| |] eqn:Hget; simpl; [|done|].
    + case_decide; [|done].
      destruct (py_set m index false) as [m'| |] eqn:Hset; simpl; [|done|].
      * apply IH. lia.
      * by apply py_set_not_timeout in Hset.
    + by apply py_get_not_timeout in Hget.
Qed.

Lemma rollback_spec sq k : ∀ budget m,
  (∀ v, last sq = Some v → v = 0) →
  (k < length sq)%nat → length m = length sq → (k < budget)%nat →
  ∃ m', rollback budget sq m (Z.of_nat k) = Ok m' ∧ length m' = length m ∧
    (∀ j, run sq j k → m' !! j = Some false) ∧
    (∀ j, ¬ run sq j k → m' !! j = m !! j).
Proof.
  induction k as [|k IH]; intros budget m Hlast Hk Hlen Hbudget.
  - destruct (lookup_lt_is_Some_2 sq O Hk) as [v Hv].
    destruct budget as [|budget]; [lia|]. simpl.
    rewrite (py_get_nat _ O _ Hv). simpl. case_decide as Hv0.
    + rewrite (py_set_nat m O) by lia. simpl.
      destruct (last sq) as [w|] eqn:Hw;
        [|rewrite last_lookup in Hw; apply lookup_ge_None in Hw; lia].
      rewrite (Hlast w eq_refl) in Hw. change (Z.of_nat 0 - 1) with (-1).
      assert (rollback budget sq (<[O:=false]> m) (-1) = Ok (<[O:=false]> m)) as ->.
      { destruct budget; simpl; by rewrite (py_get_last _ _ Hw). }
      eexists; split_and!; [done|by rewrite length_insert|..].
      * intros j ->%(run_O _ _ _ Hv Hv0). apply list_lookup_insert_eq. lia.
      * intros j Hj. apply list_lookup_insert_ne. intros <-.
        by apply Hj, (run_O _ _ _ Hv Hv0).
    + eexists; split_and!; [done..| |done].
      intros j Hj. exfalso. eapply run_stop; [|done].
      destruct (decide (v = 0)) as [->|]; [done|]. by destruct Hv0.
  - destruct (lookup_lt_is_Some_2 sq (S k) Hk) as [v Hv].
    destruct budget as [|budget]; [lia|]. simpl rollback.
    rewrite (py_get_nat _ (S k) _ Hv). simpl bind. case_decide as Hv0.
    + rewrite (py_set_nat m (S k)) by lia. simpl bind.
      replace (Z.of_nat (S k) - 1) with (Z.of_nat k) by lia.
      destruct (IH budget (<[S k:=false]> m)) as (m' & -> & Hlen' & Hin & Hout);
        [done|lia|by rewrite length_insert|lia|].
      rewrite length_insert in Hlen'.
      eexists; split_and!; [done..| |].
      * intros j [->|Hj]%(run_S _ _ _ _ Hv Hv0); [|by apply Hin].
        rewrite Hout by (intros [? _]; lia).
        apply list_lookup_insert_eq. lia.
      * intros j Hj. rewrite Hout.
        -- apply list_lookup_insert_ne. intros <-.
           apply Hj, (run_S _ _ _ _ Hv Hv0). by left.
        -- intros Hj'. apply Hj, (run_S _ _ _ _ Hv Hv0). by right.
    + eexists; split_and!; [done..| |done].
      intros j Hj. exfalso. eapply run_stop; [|done].
      destruct (decide (v = 0)) as [->|]; [done|]. by destruct Hv0.
Qed.

(** ** The four ways [advance] goes *)

Lemma link_lt s k : wf s → link s k → (S k < length (constraints s))%nat.
Proof.
  intros Hwf Hk. unfold link in Hk.
  pose proof (lookup_lt_Some _ _ _ Hk) as Hlt. rewrite (wf_len_seq s Hwf) in Hlt.
  destruct (decide (S k = length (constraints s))) as [Heq|]; [|lia].
  assert (last (is_sequence s) = Some 1) as Hlast.
  { rewrite last_lookup, (wf_len_seq s Hwf), <- Heq. done. }
  by apply (wf_last s Hwf) in Hlast.
Qed.

Lemma mid_phrase_cases s :
  wf s →
  (mid_phrase s = Ok true ∧ ∃ k, lastMet s = Z.of_nat k ∧ link s k) ∨
  (mid_phrase s = Ok false ∧ ∀ k, lastMet s = Z.of_nat k → ¬ link s k).
Proof.
  intros Hwf. unfold mid_phrase. case_decide as Hne.
  - destruct (wf_lastMet s Hwf) as [|Hrange]; [done|].
    set (k := Z.to_nat (lastMet s)).
    assert (lastMet s = Z.of_nat k) as Hk by lia.
    assert (k < length (is_sequence s))%nat as Hlt.
    { rewrite (wf_len_seq s Hwf). unfold len in Hrange. lia. }
    destruct (lookup_lt_is_Some_2 _ _ Hlt) as [v Hv].
    rewrite Hk, (py_get_nat _ _ _ Hv). simpl.
    destruct (wf_bits s Hwf _ _ Hv) as [-> | ->].
    + right. split; [done|]. intros k' Hk'. unfold link.
      replace k' with k by lia. by rewrite Hv.
    + left. split; [done|]. by exists k.
  - right. split; [done|]. intros k Hk. lia.
Qed.

Lemma zip3_lookup cs sq (m : list bool) i c p b :
  zip3 cs sq m !! i = Some (c, p, b) ↔
  cs !! i = Some c ∧ sq !! i = Some p ∧ m !! i = Some b.
Proof.
  unfold zip3. rewrite lookup_zip_with_Some. split.
  - intros ([c' p'] & b' & [= -> -> ->] & Hcp & Hb).
    apply lookup_zip_with_Some in Hcp as (? & ? & [= -> ->] & ? & ?). done.
  - intros (Hc & Hp & Hb). exists (c, p), b. split_and!; [done| |done].
    apply lookup_zip_with_Some. eauto.
Qed.

Lemma prev_lookup s q v :
  (q < length (is_sequence s))%nat →
  (0 :: py_init (is_sequence s)) !! q = Some v ↔
  match q with O => v = 0 | S q' => is_sequence s !! q' = Some v end.
Proof.
  intros Hq. destruct q as [|q]; simpl.
  - split; [by intros [= <-]|by intros ->].
  - unfold py_init. by rewrite lookup_take_lt by lia.
Qed.

Lemma open_for_lookup s t q :
  wf s →
  zip3 (constraints s) (0 :: py_init (is_sequence s)) (met s) !! q
    = Some (t, 0, false) ↔ open_for s t q.
Proof.
  intros Hwf. rewrite zip3_lookup. unfold open_for. split.
  - intros (Hc & Hp & Hm). split_and!; [done| |done].
    apply prev_lookup in Hp.
    + by destruct q.
    + rewrite (wf_len_seq s Hwf). by eapply lookup_lt_Some.
  - intros (Hc & He & Hm). split_and!; [done| |done].
    apply prev_lookup.
    + rewrite (wf_len_seq s Hwf). by eapply lookup_lt_Some.
    + by destruct q.
Qed.

(** [advance] never raises on a well-formed state, and goes one of the
    four ways. *)
Lemma advance_cases s t :
  wf s → ∃ s', advance s t = Ok s' ∧ advance_spec s t s'.
Proof.
  intros Hwf. unfold advance.
  destruct (mid_phrase_cases s Hwf) as [[-> (k & Hk & Hlink)]|[-> Hnot]]; cbn [bind].
  - pose proof (link_lt s k Hwf Hlink) as Hlt.
    destruct (lookup_lt_is_Some_2 (constraints s) (S k)) as [c Hc]; [lia|].
    rewrite Hk. replace (Z.of_nat k + 1) with (Z.of_nat (S k)) by lia.
    rewrite (py_get_nat _ _ _ Hc). cbn [bind]. case_decide as Ht.
    + subst c. rewrite py_set_nat by (rewrite (wf_len_met s Hwf); lia). simpl.
      eexists. split; [done|]. by apply advance_continue.
    + destruct (rollback_spec (is_sequence s) k (2 * length (is_sequence s)) (met s))
        as (m' & -> & Hlen & Hin & Hout).
      * apply Hwf.
      * rewrite (wf_len_seq s Hwf). lia.
      * by rewrite (wf_len_met s Hwf), (wf_len_seq s Hwf).
      * rewrite (wf_len_seq s Hwf). lia.
      * cbn [bind]. eexists. split; [done|]. by eapply advance_abandon.
  - destruct (list_find _ _) as [[pos e]|] eqn:Hfind.
    + apply list_find_Some in Hfind as (Hpos & -> & Hmin).
      apply (open_for_lookup s t pos Hwf) in Hpos as Hopen.
      destruct Hopen as (Hc & He & Hm).
      rewrite py_set_nat by by eapply lookup_lt_Some.
      eexists. split; [done|]. apply advance_match; [done..|].
      intros q Hq Hopen%(open_for_lookup s t q Hwf).
      by eapply Hmin.
    + apply list_find_None in Hfind.
      exists s. split; [done|]. apply advance_skip; [done|].
      intros q Hopen%(open_for_lookup s t q Hwf).
      rewrite Forall_lookup in Hfind. by eapply Hfind.
Qed.

(** The budget handed to the rollback walk is never used up: [advance]
    returns or raises on every state, well formed or not. *)
Lemma advance_not_timeout s t : advance s t ≠ Timeout.
Proof.
  unfold advance, mid_phrase. case_decide as Hlast; cbn [bind].
  - destruct (py_get (is_sequence s) (lastMet s)) as [v| |] eqn:Hget;
      cbn [bind]; [|done|by apply py_get_not_timeout in Hget].
    case_bool_decide.
    + destruct (py_get (constraints s) _) as [c| |] eqn:Hc;
        cbn [bind]; [|done|by apply py_get_not_timeout in Hc].
      case_decide.
      * destruct (py_set (met s) _ _) as [m| |] eqn:Hm;
          cbn [bind]; [done|done|by apply py_set_not_timeout in Hm].
      * destruct (rollback _ _ _ _) as [m| |] eqn:Hm; cbn [bind]; [done|done|].
        apply rollback_not_timeout in Hm; [done|].
        apply py_get_Ok in Hget as (k & Hk%py_index_Some & _).
        unfold len. lia.
    + by repeat case_match.
  - by repeat case_match.
Qed.

(** ** Phrases *)

Lemma phrase_first_le sq k : (phrase_first sq k ≤ k)%nat.
Proof. induction k as [|k IH]; simpl; [done|]. case_decide; lia. Qed.

Lemma phrase_first_link sq k :
  sq !! k = Some 1 → phrase_first sq (S k) = phrase_first sq k.
Proof. intros H. simpl. by rewrite decide_True. Qed.

Lemma phrase_first_eligible s q :
  eligible s q → phrase_first (is_sequence s) q = q.
Proof.
  destruct q as [|q]; simpl; [done|]. intros H.
  rewrite decide_False; [done|]. by rewrite H.
Qed.

Lemma run_refl sq k : sq !! k = Some 1 → run sq k k.
Proof.
  intros H. split; [done|]. intros i Hi. replace i with k by lia.
  exists 1. done.
Qed.

Lemma run_cons sq j k : sq !! j = Some 1 → run sq (S j) k → run sq j k.
Proof.
  intros Hj [Hle Hrun]. split; [lia|]. intros i Hi.
  destruct (decide (i = j)) as [->|]; [by exists 1|]. apply Hrun. lia.
Qed.

Lemma run_tail sq j k : run sq j k → (j < k)%nat → run sq (S j) k.
Proof. intros [Hle Hrun] Hlt. split; [lia|]. intros i Hi. apply Hrun. lia. Qed.

(** The walk from [k] reaches exactly the positions of the phrase of [k]
    that are not after [k]. *)
Lemma run_same_phrase s j k :
  wf s → link s k →
  run (is_sequence s) j k ↔
  (j ≤ k)%nat ∧ phrase_first (is_sequence s) j = phrase_first (is_sequence s) k.
Proof.
  intros Hwf Hk. unfold link in Hk. split.
  - intros [Hle Hrun]. split; [done|].
    induction Hle as [|k' Hle IH]; [done|].
    destruct (Hrun k') as (v & Hv & Hv0); [lia|].
    destruct (wf_bits s Hwf _ _ Hv) as [->| ->]; [done|].
    rewrite (phrase_first_link _ _ Hv). apply IH.
    + done.
    + intros i Hi. apply Hrun. lia.
  - intros [Hle Heq]. induction Hle as [|k' Hle IH].
    + by apply run_refl.
    + simpl in Heq. case_decide as Hk'.
      * destruct (decide (j = S k')) as [->|]; [by apply run_refl|].
        eapply run_S; [done..|]. right. by apply IH.
      * pose proof (phrase_first_le (is_sequence s) j). lia.
Qed.

(** ** [advance] keeps the invariant *)

Lemma no_front_when_free s j :
  wf s → (∀ k, lastMet s = Z.of_nat k → ¬ link s k) →
  link s j → met s !! j = Some true → met s !! S j = Some false → False.
Proof.
  intros Hwf Hfree Hj Hm HSm.
  by apply (Hfree j (wf_front s Hwf j Hj Hm HSm)).
Qed.

Lemma next_unmet s k :
  wf s → link s k → met s !! k = Some false → met s !! S k = Some false.
Proof.
  intros Hwf Hk Hm.
  pose proof (link_lt s k Hwf Hk) as Hlt.
  destruct (lookup_lt_is_Some_2 (met s) (S k)) as [b Hb].
  { rewrite (wf_len_met s Hwf). lia. }
  destruct b; [|done].
  pose proof (wf_down s Hwf k Hk Hb). congruence.
Qed.

Lemma advance_spec_wf s t s' : wf s → advance_spec s t s' → wf s'.
Proof.
  intros Hwf Hadv.
  pose proof (wf_len_met s Hwf) as Hlen.
  destruct Hadv as [k Hlast Hk Hc|k c m' Hlast Hk Hc Hne Hlen' Hin Hout
                    |pos Hfree (Hc & He & Hm) Hmin|Hfree Hnone]; [| | |done].
  - (* the phrase goes on *)
    pose proof (link_lt s k Hwf Hk) as Hlt.
    destruct (wf_mid s Hwf k Hlast Hk) as [Hmk HmSk].
    split; simpl; try apply Hwf.
    + by rewrite length_insert.
    + right. unfold len. lia.
    + intros j Hj. destruct (decide (j = S k)) as [->|Hne].
      * intros _. apply list_lookup_insert_eq. lia.
      * rewrite (list_lookup_insert_ne _ _ j) by done.
        destruct (decide (j = k)) as [->|Hne']; [done|].
        rewrite list_lookup_insert_ne by lia. by apply Hwf.
    + intros j Hj. destruct (decide (j = S k)) as [->|Hne]; [done|].
      rewrite (list_lookup_insert_ne _ _ j) by done.
      destruct (decide (j = k)) as [->|Hne'].
      * rewrite list_lookup_insert_eq by lia. done.
      * rewrite list_lookup_insert_ne by lia. intros Hmj HmSj.
        pose proof (wf_front s Hwf j Hj Hmj HmSj). lia.
    + intros j Hj HSk. assert (j = S k) as -> by lia. split.
      * apply list_lookup_insert_eq. lia.
      * rewrite list_lookup_insert_ne by lia. by apply next_unmet.
    + intros j q Hj HSk. assert (j = S k) as -> by lia.
      rewrite (phrase_first_link _ _ Hk). intros Hq Hel Hcs.
      pose proof (phrase_first_le (is_sequence s) k).
      rewrite list_lookup_insert_ne by lia. by eapply (wf_first s Hwf k).
  - (* the phrase is abandoned *)
    destruct (wf_mid s Hwf k Hlast Hk) as [Hmk HmSk].
    split; simpl; try apply Hwf.
    + lia.
    + by left.
    + intros j Hj HSj.
      assert (¬ run (is_sequence s) (S j) k) as HnS.
      { intros Hrun%Hin. congruence. }
      rewrite (Hout _ HnS) in HSj.
      rewrite Hout; [by apply Hwf|].
      intros Hrun. destruct (decide (j = k)) as [->|]; [congruence|].
      apply HnS, run_tail; [done|]. destruct Hrun. lia.
    + intros j Hj Hmj HmSj. exfalso.
      assert (¬ run (is_sequence s) j k) as Hn.
      { intros Hrun%Hin. congruence. }
      rewrite (Hout _ Hn) in Hmj.
      assert (¬ run (is_sequence s) (S j) k) as HnS.
      { intros Hrun. by apply Hn, run_cons. }
      rewrite (Hout _ HnS) in HmSj.
      pose proof (wf_front s Hwf j Hj Hmj HmSj).
      apply Hn. replace j with k by lia. by apply run_refl.
    + lia.
    + lia.
  - (* a phrase is entered, or a single word met *)
    pose proof (lookup_lt_Some _ _ _ Hm) as Hlt.
    split; simpl; try apply Hwf.
    + by rewrite length_insert.
    + right. unfold len. lia.
    + intros j Hj. destruct (decide (S j = pos)) as [<-|Hne].
      { unfold link in Hj. simpl in He, Hj. congruence. }
      rewrite (list_lookup_insert_ne _ _ (S j)) by done. intros HSj.
      pose proof (wf_down s Hwf j Hj HSj) as Hmj.
      destruct (decide (j = pos)) as [->|]; [congruence|].
      by rewrite list_lookup_insert_ne.
    + intros j Hj. destruct (decide (j = pos)) as [->|Hne]; [done|].
      rewrite (list_lookup_insert_ne _ _ j) by done.
      destruct (decide (S j = pos)) as [<-|Hne'].
      * by rewrite list_lookup_insert_eq.
      * rewrite list_lookup_insert_ne by done. intros Hmj HmSj.
        by destruct (no_front_when_free s j).
    + intros j Hj Hpos. assert (j = pos) as -> by lia. split.
      * by apply list_lookup_insert_eq.
      * rewrite list_lookup_insert_ne by lia. by apply next_unmet.
    + intros j q Hj Hpos. assert (j = pos) as -> by lia.
      rewrite (phrase_first_eligible s pos He). intros Hq Hel Hcs.
      rewrite list_lookup_insert_ne by lia.
      destruct (lookup_lt_is_Some_2 (met s) q) as [b Hb]; [lia|].
      destruct b; [done|]. destruct (Hmin q Hq). split_and!; [congruence|done..].
Qed.

Lemma advance_wf s t s' : wf s → advance s t = Ok s' → wf s'.
Proof.
  intros Hwf Hadv. destruct (advance_cases s t Hwf) as (s'' & Heq & Hspec).
  rewrite Heq in Hadv. injection Hadv as <-. by eapply advance_spec_wf.
Qed.

Lemma advance_spec_fixed s t s' :
  advance_spec s t s' →
  cls s' = cls s ∧ constraints s' = constraints s ∧
  is_sequence s' = is_sequence s ∧ eos_id s' = eos_id s.
Proof. by destruct 1. Qed.

Lemma reachable_from_wf s0 s :
  wf s0 → reachable_from s0 s →
  wf s ∧ cls s = cls s0 ∧ constraints s = constraints s0 ∧
  is_sequence s = is_sequence s0 ∧ eos_id s = eos_id s0.
Proof.
  intros Hwf0. induction 1 as [|s t s' _ IH Hadv]; [done|].
  destruct IH as (Hwf & Hcls & Hcs & Hsq & Heos).
  destruct (advance_cases s t Hwf) as (s'' & Heq & Hspec).
  rewrite Heq in Hadv. injection Hadv as <-.
  split; [by eapply advance_spec_wf|].
  destruct (advance_spec_fixed _ _ _ Hspec) as (E1 & E2 & E3 & E4).
  by rewrite E1, E2, E3, E4.
Qed.

Lemma reachable_wf s : reachable s → wf s ∧ cls s = ConstrainedHypothesis.
Proof.
  intros (cl & eos & s0 & Hnew & Hreach).
  apply init_wf in Hnew as [Hwf0 Hcls0].
  destruct (reachable_from_wf _ _ Hwf0 Hreach) as (Hwf & Hcls & _).
  split; [done|congruence].
Qed.

(** ** Counting met constraints *)

Lemma sum_met_bounds (m : list bool) :
  0 ≤ foldr (λ (b : bool) n, (if b then 1 else 0) + n) 0 m ≤ len m.
Proof.
  unfold len. induction m as [|[] m IH]; simpl length; simpl foldr; lia.
Qed.

Lemma sum_met_full (m : list bool) :
  foldr (λ (b : bool) n, (if b then 1 else 0) + n) 0 m = len m ↔
  ∀ q b, m !! q = Some b → b = true.
Proof.
  unfold len. induction m as [|b m IH]; simpl length; simpl foldr.
  - split; [|done]. by intros _ q b.
  - pose proof (sum_met_bounds m) as Hb. unfold len in Hb. split.
    + intros Hsum. destruct b; [|lia]. intros [|q] b; simpl.
      * by intros [= <-].
      * apply IH. lia.
    + intros Hall. rewrite (Hall O b eq_refl).
      assert (foldr (λ (b : bool) n, (if b then 1 else 0) + n) 0 m
              = Z.of_nat (length m)) as ->; [|lia].
      apply IH. intros q b'. apply (Hall (S q)).
Qed.

Lemma numNeeded_nonneg s : wf s → 0 ≤ numNeeded s.
Proof.
  intros Hwf. unfold numNeeded, size, numMet.
  pose proof (sum_met_bounds (met s)) as Hb. unfold len in *.
  rewrite (wf_len_met s Hwf) in Hb. lia.
Qed.

Lemma finished_all_met s :
  wf s → cls s = ConstrainedHypothesis →
  finished s = true ↔ ∀ q b, met s !! q = Some b → b = true.
Proof.
  intros Hwf Hcls. unfold finished. rewrite Hcls, bool_decide_eq_true.
  rewrite <- sum_met_full. unfold numNeeded, size, numMet, len.
  rewrite (wf_len_met s Hwf). lia.
Qed.

(** The running example: the phrase [1, 2] with end-of-sequence id 3,
    advanced on 1. *)
Lemma example_mid_reachable :
  reachable (MkHypothesis ConstrainedHypothesis [1; 2] [1; 0] 3 [true; false] 0).
Proof.
  exists [[1; 2]], 3, (MkHypothesis ConstrainedHypothesis [1; 2] [1; 0] 3
                        [false; false] (-1)).
  split; [reflexivity|].
  eapply reachable_advance with (word_id := 1); [constructor|reflexivity].
Qed.

(** ** isValid *)

(** C1: in every reachable state of a constrained hypothesis, [isValid(t)]
    holds exactly when the hypothesis is finished or [t] is not the
    end-of-sequence id; so [isValid(eos_id)] fails exactly when some
    constraint is still needed. *)
Theorem isValid_spec s t :
  reachable s →
  (isValid s t = true ↔ finished s = true ∨ t ≠ eos_id s) ∧
  (isValid s (eos_id s) = false ↔ numNeeded s > 0).
Proof.
  intros [Hwf Hcls]%reachable_wf. unfold isValid. rewrite Hcls. split.
  - rewrite orb_true_iff, bool_decide_eq_true. done.
  - rewrite orb_false_iff, bool_decide_eq_false.
    pose proof (numNeeded_nonneg s Hwf) as Hge.
    unfold finished. rewrite Hcls, bool_decide_eq_false. split.
    + intros [Hne _]. lia.
    + intros Hgt. split; [lia|]. by intros [].
Qed.

Lemma isValid_spec_witness :
  let s := MkHypothesis ConstrainedHypothesis [1; 2] [1; 0] 3 [true; false] 0 in
  reachable s ∧
  (isValid s 3 = true ↔ finished s = true ∨ 3 ≠ eos_id s) ∧
  (isValid s (eos_id s) = false ↔ numNeeded s > 0).
Proof.
  intros s.
  pose proof example_mid_reachable as Hs. fold s in Hs.
  split; [exact Hs|]. exact (isValid_spec s 3 Hs).
Defined.

(** ** The constructors *)

Lemma new_ConstrainedHypothesis_empty eos :
  ∃ s, new_ConstrainedHypothesis [] eos = Ok s ∧ size s = 0 ∧ finished s = true.
Proof. eexists. split; [reflexivity|]. done. Qed.

(** The constructor returns whenever the first phrase has a token. *)
Lemma init_phrases_returns constraint_list cs sq :
  sq ≠ [] → returns (init_phrases constraint_list cs sq).
Proof.
  revert cs sq. induction constraint_list as [|phrase rest IH]; intros cs sq Hsq.
  { by eexists. }
  simpl. unfold py_set. rewrite py_index_neg.
  - simpl. apply IH. intros Heq. apply (f_equal length) in Heq.
    rewrite length_insert, length_app in Heq. simpl in Heq.
    destruct sq; [done|]. simpl in Heq. lia.
  - rewrite length_app. destruct sq; [done|]. simpl length. lia.
Qed.

Lemma new_ConstrainedHypothesis_returns phrase rest eos :
  phrase ≠ [] → returns (new_ConstrainedHypothesis (phrase :: rest) eos).
Proof.
  intros Hne. unfold new_ConstrainedHypothesis, init. simpl init_phrases.
  unfold py_set. rewrite py_index_neg.
  - cbn [bind].
    destruct (init_phrases_returns rest phrase
      (<[Z.to_nat (Z.of_nat (length (replicate (length phrase) 1)) + -1):=0]>
         (replicate (length phrase) 1))) as [[cs sq] Heq].
    + intros Heq. apply (f_equal length) in Heq.
      rewrite length_insert, length_replicate in Heq. by destruct phrase.
    + simpl app. rewrite Heq. by eexists.
  - simpl app. rewrite length_replicate. destruct phrase; [done|]. simpl length. lia.
Qed.

(** C7: the constructor raises [IndexError] on a phrase list whose first
    phrase is empty: [self.is_sequence[-1] = 0] is run on an empty list. *)
Theorem new_ConstrainedHypothesis_empty_phrase eos rest :
  new_ConstrainedHypothesis ([] :: rest) eos = Raise IndexError.
Proof. reflexivity. Qed.

(** C8: [NullHypothesis()] raises [IndexError]: its constructor hands the
    phrase list [([], [])] to [ConstrainedHypothesis.__init__]. *)
Theorem new_NullHypothesis_raises : new_NullHypothesis = Raise IndexError.
Proof. reflexivity. Qed.

(** ** allowed *)

Lemma allowed_loop_spec s :
  wf s → ∀ ids i items,
  (i + length ids = length (constraints s))%nat →
  allowed_loop s (Z.of_nat i) ids items =
  Ok (items ++ omap (λ q, if decide (met s !! q = Some false ∧ eligible s q)
                          then constraints s !! q else None)
                    (seq i (length ids))).
Proof.
  intros Hwf. induction ids as [|id ids IH]; intros i items Hlen; simpl.
  { by rewrite app_nil_r. }
  simpl in Hlen.
  destruct (lookup_lt_is_Some_2 (met s) i) as [m Hm].
  { rewrite (wf_len_met s Hwf). lia. }
  destruct (lookup_lt_is_Some_2 (constraints s) i) as [c Hc]; [lia|].
  rewrite (py_get_nat _ _ _ Hm). cbn [bind].
  replace (Z.of_nat i + 1) with (Z.of_nat (S i)) by lia.
  destruct m.
  - cbn [bind]. rewrite IH by lia.
    rewrite decide_False; [done|]. intros [? _]. congruence.
  - destruct i as [|i].
    + rewrite decide_True by done. cbn [bind].
      rewrite (py_get_nat _ _ _ Hc). cbn [bind]. rewrite IH by lia.
      rewrite decide_True by done. by rewrite Hc, <- app_assoc.
    + rewrite decide_False by lia.
      replace (Z.of_nat (S i) - 1) with (Z.of_nat i) by lia.
      destruct (lookup_lt_is_Some_2 (is_sequence s) i) as [v Hv].
      { rewrite (wf_len_seq s Hwf). lia. }
      rewrite (py_get_nat _ _ _ Hv). cbn [bind]. case_bool_decide as Hv0.
      * subst v. cbn [bind]. rewrite (py_get_nat _ _ _ Hc). cbn [bind].
        rewrite IH by lia. rewrite decide_True by done.
        by rewrite Hc, <- app_assoc.
      * cbn [bind]. rewrite IH by lia. rewrite decide_False; [done|].
        simpl. intros [_ ?]. congruence.
Qed.

Lemma allowed_free s :
  wf s → mid_phrase s = Ok false → allowed s = Ok (open_tokens s).
Proof.
  intros Hwf Hmid. unfold allowed. rewrite Hmid. cbn [bind].
  by apply (allowed_loop_spec s Hwf (constraints s) O []).
Qed.

Lemma open_tokens_nil s :
  wf s →
  open_tokens s = [] ↔ ∀ q, ¬ (met s !! q = Some false ∧ eligible s q).
Proof.
  intros Hwf. unfold open_tokens. split.
  - intros Hnil q [Hm He].
    pose proof (lookup_lt_Some _ _ _ Hm) as Hlt.
    rewrite (wf_len_met s Hwf) in Hlt.
    destruct (lookup_lt_is_Some_2 (constraints s) q Hlt) as [c Hc].
    assert (c ∈ @nil Z) as Hin; [|by apply not_elem_of_nil in Hin].
    rewrite <- Hnil. apply list_elem_of_omap. exists q. split.
    + apply elem_of_seq. lia.
    + by rewrite decide_True.
  - intros Hnone. apply elem_of_nil_inv. intros c Hc.
    apply list_elem_of_omap in Hc as (q & _ & Hq).
    case_decide as Hopen; [|done]. by apply (Hnone q).
Qed.

(** Outside a phrase every phrase is met as a whole or not at all, so when
    no first position is open everything is met. *)
Lemma free_all_met s :
  wf s → (∀ k, lastMet s = Z.of_nat k → ¬ link s k) →
  (∀ q, ¬ (met s !! q = Some false ∧ eligible s q)) →
  ∀ q b, met s !! q = Some b → b = true.
Proof.
  intros Hwf Hfree Hnone q. induction q as [|q IH]; intros b Hb.
  - destruct b; [done|]. by destruct (Hnone O).
  - destruct b; [done|]. exfalso.
    pose proof (lookup_lt_Some _ _ _ Hb) as Hlt.
    destruct (lookup_lt_is_Some_2 (is_sequence s) q) as [v Hv].
    { rewrite (wf_len_seq s Hwf), <- (wf_len_met s Hwf). lia. }
    destruct (wf_bits s Hwf _ _ Hv) as [-> | ->].
    + by apply (Hnone (S q)).
    + destruct (lookup_lt_is_Some_2 (met s) q) as [b' Hb']; [lia|].
      rewrite (IH b' Hb') in Hb'. by eapply no_front_when_free.
Qed.

(** C6: in every reachable state, [allowed] returns the single token
    [constraints[lastMet + 1]] when the state is inside a phrase, returns
    the tokens of the open positions otherwise, and returns the empty list
    exactly when the hypothesis is finished. *)
Theorem allowed_spec s :
  reachable s →
  (mid_phrase s = Ok true ∨ mid_phrase s = Ok false) ∧
  (mid_phrase s = Ok true →
   ∃ c, py_get (constraints s) (lastMet s + 1) = Ok c ∧ allowed s = Ok [c]) ∧
  (mid_phrase s = Ok false → allowed s = Ok (open_tokens s)) ∧
  (allowed s = Ok [] ↔ finished s = true).
Proof.
  intros [Hwf Hcls]%reachable_wf.
  assert (mid_phrase s = Ok true →
          ∃ c, py_get (constraints s) (lastMet s + 1) = Ok c ∧ allowed s = Ok [c])
    as Hmid.
  { intros Hmid.
    destruct (mid_phrase_cases s Hwf) as [[_ (k & Hk & Hlink)]|[? _]]; [|congruence].
    pose proof (link_lt s k Hwf Hlink) as Hlt.
    destruct (lookup_lt_is_Some_2 (constraints s) (S k)) as [c Hc]; [lia|].
    exists c. unfold allowed. rewrite Hmid, Hk. cbn [bind].
    replace (Z.of_nat k + 1) with (Z.of_nat (S k)) by lia.
    by rewrite (py_get_nat _ _ _ Hc). }
  split_and!; [|done|by apply allowed_free|].
  { destruct (mid_phrase_cases s Hwf) as [[? _]|[? _]]; auto. }
  rewrite (finished_all_met s Hwf Hcls).
  destruct (mid_phrase_cases s Hwf) as [[Ht (k & Hk & Hlink)]|[Hf Hfree]].
  - destruct (Hmid Ht) as (c & _ & ->).
    destruct (wf_mid s Hwf k Hk Hlink) as [_ HSk]. split; [done|].
    intros Hall. by pose proof (Hall _ _ HSk).
  - rewrite (allowed_free s Hwf Hf). split.
    + intros [= Hnil]. apply (free_all_met s Hwf Hfree).
      by apply open_tokens_nil.
    + intros Hall. f_equal. apply open_tokens_nil; [done|].
      intros q [Hq _]. by pose proof (Hall _ _ Hq).
Qed.

Lemma allowed_spec_witness :
  let s := MkHypothesis ConstrainedHypothesis [1; 2] [1; 0] 3 [true; false] 0 in
  reachable s ∧
  (mid_phrase s = Ok true →
   ∃ c, py_get (constraints s) (lastMet s + 1) = Ok c ∧ allowed s = Ok [c]).
Proof.
  intros s.
  pose proof example_mid_reachable as Hs. fold s in Hs.
  split; [exact Hs|]. exact (proj1 (proj2 (allowed_spec s Hs))).
Defined.

(** ** Index safety *)

Lemma allowed_returns s : wf s → returns (allowed s).
Proof.
  intros Hwf.
  destruct (mid_phrase_cases s Hwf) as [[Ht (k & Hk & Hlink)]|[Hf _]].
  - pose proof (link_lt s k Hwf Hlink) as Hlt.
    destruct (lookup_lt_is_Some_2 (constraints s) (S k)) as [c Hc]; [lia|].
    exists [c]. unfold allowed. rewrite Ht, Hk. cbn [bind].
    replace (Z.of_nat k + 1) with (Z.of_nat (S k)) by lia.
    by rewrite (py_get_nat _ _ _ Hc).
  - eexists. by apply allowed_free.
Qed.

(** C9: in every reachable state the last entry of [is_sequence] is 0, so
    a position that is a sequential link has a successor inside the arrays,
    and neither [allowed] nor [advance] raises [IndexError]; the rollback
    walk that starts at [lastMet = k] ends within [k + 1] rounds, that is
    without reading below index -1. *)
Theorem index_accesses_in_range s word_id :
  reachable s →
  (∀ v, last (is_sequence s) = Some v → v = 0) ∧
  (mid_phrase s = Ok true →
   0 ≤ lastMet s ∧ lastMet s + 1 < len (constraints s)) ∧
  returns (allowed s) ∧
  returns (advance s word_id) ∧
  (∀ k, lastMet s = Z.of_nat k →
        returns (rollback (S k) (is_sequence s) (met s) (lastMet s))).
Proof.
  intros [Hwf Hcls]%reachable_wf. split_and!.
  - apply Hwf.
  - intros Hmid.
    destruct (mid_phrase_cases s Hwf) as [[_ (k & Hk & Hlink)]|[? _]]; [|congruence].
    pose proof (link_lt s k Hwf Hlink). unfold len. lia.
  - by apply allowed_returns.
  - destruct (advance_cases s word_id Hwf) as (s' & Heq & _). by exists s'.
  - intros k Hk. rewrite Hk.
    destruct (rollback_spec (is_sequence s) k (S k) (met s)) as (m' & Heq & _).
    + apply Hwf.
    + rewrite (wf_len_seq s Hwf).
      destruct (wf_lastMet s Hwf) as [|Hr]; [lia|]. unfold len in Hr. lia.
    + by rewrite (wf_len_met s Hwf), (wf_len_seq s Hwf).
    + lia.
    + by exists m'.
Qed.

Lemma index_accesses_in_range_witness :
  let s := MkHypothesis ConstrainedHypothesis [1; 2] [1; 0] 3 [true; false] 0 in
  reachable s ∧ returns (allowed s) ∧ returns (advance s 5).
Proof.
  intros s.
  pose proof example_mid_reachable as Hs. fold s in Hs.
  destruct (index_accesses_in_range s 5 Hs) as (_ & _ & Ha & Hb & _).
  exact (conj Hs (conj Ha Hb)).
Defined.

(** ** Abandoning a phrase *)

Lemma phrase_first_links sq j k :
  (j ≤ k)%nat →
  phrase_first sq j = phrase_first sq k ↔
  ∀ i, (j ≤ i < k)%nat → sq !! i = Some 1.
Proof.
  induction 1 as [|k Hle IH].
  - split; [|done]. intros _ i Hi. lia.
  - simpl. case_decide as Hk.
    + rewrite IH. split.
      * intros Hl i Hi. destruct (decide (i = k)) as [->|]; [done|].
        apply Hl. lia.
      * intros Hl i Hi. apply Hl. lia.
    + pose proof (phrase_first_le sq j). split; [lia|].
      intros Hl. destruct Hk. apply Hl. lia.
Qed.

Lemma later_unmet s k j :
  wf s → lastMet s = Z.of_nat k → link s k →
  (k < j)%nat → same_phrase s j k → (j < length (met s))%nat →
  met s !! j = Some false.
Proof.
  intros Hwf Hk Hlink Hlt Hsame Hj.
  assert (∀ i, (k ≤ i < j)%nat → is_sequence s !! i = Some 1) as Hlinks.
  { apply phrase_first_links; [lia|]. by symmetry. }
  clear Hsame Hj. induction Hlt as [|j Hlt IH].
  - by apply (wf_mid s Hwf k).
  - apply next_unmet; [done|apply Hlinks; lia|].
    apply IH. intros i Hi. apply Hlinks. lia.
Qed.

Lemma eligible_phrase_first s k :
  wf s → (k < length (is_sequence s))%nat →
  eligible s (phrase_first (is_sequence s) k).
Proof.
  intros Hwf. induction k as [|k IH]; intros Hlt; simpl; [done|].
  case_decide as Hk; [apply IH; lia|]. simpl.
  destruct (lookup_lt_is_Some_2 (is_sequence s) k) as [v Hv]; [lia|].
  by destruct (wf_bits s Hwf _ _ Hv) as [-> | ->].
Qed.

Lemma init_start c constraint_list eos s0 :
  init c constraint_list eos = Ok s0 →
  met s0 = (λ _, false) <$> constraints s0 ∧ lastMet s0 = -1.
Proof.
  unfold init. destruct (init_phrases _ _ _) as [[cs sq]| |]; [|done..].
  by intros [= <-].
Qed.

(** The phrase rolled back can be entered again at its first position. *)
Lemma restart_phrase s k m' :
  wf s → lastMet s = Z.of_nat k → link s k →
  wf (with_progress s m' (-1)) →
  (∀ j, run (is_sequence s) j k → m' !! j = Some false) →
  (∀ j, ¬ run (is_sequence s) j k → m' !! j = met s !! j) →
  let p := phrase_first (is_sequence s) k in
  ∃ w, constraints s !! p = Some w ∧
       advance (with_progress s m' (-1)) w
       = Ok (with_progress s (<[p:=true]> m') (Z.of_nat p)).
Proof.
  intros Hwf Hk Hlink Hwf' Hin Hout p.
  pose proof (link_lt s k Hwf Hlink) as Hlt.
  pose proof (phrase_first_le (is_sequence s) k) as Hple. fold p in Hple.
  destruct (lookup_lt_is_Some_2 (constraints s) p) as [w Hw]; [lia|].
  exists w. split; [done|].
  assert (eligible s p) as Hel.
  { apply eligible_phrase_first; [done|]. rewrite (wf_len_seq s Hwf). lia. }
  assert (open_for (with_progress s m' (-1)) w p) as Hopen.
  { split_and!; [done..|]. simpl. apply Hin.
    apply run_same_phrase; [done..|]. split; [done|].
    by apply (phrase_first_eligible s). }
  destruct (advance_cases _ w Hwf') as (s'' & -> & Hspec). f_equal.
  inversion Hspec as [k' Hk'|k' c' m'' Hk'|pos Hfree Hpos Hmin|Hfree Hnone];
    simpl in *; [lia|lia| |by destruct (Hnone p)].
  destruct (decide (pos = p)) as [->|Hne]; [done|].
  destruct (decide (p < pos)%nat) as [Hlt'|]; [by destruct (Hmin p)|].
  exfalso. destruct Hpos as (Hc & He & Hm). simpl in Hc, Hm.
  assert (¬ run (is_sequence s) pos k) as Hnrun.
  { intros [_ Hsame]%run_same_phrase; [|done..].
    pose proof (phrase_first_le (is_sequence s) pos). fold p in Hsame. lia. }
  rewrite (Hout _ Hnrun) in Hm.
  assert (met s !! pos = Some true); [|congruence].
  apply (wf_first s Hwf k); [done|done|fold p; lia|done|]. fold p. congruence.
Qed.

(** C4: advancing a state that is inside a phrase on a token other than the
    expected one returns a state with [lastMet = -1] in which no position
    of that phrase is met and every other position is as before; when
    nothing but that phrase was met the state is the start state again; and
    advancing the result on the first token of the phrase meets its first
    position. *)
Theorem advance_abandons_phrase constraint_list eos s0 s t :
  new_ConstrainedHypothesis constraint_list eos = Ok s0 →
  reachable_from s0 s →
  mid_phrase s = Ok true →
  py_get (constraints s) (lastMet s + 1) ≠ Ok t →
  let k := Z.to_nat (lastMet s) in
  let p := phrase_first (is_sequence s) k in
  ∃ s', advance s t = Ok s' ∧ lastMet s' = -1 ∧
    (∀ j b, same_phrase s j k → met s !! j = Some b → met s' !! j = Some false) ∧
    (∀ j, ¬ same_phrase s j k → met s' !! j = met s !! j) ∧
    ((∀ j, met s !! j = Some true → same_phrase s j k) → s' = s0) ∧
    (∃ w s'', constraints s !! p = Some w ∧ advance s' w = Ok s'' ∧
              lastMet s'' = Z.of_nat p ∧ met s'' = <[p:=true]> (met s')).
Proof.
  intros Hnew Hreach Hmid Hexp k p.
  pose proof (init_start _ _ _ _ Hnew) as [Hmet0 Hlast0].
  apply init_wf in Hnew as [Hwf0 Hcls0].
  destruct (reachable_from_wf _ _ Hwf0 Hreach) as (Hwf & Hcls & Hcs & Hsq & Heos).
  destruct (mid_phrase_cases s Hwf) as [[_ (k' & Hk & Hlink)]|[? _]]; [|congruence].
  assert (k = k') as Hkk by (unfold k; lia).
  subst p. clearbody k. subst k'.
  destruct (advance_cases s t Hwf) as (s' & Hadv & Hspec).
  pose proof (advance_spec_wf s t s' Hwf Hspec) as Hwf'.
  exists s'. split; [done|].
  destruct Hspec as [k' Hk' _ Hc|k' c m' Hk' _ Hc Hne Hlen Hin Hout
                    |pos Hfree _ _|Hfree _].
  - destruct Hexp. rewrite Hk'. replace (Z.of_nat k' + 1) with (Z.of_nat (S k')) by lia.
    by apply py_get_nat.
  - assert (k' = k) as -> by lia. simpl. split_and!.
    + done.
    + intros j b Hsame Hb. destruct (decide (j ≤ k)%nat) as [Hle|Hgt].
      * apply Hin. by apply run_same_phrase.
      * rewrite Hout by (intros [? _]; lia).
        apply later_unmet with (k := k); [done..|lia|done|].
        by eapply lookup_lt_Some.
    + intros j Hsame. apply Hout. intros [_ ?]%run_same_phrase; done.
    + intros Honly.
      assert (m' = (λ _, false) <$> constraints s) as ->.
      { apply list_eq. intros j. rewrite list_lookup_fmap.
        destruct (decide (j < length (constraints s))%nat) as [Hj|Hj].
        - destruct (lookup_lt_is_Some_2 (constraints s) j Hj) as [x ->]. simpl.
          destruct (lookup_lt_is_Some_2 (met s) j) as [b Hb].
          { rewrite (wf_len_met s Hwf). lia. }
          destruct (decide (phrase_first (is_sequence s) j
                            = phrase_first (is_sequence s) k)) as [Hsame|Hdiff].
          + destruct (decide (j ≤ k)%nat) as [Hle|Hgt].
            * apply Hin. by apply run_same_phrase.
            * rewrite (Hout j) by (intros [? _]; lia).
              apply later_unmet with (k := k); [done..|lia|done|].
              by eapply lookup_lt_Some.
          + rewrite (Hout j) by (intros [_ ?]%run_same_phrase; done).
            rewrite Hb. f_equal. destruct b; [|done].
            by destruct (Hdiff (Honly j Hb)).
        - rewrite (lookup_ge_None_2 (constraints s) j) by lia. simpl.
          apply lookup_ge_None_2. rewrite Hlen, (wf_len_met s Hwf). lia. }
      clear -Hmet0 Hlast0 Hcls Hcs Hsq Heos.
      destruct s0, s; simpl in *; by subst.
    + destruct (restart_phrase s k m' Hwf Hk Hlink Hwf' Hin Hout) as (w & Hw & Heq).
      exists w. eexists. split_and!; [done|exact Heq|done..].
  - by destruct (Hfree k).
  - by destruct (Hfree k).
Qed.

Lemma advance_abandons_phrase_witness :
  let s0 := MkHypothesis ConstrainedHypothesis [1; 2] [1; 0] 3 [false; false] (-1) in
  let s := MkHypothesis ConstrainedHypothesis [1; 2] [1; 0] 3 [true; false] 0 in
  advance s0 1 = Ok s ∧
  ∃ s', advance s 5 = Ok s' ∧ lastMet s' = -1 ∧
    ((∀ j, met s !! j = Some true → same_phrase s j O) → s' = s0).
Proof.
  intros s0 s. split; [reflexivity|].
  assert (new_ConstrainedHypothesis [[1; 2]] 3 = Ok s0) as Hnew by reflexivity.
  assert (reachable_from s0 s) as Hreach.
  { eapply reachable_advance with (word_id := 1); [constructor|reflexivity]. }
  assert (mid_phrase s = Ok true) as Hmid by reflexivity.
  assert (py_get (constraints s) (lastMet s + 1) ≠ Ok 5) as Hne.
  { intros H. discriminate H. }
  destruct (advance_abandons_phrase [[1; 2]] 3 s0 s 5 Hnew Hreach Hmid Hne)
    as (s' & Ha & Hb & _ & _ & Hc & _).
  exists s'. exact (conj Ha (conj Hb Hc)).
Defined.

(** ** The stable sort *)

Section sorted_facts.
Context {A K : Type} (le : K → K → bool) (key : A → K).

Lemma insert_by_perm x l : insert_by le key x l ≡ₚ x :: l.
Proof.
  induction l as [|y l IH]; simpl; [done|].
  destruct (le (key x) (key y)); [done|].
  rewrite IH. apply Permutation_swap.
Qed.

Lemma sorted_perm l : sorted le key l ≡ₚ l.
Proof.
  induction l as [|x l IH]; simpl; [done|].
  by rewrite insert_by_perm, IH.
Qed.

(** Inserting keeps the order the elements already have. *)
Lemma insert_by_sublist x l : l `sublist_of` insert_by le key x l.
Proof.
  induction l as [|y l IH]; simpl; [apply sublist_nil_l|].
  destruct (le (key x) (key y)).
  - by apply sublist_cons.
  - by apply sublist_skip.
Qed.

(** The new element goes before every element it is not greater than. *)
Lemma insert_by_before x y l :
  y ∈ l → le (key x) (key y) = true → [x; y] `sublist_of` insert_by le key x l.
Proof.
  intros Hy Hle. induction l as [|z l IH]; simpl.
  { by apply elem_of_nil in Hy. }
  destruct (le (key x) (key z)) eqn:Hz.
  - apply sublist_skip. by apply singleton_sublist_l.
  - apply sublist_cons, IH.
    apply elem_of_cons in Hy as [->|Hy]; [congruence|done].
Qed.

(** Stability: two elements in order in the input, the first not greater
    than the second, are in the same order in the output. *)
Lemma sorted_stable x y l :
  [x; y] `sublist_of` l → le (key x) (key y) = true →
  [x; y] `sublist_of` sorted le key l.
Proof.
  intros Hsub Hle. induction l as [|z l IH]; simpl.
  { by apply sublist_nil_r in Hsub. }
  apply sublist_cons_r in Hsub as [Hsub|(l' & [= <- <-] & Hsub)].
  - etrans; [by apply IH|]. apply insert_by_sublist.
  - apply insert_by_before; [|done].
    rewrite sorted_perm. by apply singleton_sublist_l.
Qed.
End sorted_facts.

(** ** The order in which banks are asked for room *)

Lemma elem_of_range a b j : j ∈ range a b ↔ a ≤ j < b.
Proof. unfold range. rewrite elem_of_seqZ. lia. Qed.

Lemma elem_of_range_down a b j : j ∈ range_down a b ↔ b < j ≤ a.
Proof.
  unfold range_down. rewrite list_elem_of_fmap. setoid_rewrite elem_of_seqZ.
  split.
  - intros (k & -> & Hk). lia.
  - intros Hj. exists (a - j). lia.
Qed.

Lemma elem_of_bank_order i n j :
  j ∈ bank_order i n ↔ (0 ≤ j < i ∨ i < j < n).
Proof.
  unfold bank_order. rewrite sorted_perm, elem_of_app.
  rewrite elem_of_range_down, elem_of_range. lia.
Qed.

Lemma NoDup_bank_order i n : NoDup (bank_order i n).
Proof.
  unfold bank_order. rewrite sorted_perm. apply NoDup_app. split_and!.
  - unfold range_down. apply NoDup_fmap_2; [|apply NoDup_seqZ].
    intros x y. lia.
  - intros j Hj%elem_of_range_down Hj'%elem_of_range. lia.
  - apply NoDup_seqZ.
Qed.

Lemma bind_ext {A B} (r : result A) (k k' : A → result B) :
  (∀ a, k a = k' a) → bind r k = bind r k'.
Proof. intros Hk. destruct r; simpl; auto. Qed.

(** A pass over [l1 ++ l2] is a pass over [l1] followed by one over [l2]. *)
Lemma transfer_loop_app candidates i l1 l2 : ∀ deficit assigned,
  transfer_loop candidates i (l1 ++ l2) deficit assigned =
  let! (deficit, assigned) := transfer_loop candidates i l1 deficit assigned in
  transfer_loop candidates i l2 deficit assigned.
Proof.
  induction l1 as [|j l1 IH]; intros deficit assigned; [done|].
  cbn [app transfer_loop].
  destruct (py_get candidates j) as [cj| |]; cbn [bind]; [|done..].
  destruct (py_get assigned j) as [aj| |]; cbn [bind]; [|done..].
  cbv zeta. case_decide; [|apply IH].
  destruct (py_get assigned i) as [ai| |]; cbn [bind]; [|done..].
  destruct (py_set assigned i _) as [assigned1| |]; cbn [bind]; [|done..].
  destruct (py_get assigned1 j) as [aj'| |]; cbn [bind]; [|done..].
  destruct (py_set assigned1 j _) as [assigned2| |]; cbn [bind]; [|done..].
  apply IH.
Qed.

(** C10: of two banks at the same distance [d] from bank [i], the pass over
    the other banks comes to the lower one, [i - d], before the higher one,
    [i + d], so slots go to bank [i - d] first: the list of banks is
    generated with the lower indices first and the sort by distance is
    stable. *)
Theorem bank_order_lower_first i n d :
  0 < d ≤ i → i + d < n →
  ∃ l1 l2 l3,
    bank_order i n = l1 ++ (i - d) :: l2 ++ (i + d) :: l3 ∧
    ∀ candidates deficit assigned,
      transfer_loop candidates i (bank_order i n) deficit assigned =
      let! (deficit, assigned) := transfer_loop candidates i l1 deficit assigned in
      let! (deficit, assigned) :=
        transfer_loop candidates i [i - d] deficit assigned in
      let! (deficit, assigned) := transfer_loop candidates i l2 deficit assigned in
      let! (deficit, assigned) :=
        transfer_loop candidates i [i + d] deficit assigned in
      transfer_loop candidates i l3 deficit assigned.
Proof.
  intros Hd Hn.
  assert ([i - d; i + d] `sublist_of` bank_order i n) as Hsub.
  { unfold bank_order. apply sorted_stable.
    - apply (sublist_app [i - d] _ [i + d]); apply singleton_sublist_l.
      + apply elem_of_range_down. lia.
      + apply elem_of_range. lia.
    - apply Z.leb_le. lia. }
  apply sublist_cons_l in Hsub as (l1 & k & Horder & Hsub).
  apply sublist_cons_l in Hsub as (l2 & l3 & -> & _).
  exists l1, l2, l3. split; [done|].
  intros candidates deficit assigned. rewrite Horder.
  rewrite transfer_loop_app. apply bind_ext. intros [deficit1 assigned1].
  rewrite (transfer_loop_app _ _ [i - d] (l2 ++ (i + d) :: l3)).
  apply bind_ext. intros [deficit2 assigned2].
  rewrite transfer_loop_app. apply bind_ext. intros [deficit3 assigned3].
  apply (transfer_loop_app _ _ [i + d] l3).
Qed.

Lemma bank_order_lower_first_witness :
  0 < 1 ≤ 1 ∧ 1 + 1 < 3 ∧
  (∃ l1 l2 l3, bank_order 1 3 = l1 ++ (1 - 1) :: l2 ++ (1 + 1) :: l3) ∧
  get_bank_sizes 1 2 3 [3; 0; 3] = Ok [2; 0; 1].
Proof.
  assert (0 < 1 ≤ 1) as H1 by lia.
  assert (1 + 1 < 3) as H2 by lia.
  destruct (bank_order_lower_first 1 3 1 H1 H2) as (l1 & l2 & l3 & Horder & _).
  refine (conj H1 (conj H2 (conj _ _))); [|reflexivity].
  exists l1, l2, l3. exact Horder.
Defined.

(** ** Sums of integer lists *)

Lemma sumZ_cons x l : sumZ (x :: l) = x + sumZ l.
Proof. done. Qed.

Lemma sumZ_app l k : sumZ (l ++ k) = sumZ l + sumZ k.
Proof. induction l as [|x l IH]; simpl; lia. Qed.

Lemma sumZ_insert l k a v :
  l !! k = Some a → sumZ (<[k:=v]> l) = sumZ l - a + v.
Proof.
  revert k. induction l as [|x l IH]; intros [|k] Hk; simplify_eq/=; [lia|].
  rewrite (IH k) by done. lia.
Qed.

Lemma sumZ_replicate n x : sumZ (replicate n x) = Z.of_nat n * x.
Proof. induction n as [|n IH]; simpl replicate; simpl sumZ; lia. Qed.

#[export] Instance sumZ_perm : Proper ((≡ₚ) ==> (=)) sumZ.
Proof. induction 1; simpl; lia. Qed.

Lemma sumZ_fmap_le {A} (f g : A → Z) l :
  (∀ x, x ∈ l → f x ≤ g x) → sumZ (f <$> l) ≤ sumZ (g <$> l).
Proof.
  unfold sumZ. induction l as [|x l IH]; intros Hle; csimpl; [done|].
  pose proof (Hle x (list_elem_of_here _ _)).
  assert (∀ y, y ∈ l → f y ≤ g y) as Hl.
  { intros y Hy. apply Hle. by apply list_elem_of_further. }
  specialize (IH Hl). lia.
Qed.

Lemma sumZ_fmap_sub {A} (f g : A → Z) l :
  sumZ ((λ x, f x - g x) <$> l) = sumZ (f <$> l) - sumZ (g <$> l).
Proof. unfold sumZ. induction l as [|x l IH]; csimpl; lia. Qed.

Lemma lookups_all (l : list Z) :
  (λ j, l !!! Z.to_nat j) <$> seqZ 0 (len l) = l.
Proof.
  apply list_eq. intros k. rewrite list_lookup_fmap. unfold len.
  destruct (decide (k < length l)%nat) as [Hk|Hk].
  - rewrite lookup_seqZ_lt by lia. csimpl.
    replace (Z.to_nat (0 + Z.of_nat k)) with k by lia.
    symmetry. by apply list_lookup_lookup_total_lt.
  - rewrite lookup_seqZ_ge by lia. simpl. symmetry. apply lookup_ge_None_2. lia.
Qed.

Lemma py_get_in_range {A} `{!Inhabited A} (l : list A) j :
  0 ≤ j < len l → py_get l j = Ok (l !!! Z.to_nat j).
Proof.
  intros Hj. unfold len in Hj. rewrite <- (Z2Nat.id j) at 1 by lia.
  apply py_get_nat, list_lookup_lookup_total_lt. lia.
Qed.

Lemma py_set_in_range {A} (l : list A) j v :
  0 ≤ j < len l → py_set l j v = Ok (<[Z.to_nat j:=v]> l).
Proof.
  intros Hj. unfold len in Hj. rewrite <- (Z2Nat.id j) at 1 by lia.
  apply py_set_nat. lia.
Qed.

(** ** The bank allocator *)

Section allocation.
Variable candidates : list Z.
Variable beam_size : Z.
Hypothesis candidates_nonneg : Forall (λ c, 0 ≤ c) candidates.

Lemma spare_nonneg assigned order : 0 ≤ spare candidates assigned order.
Proof.
  unfold spare, sumZ. induction order as [|j order IH]; csimpl; [done|]. lia.
Qed.

Lemma spare_insert assigned order k v :
  (∀ j, j ∈ order → Z.to_nat j ≠ k) →
  spare candidates (<[k:=v]> assigned) order = spare candidates assigned order.
Proof.
  intros Hk. unfold spare. f_equal. apply list_fmap_ext.
  intros n j Hj%list_elem_of_lookup_2. unfold room.
  by rewrite list_lookup_total_insert_ne by (symmetry; by apply Hk).
Qed.

Lemma transfer_loop_spec i order : ∀ deficit assigned,
  0 ≤ i < len candidates →
  Forall (λ j, 0 ≤ j < len candidates) order →
  alloc_inv candidates beam_size assigned → deficit = room candidates assigned (Z.to_nat i) → deficit ≤ 0 →
  ∃ deficit' assigned',
    transfer_loop candidates i order deficit assigned = Ok (deficit', assigned') ∧
    alloc_inv candidates beam_size assigned' ∧ deficit' = room candidates assigned' (Z.to_nat i) ∧ deficit' ≤ 0 ∧
    (∀ k, k ≠ Z.to_nat i → 0 ≤ room candidates assigned k → 0 ≤ room candidates assigned' k) ∧
    (i ∉ order → NoDup order →
     - deficit' ≤ 0 `max` (- deficit - spare candidates assigned order)).
Proof.
  induction order as [|j order IH]; intros deficit assigned Hi Horder Hinv Hdef Hneg.
  { exists deficit, assigned. split_and!; try done.
    intros _ _. unfold spare. simpl. lia. }
  apply Forall_cons in Horder as [Hj Horder].
  destruct Hinv as [Hlen Hsum Hpos].
  assert (len assigned = len candidates) as Hlen' by (unfold len; lia).
  cbn [transfer_loop].
  rewrite (py_get_in_range candidates j) by done. cbn [bind].
  rewrite (py_get_in_range assigned j) by lia. cbn [bind]. cbv zeta.
  fold (room candidates assigned (Z.to_nat j)).
  case_decide as Hcap.
  - (* bank [j] has room: move slots from bank [i] to it *)
    set (transfer := Z.abs deficit `min` room candidates assigned (Z.to_nat j)).
    assert (0 ≤ transfer ≤ - deficit ∧ transfer ≤ room candidates assigned (Z.to_nat j))
      as Htr by (unfold transfer; lia).
    assert (Z.to_nat j ≠ Z.to_nat i) as Hji by (intros Heq; rewrite Heq in Hcap; lia).
    rewrite (py_get_in_range assigned i) by lia. cbn [bind].
    rewrite (py_set_in_range assigned i) by lia. cbn [bind].
    set (assigned1 := <[Z.to_nat i:=assigned !!! Z.to_nat i - transfer]> assigned).
    assert (len assigned1 = len candidates) as Hlen1.
    { unfold assigned1, len. rewrite length_insert. lia. }
    rewrite (py_get_in_range assigned1 j) by lia. cbn [bind].
    rewrite (py_set_in_range assigned1 j) by lia. cbn [bind].
    assert (assigned1 !!! Z.to_nat j = assigned !!! Z.to_nat j) as Hj1.
    { unfold assigned1. by rewrite list_lookup_total_insert_ne by done. }
    rewrite Hj1.
    set (assigned2 := <[Z.to_nat j:=assigned !!! Z.to_nat j + transfer]> assigned1).
    assert (room candidates assigned2 (Z.to_nat i) = deficit + transfer) as Hroomi.
    { unfold room, assigned2, assigned1.
      rewrite list_lookup_total_insert_ne by done.
      rewrite list_lookup_total_insert_eq by (unfold len in *; lia).
      unfold room in Hdef. lia. }
    assert (room candidates assigned2 (Z.to_nat j) = room candidates assigned (Z.to_nat j) - transfer)
      as Hroomj.
    { unfold room, assigned2.
      rewrite list_lookup_total_insert_eq
        by (unfold assigned1; rewrite length_insert; unfold len in *; lia).
      unfold room. lia. }
    assert (∀ k, k ≠ Z.to_nat i → k ≠ Z.to_nat j →
                 room candidates assigned2 k = room candidates assigned k) as Hroomk.
    { intros k Hki Hkj. unfold room, assigned2, assigned1.
      by rewrite !list_lookup_total_insert_ne by done. }
    destruct (IH (deficit + transfer) assigned2)
      as (deficit' & assigned' & -> & Hinv' & Hdef' & Hneg' & Hkeep & Hspare);
      [done|done| |done|lia|].
    { split.
      - unfold assigned2, assigned1. rewrite !length_insert. done.
      - unfold assigned2.
        rewrite (sumZ_insert assigned1 _ (assigned !!! Z.to_nat j)); last first.
        { rewrite <- Hj1. apply list_lookup_lookup_total_lt.
          unfold len in *. lia. }
        unfold assigned1.
        rewrite (sumZ_insert assigned _ (assigned !!! Z.to_nat i)); last first.
        { apply list_lookup_lookup_total_lt. unfold len in *. lia. }
        lia.
      - apply Forall_insert; [apply Forall_insert; [done|]|].
        + pose proof (Forall_lookup_total_1 _ _ (Z.to_nat i) candidates_nonneg).
          unfold room in Hdef. unfold len in *. lia.
        + pose proof (Forall_lookup_total_1 _ _ (Z.to_nat j) Hpos).
          unfold len in *. lia. }
    exists deficit', assigned'. split_and!; try done.
    + intros k Hki Hk. apply Hkeep; [done|].
      destruct (decide (k = Z.to_nat j)) as [->|Hkj].
      * rewrite Hroomj. lia.
      * by rewrite Hroomk.
    + intros Hnotin [Hjnot Hnodup]%NoDup_cons.
      apply not_elem_of_cons in Hnotin as [Hij Hnotin].
      specialize (Hspare Hnotin Hnodup).
      assert (spare candidates assigned2 order = spare candidates assigned order) as Heq.
      { unfold assigned2, assigned1. rewrite !spare_insert; [done|..].
        - intros r Hr Heq. rewrite Forall_forall in Horder.
          pose proof (Horder r Hr). assert (r = i) by lia. by subst.
        - intros r Hr Heq. rewrite Forall_forall in Horder.
          pose proof (Horder r Hr). assert (r = j) by lia. by subst. }
      rewrite Heq in Hspare. pose proof (spare_nonneg assigned order).
      unfold spare in *. csimpl. unfold sumZ in *. simpl. lia.
  - (* bank [j] is full *)
    destruct (IH deficit assigned)
      as (deficit' & assigned' & -> & Hinv' & Hdef' & Hneg' & Hkeep & Hspare);
      [done..|].
    exists deficit', assigned'. split_and!; try done.
    intros Hnotin [Hjnot Hnodup]%NoDup_cons.
    apply not_elem_of_cons in Hnotin as [Hij Hnotin].
    specialize (Hspare Hnotin Hnodup).
    unfold spare in *. csimpl. unfold sumZ in *. simpl. lia.
Qed.

Lemma bank_order_in_range i n :
  0 ≤ i < len candidates → n = len candidates →
  Forall (λ j, 0 ≤ j < len candidates) (bank_order i n).
Proof.
  intros Hi ->. apply Forall_forall. intros j Hj%elem_of_bank_order. lia.
Qed.

(** The [while] loop neither raises nor leaves bank [i] with more slots
    than candidates, and it does not overfill another bank. *)
Lemma redistribute_spec budget i : ∀ deficit assigned,
  0 ≤ i < len candidates → alloc_inv candidates beam_size assigned →
  deficit = room candidates assigned (Z.to_nat i) →
  match redistribute budget candidates i deficit assigned with
  | Ok res => alloc_inv candidates beam_size res ∧ 0 ≤ room candidates res (Z.to_nat i) ∧
              (∀ k, k ≠ Z.to_nat i → 0 ≤ room candidates assigned k → 0 ≤ room candidates res k)
  | Raise _ => False
  | Timeout => True
  end.
Proof.
  induction budget as [|budget IH]; intros deficit assigned Hi Hinv Hdef;
    cbn [redistribute]; case_decide as Hneg; try done.
  - split_and!; [done|lia|done].
  - cbv zeta.
    destruct (transfer_loop_spec i (bank_order i (len assigned)) deficit assigned)
      as (deficit' & assigned' & -> & Hinv' & Hdef' & _ & Hkeep & _);
      [done| |done|done|lia|].
    { apply bank_order_in_range; [done|]. unfold len. by rewrite (ai_len _ _ _ Hinv). }
    cbn [bind]. specialize (IH deficit' assigned' Hi Hinv' Hdef').
    destruct (redistribute budget candidates i deficit' assigned'); [|done..].
    destruct IH as (? & ? & Hkeep'). split_and!; [done..|].
    intros k Hk Hroom. by apply Hkeep', Hkeep.
  - split_and!; [done|lia|done].
Qed.

Lemma spare_covers i assigned :
  0 ≤ i < len candidates → alloc_inv candidates beam_size assigned →
  sumZ candidates - beam_size - room candidates assigned (Z.to_nat i)
  ≤ spare candidates assigned (bank_order i (len candidates)).
Proof.
  intros Hi [Hlen Hsum _].
  set (order := bank_order i (len candidates)).
  assert (seqZ 0 (len candidates) ≡ₚ i :: order) as Hperm.
  { apply NoDup_Permutation.
    - apply NoDup_seqZ.
    - apply NoDup_cons. split; [|apply NoDup_bank_order].
      intros Hin%elem_of_bank_order. lia.
    - intros j. rewrite elem_of_seqZ, elem_of_cons.
      unfold order. rewrite elem_of_bank_order. lia. }
  assert (sumZ ((λ j, room candidates assigned (Z.to_nat j)) <$> seqZ 0 (len candidates))
          = sumZ candidates - beam_size) as Hall.
  { unfold room.
    rewrite (sumZ_fmap_sub (λ j, candidates !!! Z.to_nat j)
                           (λ j, assigned !!! Z.to_nat j)).
    rewrite lookups_all.
    replace (len candidates) with (len assigned) by (unfold len; lia).
    rewrite lookups_all. lia. }
  rewrite Hperm, fmap_cons, sumZ_cons in Hall.
  etrans; [|apply (sumZ_fmap_le (λ j, room candidates assigned (Z.to_nat j)))].
  - lia.
  - intros j _. simpl. lia.
Qed.

(** With at least [beam_size] candidates in all, one pass settles the
    deficit of a bank. *)
Lemma redistribute_returns budget i deficit assigned :
  0 ≤ i < len candidates → alloc_inv candidates beam_size assigned →
  deficit = room candidates assigned (Z.to_nat i) →
  beam_size ≤ sumZ candidates →
  returns (redistribute (S budget) candidates i deficit assigned).
Proof.
  intros Hi Hinv Hdef Hsum. cbn [redistribute]. case_decide as Hneg.
  - cbv zeta.
    assert (len assigned = len candidates) as Hlen.
    { unfold len. by rewrite (ai_len _ _ _ Hinv). }
    destruct (transfer_loop_spec i (bank_order i (len assigned)) deficit assigned)
      as (deficit' & assigned' & -> & Hinv' & Hdef' & Hneg' & _ & Hspare);
      [done|by apply bank_order_in_range|done|done|lia|].
    cbn [bind].
    assert (0 ≤ deficit') as Hpos.
    { rewrite Hlen in Hspare.
      pose proof (spare_covers i assigned Hi Hinv).
      assert (i ∉ bank_order i (len candidates)) as Hnotin.
      { intros Hin%elem_of_bank_order. lia. }
      specialize (Hspare Hnotin (NoDup_bank_order _ _)). lia. }
    destruct budget; cbn [redistribute]; rewrite decide_False by lia;
      by eexists.
  - by eexists.
Qed.

Lemma banks_loop_spec budget banks : ∀ assigned (full : nat → Prop),
  Forall (λ i, 0 ≤ i < len candidates) banks → alloc_inv candidates beam_size assigned →
  (∀ k, full k → 0 ≤ room candidates assigned k) →
  match banks_loop budget candidates banks assigned with
  | Ok res => alloc_inv candidates beam_size res ∧
              (∀ k, full k ∨ Z.of_nat k ∈ banks → 0 ≤ room candidates res k)
  | Raise _ => False
  | Timeout => True
  end.
Proof.
  induction banks as [|i banks IH]; intros assigned full Hbanks Hinv Hfull;
    cbn [banks_loop].
  { split; [done|]. intros k [Hk|Hk%elem_of_nil]; [by apply Hfull|done]. }
  apply Forall_cons in Hbanks as [Hi Hbanks].
  assert (len assigned = len candidates) as Hlen.
  { unfold len. by rewrite (ai_len _ _ _ Hinv). }
  rewrite (py_get_in_range candidates i) by done. cbn [bind].
  rewrite (py_get_in_range assigned i) by lia. cbn [bind]. cbv zeta.
  pose proof (redistribute_spec budget i _ assigned Hi Hinv eq_refl) as Hred.
  unfold room in Hred at 1.
  destruct (redistribute budget candidates i _ assigned) as [assigned1| |];
    [|done..].
  cbn [bind]. destruct Hred as (Hinv1 & Hroomi & Hkeep).
  assert (∀ k, full k ∨ k = Z.to_nat i → 0 ≤ room candidates assigned1 k) as Hfull1.
  { intros k [Hk| ->]; [|done].
    destruct (decide (k = Z.to_nat i)) as [->|Hne]; [done|].
    by apply Hkeep, Hfull. }
  specialize (IH assigned1 (λ k, full k ∨ k = Z.to_nat i) Hbanks Hinv1 Hfull1).
  destruct (banks_loop budget candidates banks assigned1); [|done..].
  destruct IH as [Hinv2 Hroom].
  split; [done|]. intros k [Hk|Hk].
  - apply Hroom. by left; left.
  - apply elem_of_cons in Hk as [Hk|Hk].
    + apply Hroom. left; right. lia.
    + apply Hroom. by right.
Qed.

Lemma banks_loop_returns budget banks : ∀ assigned,
  Forall (λ i, 0 ≤ i < len candidates) banks → alloc_inv candidates beam_size assigned →
  beam_size ≤ sumZ candidates →
  returns (banks_loop (S budget) candidates banks assigned).
Proof.
  induction banks as [|i banks IH]; intros assigned Hbanks Hinv Hsum;
    cbn [banks_loop]; [by eexists|].
  apply Forall_cons in Hbanks as [Hi Hbanks].
  assert (len assigned = len candidates) as Hlen.
  { unfold len. by rewrite (ai_len _ _ _ Hinv). }
  rewrite (py_get_in_range candidates i) by done. cbn [bind].
  rewrite (py_get_in_range assigned i) by lia. cbn [bind]. cbv zeta.
  pose proof (redistribute_spec (S budget) i _ assigned Hi Hinv eq_refl) as Hred.
  destruct (redistribute_returns budget i _ assigned Hi Hinv eq_refl Hsum)
    as [assigned1 Heq].
  unfold room in Hred at 1, Heq. rewrite Heq in Hred |- *. cbn [bind].
  apply IH; [done| |done]. apply Hred.
Qed.

(** The allocation [get_bank_sizes] starts from. *)
Lemma initial_allocation num_constraints :
  0 ≤ num_constraints → 0 ≤ beam_size →
  len candidates = num_constraints + 1 →
  let num_banks := num_constraints + 1 in
  let bank_size := beam_size `div` num_banks in
  let remainder := beam_size - bank_size * num_banks in
  let assigned := replicate (Z.to_nat num_banks) bank_size in
  ∃ assigned0,
    py_get assigned (-1) = Ok bank_size ∧
    py_set assigned (-1) (bank_size + remainder) = Ok assigned0 ∧
    alloc_inv candidates beam_size assigned0.
Proof.
  intros Hn Hbeam Hlen num_banks bank_size remainder assigned.
  assert (length assigned = Z.to_nat num_banks) as Hlen0.
  { unfold assigned. by rewrite length_replicate. }
  assert (0 < num_banks) as Hbanks by (unfold num_banks; lia).
  assert (assigned !! pred (Z.to_nat num_banks) = Some bank_size) as Hlast.
  { unfold assigned. apply lookup_replicate_2. lia. }
  eexists. split_and!.
  - apply py_get_last. by rewrite last_lookup, Hlen0.
  - unfold py_set. rewrite py_index_neg by lia. done.
  - rewrite Hlen0.
    replace (Z.to_nat (Z.of_nat (Z.to_nat num_banks) + -1))
      with (pred (Z.to_nat num_banks)) by lia.
    assert (0 ≤ bank_size) as Hsize by (apply Z.div_pos; lia).
    assert (0 ≤ remainder) as Hrem.
    { unfold remainder, bank_size.
      pose proof (Z.mul_div_le beam_size num_banks Hbanks). lia. }
    split.
    + rewrite length_insert, Hlen0. unfold len in Hlen. lia.
    + rewrite (sumZ_insert _ _ bank_size) by done.
      unfold assigned. rewrite sumZ_replicate. unfold remainder. lia.
    + apply Forall_insert; [|lia]. by apply Forall_replicate.
Qed.

(** [get_bank_sizes] does not raise; what it returns has a slot count per
    bank, none negative and none above the bank's candidate count, and
    the counts add up to [beam_size]. *)
Lemma get_bank_sizes_spec budget num_constraints :
  0 ≤ num_constraints → 0 ≤ beam_size →
  len candidates = num_constraints + 1 →
  match get_bank_sizes budget num_constraints beam_size candidates with
  | Ok res => alloc_inv candidates beam_size res ∧ ∀ k, (k < length candidates)%nat → 0 ≤ room candidates res k
  | Raise _ => False
  | Timeout => True
  end.
Proof.
  intros Hn Hbeam Hlen. unfold get_bank_sizes.
  rewrite decide_False by lia. cbv zeta.
  destruct (initial_allocation num_constraints Hn Hbeam Hlen)
    as (assigned0 & Hget & Hset & Hinv).
  rewrite Hget. cbn [bind]. rewrite Hset. cbn [bind].
  assert (Forall (λ i, 0 ≤ i < len candidates) (range 0 (len assigned0)))
    as Hbanks.
  { apply Forall_forall. intros i Hi%elem_of_range.
    unfold len in *. rewrite (ai_len _ _ _ Hinv) in Hi. lia. }
  pose proof (banks_loop_spec budget (range 0 (len assigned0)) assigned0
                (λ _, False) Hbanks Hinv (λ _ (H : False), False_ind _ H))
    as Hloop.
  destruct (banks_loop budget candidates _ assigned0); [|done..].
  destruct Hloop as [Hinv' Hroom].
  split; [done|]. intros k Hk. apply Hroom. right.
  apply elem_of_range. unfold len. rewrite (ai_len _ _ _ Hinv). lia.
Qed.

Lemma get_bank_sizes_returns budget num_constraints :
  0 ≤ num_constraints → 0 ≤ beam_size →
  len candidates = num_constraints + 1 →
  beam_size ≤ sumZ candidates →
  returns (get_bank_sizes (S budget) num_constraints beam_size candidates).
Proof.
  intros Hn Hbeam Hlen Hsum. unfold get_bank_sizes.
  rewrite decide_False by lia. cbv zeta.
  destruct (initial_allocation num_constraints Hn Hbeam Hlen)
    as (assigned0 & Hget & Hset & Hinv).
  rewrite Hget. cbn [bind]. rewrite Hset. cbn [bind]. apply banks_loop_returns; [|done..].
  apply Forall_forall. intros i Hi%elem_of_range.
  unfold len in *. rewrite (ai_len _ _ _ Hinv) in Hi. lia.
Qed.

Lemma room_sum res :
  length res = length candidates →
  (∀ k, (k < length candidates)%nat → 0 ≤ room candidates res k) →
  sumZ res ≤ sumZ candidates.
Proof.
  intros Hlen Hroom.
  rewrite <- (lookups_all res), <- (lookups_all candidates).
  replace (len res) with (len candidates) by (unfold len; lia).
  apply sumZ_fmap_le. intros j [Hj1 Hj2]%elem_of_seqZ.
  specialize (Hroom (Z.to_nat j)). unfold room, len in *.
  assert (Z.to_nat j < length candidates)%nat as Hlt by lia.
  specialize (Hroom Hlt). lia.
Qed.

(** With fewer than [beam_size] candidates in all, some [while] loop of
    [get_bank_sizes] runs for ever. *)
Lemma get_bank_sizes_diverges budget num_constraints :
  0 ≤ num_constraints → 0 ≤ beam_size →
  len candidates = num_constraints + 1 →
  sumZ candidates < beam_size →
  get_bank_sizes budget num_constraints beam_size candidates = Timeout.
Proof.
  intros Hn Hbeam Hlen Hsum.
  pose proof (get_bank_sizes_spec budget num_constraints Hn Hbeam Hlen) as Hspec.
  destruct (get_bank_sizes budget _ _ _) as [res| |]; [|done..].
  destruct Hspec as [[Hlen' Hsum' _] Hroom].
  pose proof (room_sum res Hlen' Hroom). lia.
Qed.
End allocation.

(** C5: whenever [get_bank_sizes] returns, for a capacity of at least 1, no
    more banks than capacity and non-negative candidate counts, it returns
    one slot count per bank, none negative, and the counts add up to the
    capacity; with capacity 4 and candidate counts [1, 5] bank 1 gets more
    slots than the even share of 4 // 2. *)
Theorem get_bank_sizes_allocation :
  (∀ budget num_constraints beam_size candidates res,
     1 ≤ beam_size → 0 ≤ num_constraints → num_constraints + 1 ≤ beam_size →
     len candidates = num_constraints + 1 →
     Forall (λ c, 0 ≤ c) candidates →
     get_bank_sizes budget num_constraints beam_size candidates = Ok res →
     Forall (λ a, 0 ≤ a) res ∧ sumZ res = beam_size ∧
     len res = num_constraints + 1) ∧
  (∀ budget, ∃ a0 a1,
     get_bank_sizes (S budget) 1 4 [1; 5] = Ok [a0; a1] ∧ 4 `div` 2 < a1).
Proof.
  split; [|by intros []; exists 1, 3].
  intros budget n C cands res HC Hn _ Hlen Hpos Hres.
  pose proof (get_bank_sizes_spec cands C Hpos budget n Hn) as Hspec.
  rewrite Hres in Hspec. destruct Hspec as [[Hlen' Hsum Hnonneg] _]; [lia|done|].
  split_and!; [done..|]. unfold len in *. lia.
Qed.

Lemma get_bank_sizes_allocation_witness :
  get_bank_sizes 1 2 7 [3; 0; 9] = Ok [3; 0; 4] ∧
  Forall (λ a, 0 ≤ a) [3; 0; 4] ∧ sumZ [3; 0; 4] = 7 ∧ len [3; 0; 4] = 2 + 1.
Proof.
  assert (get_bank_sizes 1 2 7 [3; 0; 9] = Ok [3; 0; 4]) as Hres by reflexivity.
  split; [exact Hres|].
  apply (proj1 get_bank_sizes_allocation 1%nat 2 7 [3; 0; 9] [3; 0; 4]);
    [lia|lia|lia|reflexivity| |exact Hres].
  repeat constructor; lia.
Defined.

(** C3: [get_bank_sizes] does not return when there are fewer candidates in
    all than [beam_size]: once no bank has room left, the deficit stays
    negative and [while deficit < 0] goes on for ever, whatever the number
    of passes allowed. *)
Theorem get_bank_sizes_short_supply budget num_constraints beam_size candidates :
  0 ≤ num_constraints → 1 ≤ beam_size →
  len candidates = num_constraints + 1 →
  Forall (λ c, 0 ≤ c) candidates →
  sumZ candidates < beam_size →
  get_bank_sizes budget num_constraints beam_size candidates = Timeout.
Proof.
  intros Hn HC Hlen Hpos Hsum.
  apply get_bank_sizes_diverges; [done|done|lia|done|done].
Qed.

Lemma get_bank_sizes_short_supply_witness :
  get_bank_sizes 1000 1 4 [1; 1] = Timeout.
Proof.
  apply (get_bank_sizes_short_supply 1000 1 4 [1; 1]);
    [lia|lia|reflexivity|repeat constructor; lia|reflexivity].
Defined.

(** With at least [beam_size] candidates in all, [get_bank_sizes] returns,
    each [while] loop after one pass at most. *)
Lemma get_bank_sizes_enough_supply budget num_constraints beam_size candidates :
  0 ≤ num_constraints → 1 ≤ beam_size →
  len candidates = num_constraints + 1 →
  Forall (λ c, 0 ≤ c) candidates →
  beam_size ≤ sumZ candidates →
  returns (get_bank_sizes (S budget) num_constraints beam_size candidates).
Proof.
  intros Hn HC Hlen Hpos Hsum.
  apply get_bank_sizes_returns; [done|done|lia|done|done].
Qed.

(** ** topk *)

Section topk_facts.
Context {score_t : Type}.
Implicit Types (new_kbest pruned : list (@candidate score_t)).
Implicit Types (counts : list Z).

Lemma sorted_length {A K} (le : K → K → bool) (key : A → K) (l : list A) :
  length (sorted le key l) = length l.
Proof. apply Permutation_length, sorted_perm. Qed.

(** The first round of the padding loop builds a [NullHypothesis]. *)
Lemma pad_null_raises (inf : score_t) missing new_kbest :
  (0 < missing)%nat → pad_null inf missing new_kbest = Raise IndexError.
Proof. by destruct missing; [lia|]. Qed.

Lemma pad_null_Ok (inf : score_t) missing new_kbest res :
  pad_null inf missing new_kbest = Ok res → missing = O ∧ res = new_kbest.
Proof. destruct missing; [by intros [= <-]|done]. Qed.

Lemma count_banks_Ok new_kbest : ∀ counts counts',
  count_banks new_kbest counts = Ok counts' →
  length counts' = length counts ∧
  (Forall (λ c, 0 ≤ c) counts → Forall (λ c, 0 ≤ c) counts').
Proof.
  induction new_kbest as [|cand rest IH]; intros counts counts'; cbn [count_banks].
  { by intros [= <-]. }
  cbv zeta.
  destruct (py_get counts _) as [n| |] eqn:Hget; cbn [bind]; [|done..].
  destruct (py_set counts _ _) as [counts1| |] eqn:Hset; cbn [bind]; [|done..].
  intros [Hlen Hpos]%IH.
  apply py_get_Ok in Hget as (k & Hk & Hn).
  apply py_set_Ok in Hset as (k' & Hk' & ->).
  rewrite length_insert in Hlen. split; [done|].
  intros Hcounts. apply Hpos, Forall_insert; [done|].
  pose proof (Forall_lookup_1 _ _ _ _ Hcounts Hn). simpl in *. lia.
Qed.

Lemma sumZ_max0_nonneg counts : 0 ≤ sumZ (Z.max 0 <$> counts).
Proof.
  induction counts as [|c counts IH]; [done|].
  rewrite fmap_cons, sumZ_cons. set (rest := sumZ _) in *. clearbody rest. lia.
Qed.

(** A candidate is kept only against a slot of its bank. *)
Lemma prune_length new_kbest : ∀ counts pruned res,
  prune new_kbest counts pruned = Ok res →
  len res ≤ len pruned + sumZ (Z.max 0 <$> counts).
Proof.
  induction new_kbest as [|cand rest IH]; intros counts pruned res; cbn [prune].
  { intros [= <-]. pose proof (sumZ_max0_nonneg counts) as Hpos.
    set (total := sumZ _) in *. clearbody total. lia. }
  cbv zeta.
  destruct (py_get counts _) as [n| |] eqn:Hget; cbn [bind]; [|done..].
  destruct (py_set counts _ _) as [counts1| |] eqn:Hset; cbn [bind]; [|done..].
  apply py_get_Ok in Hget as (k & Hk & Hn).
  apply py_set_Ok in Hset as (k' & Hk' & ->).
  assert (k' = k) as -> by congruence.
  assert (py_get (<[k:=n - 1]> counts) (numMet (cand_constraints cand))
          = Ok (n - 1)) as ->.
  { unfold py_get, py_index in *. rewrite length_insert, Hk.
    by rewrite list_lookup_insert_eq by by eapply lookup_lt_Some. }
  cbn [bind]. intros Hres%IH.
  rewrite list_fmap_insert in Hres.
  rewrite (sumZ_insert _ _ (0 `max` n)) in Hres
    by (by rewrite list_lookup_fmap, Hn).
  clear IH. set (total := sumZ (Z.max 0 <$> counts)) in *. clearbody total.
  case_decide; unfold len in *; [rewrite length_app in Hres; simpl in Hres|]; lia.
Qed.

Lemma pad_last_length missing : ∀ n pruned res,
  pad_last missing n pruned = Ok res →
  length res = (length pruned + missing)%nat.
Proof.
  induction missing as [|missing IH]; intros n pruned res; cbn [pad_last].
  { intros [= <-]. lia. }
  destruct (py_get pruned _) as [last| |]; cbn [bind]; [|done..].
  intros ->%IH. rewrite length_app. simpl. lia.
Qed.

Lemma max0_nonneg counts :
  Forall (λ c, 0 ≤ c) counts → Z.max 0 <$> counts = counts.
Proof.
  induction 1 as [|c counts Hc _ IH]; csimpl; [done|]. rewrite IH. f_equal. lia.
Qed.

Variable score_le : score_t → score_t → bool.
Variable inf : score_t.
Variable argmin : list score_t → Z.
Variable set_iter : list (@candidate score_t) → list (@candidate score_t).

(** Whenever [topk] returns, its four arrays have [beam_size] entries. *)
Lemma topk_lengths budget beam_size inactive scores hypotheses
    best_ids best_word_ids sequence_scores rows cols scs hyps :
  0 ≤ beam_size →
  topk score_le inf argmin set_iter budget beam_size inactive scores
       hypotheses best_ids best_word_ids sequence_scores
  = Ok (rows, cols, scs, hyps) →
  len rows = beam_size ∧ len cols = beam_size ∧
  len scs = beam_size ∧ len hyps = beam_size.
Proof.
  intros Hbeam. unfold topk.
  destruct (py_get hypotheses 0) as [first| |]; cbn [bind]; [|done..].
  destruct (add_best _ _ _) as [c1| |]; cbn [bind]; [|done..].
  destruct (add_rows _ _ _ _ _ _) as [c2| |]; cbn [bind]; [|done..].
  destruct (pad_null _ _ _) as [new_kbest| |] eqn:Hpad; cbn [bind]; [|done..].
  destruct (count_banks _ _) as [counts| |] eqn:Hcounts; cbn [bind]; [|done..].
  apply count_banks_Ok in Hcounts as [Hlen Hpos].
  rewrite length_replicate in Hlen.
  assert (0 ≤ size first) as Hsize by (unfold size, len; lia).
  pose proof (get_bank_sizes_spec counts beam_size
                (Hpos (Forall_replicate _ _ _ (Z.le_refl 0)))
                budget (size first) Hsize Hbeam) as Hspec.
  destruct (get_bank_sizes _ _ _ _) as [bank_sizes| |]; cbn [bind]; [|done..].
  destruct (prune _ _ _) as [pruned| |] eqn:Hprune; cbn [bind]; [|done..].
  destruct (pad_last _ _ _) as [padded| |] eqn:Hlast; cbn [bind]; [|done..].
  intros [= <- <- <- <-].
  destruct Hspec as [[_ Hsum Hnonneg] _]; [unfold len; lia|].
  apply prune_length in Hprune. rewrite (max0_nonneg _ Hnonneg), Hsum in Hprune.
  change (len (@nil (@candidate score_t))) with 0 in Hprune.
  apply pad_last_length in Hlast.
  unfold len in *. rewrite !length_fmap, Hlast. lia.
Qed.
End topk_facts.

(** C2: when fewer candidates than [beam_size] come out of the three
    sources, [topk] raises [IndexError] and returns no array at all: the
    padding loop builds [NullHypothesis()], whose constructor raises. *)
Theorem topk_short_beam_raises {score_t} (score_le : score_t → score_t → bool)
    inf argmin set_iter budget beam_size inactive scores hypotheses
    best_ids best_word_ids sequence_scores first c1 c2 :
  py_get hypotheses 0 = Ok first →
  add_best hypotheses (zip (zip best_ids best_word_ids) sequence_scores) [] = Ok c1 →
  add_rows inactive scores hypotheses (argmin <$> scores) (range 0 beam_size) c1
  = Ok c2 →
  len (set_iter c2) < beam_size →
  topk score_le inf argmin set_iter budget beam_size inactive scores
       hypotheses best_ids best_word_ids sequence_scores
  = Raise IndexError.
Proof.
  intros Hfirst Hbest Hrows Hshort. unfold topk.
  rewrite Hfirst. cbn [bind]. rewrite Hbest. cbn [bind].
  rewrite Hrows. cbn [bind].
  rewrite pad_null_raises; [done|].
  unfold len in *. rewrite sorted_length. lia.
Qed.

Lemma topk_short_beam_raises_witness :
  let h := MkHypothesis ConstrainedHypothesis [] [] 3 [] (-1) in
  topk Z.leb 1000 (λ _, 5) (λ l, l) 1 2 [false; true]
       [[9; 9; 9; 9; 9; 7]; [9; 9; 9; 9; 9; 9]] [h; h] [0] [5] [7]
  = Raise IndexError.
Proof.
  intros h.
  apply (topk_short_beam_raises Z.leb 1000 (λ _, 5) (λ l, l) 1 2 [false; true]
           [[9; 9; 9; 9; 9; 7]; [9; 9; 9; 9; 9; 9]] [h; h] [0] [5] [7] h
           [Candidate 0 5 7 h] [Candidate 0 5 7 h]);
    reflexivity.
Defined.

(** * Further properties *)

(** ** The constraint state machine *)

Lemma rollback_length budget sq : ∀ m index m',
  rollback budget sq m index = Ok m' → length m' = length m.
Proof.
  induction budget as [|budget IH]; intros m index m'; cbn [rollback];
    destruct (py_get sq index) as [v| |]; cbn [bind]; try done;
    case_decide; try done; try by intros [= <-].
  destruct (py_set m index false) as [m1| |] eqn:Hset; cbn [bind]; [|done..].
  intros ->%IH. by eapply py_set_length.
Qed.

(** X1: [advance] never touches the constraint specification: the returned
    object has the class, the constraint tokens, the sequence flags and the
    end-of-sequence id of the receiver, hence the same [size()], and its
    [met] array has the same length. *)
Theorem advance_keeps_specification s word_id s' :
  advance s word_id = Ok s' →
  cls s' = cls s ∧ constraints s' = constraints s ∧
  is_sequence s' = is_sequence s ∧ eos_id s' = eos_id s ∧
  size s' = size s ∧ length (met s') = length (met s).
Proof.
  unfold advance.
  destruct (mid_phrase s) as [[]| |]; cbn [bind]; [| |done..].
  - destruct (py_get (constraints s) _) as [c| |]; cbn [bind]; [|done..].
    case_decide.
    + destruct (py_set (met s) _ _) as [m| |] eqn:Hm; cbn [bind]; [|done..].
      intros [= <-]. unfold size. simpl. split_and!; try done.
      by eapply py_set_length.
    + destruct (rollback _ _ _ _) as [m| |] eqn:Hm; cbn [bind]; [|done..].
      intros [= <-]. unfold size. simpl. split_and!; try done.
      by eapply rollback_length.
  - destruct (list_find _ _) as [[pos e]|]; [|by intros [= <-]].
    destruct (py_set (met s) _ _) as [m| |] eqn:Hm; try by intros [= <-].
    intros [= <-]. unfold size. simpl. split_and!; try done.
    by eapply py_set_length.
Qed.

Lemma advance_keeps_specification_witness :
  let s := MkHypothesis ConstrainedHypothesis [1; 2; 4] [1; 0; 0] 3
                        [true; false; false] 0 in
  ∃ s', advance s 7 = Ok s' ∧ constraints s' = [1; 2; 4] ∧ size s' = 3.
Proof.
  intros s. eexists. split; [reflexivity|].
  destruct (advance_keeps_specification s 7 _ eq_refl) as (_ & Hc & _ & _ & Hs & _).
  exact (conj Hc Hs).
Defined.

Lemma reachable_step s word_id s' :
  reachable s → advance s word_id = Ok s' → reachable s'.
Proof.
  intros (cl & eos & s0 & Hnew & Hreach) Hadv.
  exists cl, eos, s0. split; [done|]. by eapply reachable_advance.
Qed.

Lemma sum_met_insert (m : list bool) k :
  m !! k = Some false →
  foldr (λ (b : bool) n, (if b then 1 else 0) + n) 0 (<[k:=true]> m)
  = foldr (λ (b : bool) n, (if b then 1 else 0) + n) 0 m + 1.
Proof.
  revert k. induction m as [|b m IH]; intros [|k] Hk; simplify_eq/=; [lia|].
  rewrite (IH k Hk). lia.
Qed.

Lemma free_not_mid s :
  wf s → mid_phrase s = Ok false → ∀ k, lastMet s = Z.of_nat k → ¬ link s k.
Proof.
  intros Hwf Hmid. by destruct (mid_phrase_cases s Hwf) as [[? _]|[_ ?]]; [congruence|].
Qed.

Lemma elem_of_open_tokens s c :
  c ∈ open_tokens s ↔ ∃ q, open_for s c q.
Proof.
  unfold open_tokens, open_for. rewrite list_elem_of_omap. split.
  - intros (q & _ & Hq). case_decide as Hopen; [|done]. exists q. tauto.
  - intros (q & Hc & He & Hm). exists q. split.
    + apply elem_of_seq. apply lookup_lt_Some in Hc. lia.
    + by rewrite decide_True.
Qed.

(** X2: every token [allowed()] offers makes progress: advancing a reachable
    state on it returns a state with one more constraint token met. *)
Theorem allowed_token_progress s items c :
  reachable s → allowed s = Ok items → c ∈ items →
  ∃ s', advance s c = Ok s' ∧ numMet s' = numMet s + 1.
Proof.
  intros [Hwf _]%reachable_wf Hallowed Hc.
  destruct (advance_cases s c Hwf) as (s' & Hadv & Hspec).
  exists s'. split; [done|].
  destruct (mid_phrase_cases s Hwf) as [[Hmid (k & Hk & Hlink)]|[Hmid Hfree]].
  - (* inside a phrase: the one token offered is the expected one *)
    pose proof (link_lt s k Hwf Hlink) as Hlt.
    destruct (lookup_lt_is_Some_2 (constraints s) (S k)) as [e He]; [lia|].
    assert (items = [e]) as ->.
    { unfold allowed in Hallowed. rewrite Hmid, Hk in Hallowed. cbn [bind] in Hallowed.
      replace (Z.of_nat k + 1) with (Z.of_nat (S k)) in Hallowed by lia.
      rewrite (py_get_nat _ _ _ He) in Hallowed. by injection Hallowed as <-. }
    apply list_elem_of_singleton in Hc as ->.
    destruct (wf_mid s Hwf k Hk Hlink) as [_ HSk].
    destruct Hspec as [k' Hk' _ _|k' e' m' Hk' _ He' Hne _ _ _|pos Hfree _ _|Hfree _].
    + assert (k' = k) as -> by lia. unfold numMet. simpl. by apply sum_met_insert.
    + assert (k' = k) as -> by lia. congruence.
    + by destruct (Hfree k).
    + by destruct (Hfree k).
  - (* outside a phrase: the token opens a position *)
    rewrite (allowed_free s Hwf Hmid) in Hallowed. injection Hallowed as <-.
    apply elem_of_open_tokens in Hc as (q & Hq).
    destruct Hspec as [k Hk Hlink _|k e m' Hk Hlink _ _ _ _ _
                      |pos _ (_ & _ & Hm) _|_ Hnone].
    + by destruct (Hfree k).
    + by destruct (Hfree k).
    + unfold numMet. simpl. by apply sum_met_insert.
    + by destruct (Hnone q).
Qed.

Lemma allowed_token_progress_witness :
  let s := MkHypothesis ConstrainedHypothesis [1; 2] [1; 0] 3 [true; false] 0 in
  reachable s ∧ allowed s = Ok [2] ∧
  ∃ s', advance s 2 = Ok s' ∧ numMet s' = numMet s + 1.
Proof.
  intros s.
  assert (allowed s = Ok [2]) as Ha by reflexivity.
  assert (2 ∈ [2]) as Hin by apply list_elem_of_here.
  exact (conj example_mid_reachable
           (conj Ha (allowed_token_progress s [2] 2 example_mid_reachable Ha Hin))).
Defined.

(** X3: outside a phrase, a token that [allowed()] does not offer is
    unconstrained: advancing on it returns the state unchanged. *)
Theorem advance_unconstrained_token s items word_id :
  reachable s → mid_phrase s = Ok false →
  allowed s = Ok items → word_id ∉ items →
  advance s word_id = Ok s.
Proof.
  intros [Hwf _]%reachable_wf Hmid Hallowed Hnot.
  rewrite (allowed_free s Hwf Hmid) in Hallowed. injection Hallowed as <-.
  pose proof (free_not_mid s Hwf Hmid) as Hfree.
  destruct (advance_cases s word_id Hwf) as (s' & -> & Hspec). f_equal.
  destruct Hspec as [k Hk Hlink _|k e m' Hk Hlink _ _ _ _ _|pos _ Hopen _|_ _].
  - by destruct (Hfree k).
  - by destruct (Hfree k).
  - destruct Hnot. apply elem_of_open_tokens. by exists pos.
  - done.
Qed.

Lemma advance_unconstrained_token_witness :
  let s := MkHypothesis ConstrainedHypothesis [1; 2] [1; 0] 3 [false; false] (-1) in
  reachable s ∧ advance s 2 = Ok s.
Proof.
  intros s.
  assert (reachable s) as Hs.
  { exists [[1; 2]], 3, s. split; [reflexivity|constructor]. }
  assert (mid_phrase s = Ok false) as Hmid by reflexivity.
  assert (allowed s = Ok [1]) as Ha by reflexivity.
  assert (2 ∉ [1]) as Hnot.
  { intros Hin. apply list_elem_of_singleton in Hin. discriminate Hin. }
  exact (conj Hs (advance_unconstrained_token s [1] 2 Hs Hmid Ha Hnot)).
Defined.

(** X4: a finished hypothesis stays as it is: once every constraint token
    is met, advancing a reachable state on any token returns the same
    state, so it remains finished and every token stays valid. *)
Theorem advance_finished s word_id :
  reachable s → finished s = true →
  advance s word_id = Ok s ∧ ∀ t, isValid s t = true.
Proof.
  intros Hreach Hfin. destruct (reachable_wf s Hreach) as [Hwf Hcls].
  pose proof (proj1 (finished_all_met s Hwf Hcls) Hfin) as Hall.
  split; [|intros t; unfold isValid; by rewrite Hcls, Hfin].
  destruct (advance_cases s word_id Hwf) as (s' & -> & Hspec). f_equal.
  destruct Hspec as [k Hk Hlink _|k e m' Hk Hlink _ _ _ _ _
                    |pos _ (_ & _ & Hm) _|_ _]; [..|done].
  - destruct (wf_mid s Hwf k Hk Hlink) as [_ HSk]. by pose proof (Hall _ _ HSk).
  - destruct (wf_mid s Hwf k Hk Hlink) as [_ HSk]. by pose proof (Hall _ _ HSk).
  - by pose proof (Hall _ _ Hm).
Qed.

Lemma advance_finished_witness :
  let s := MkHypothesis ConstrainedHypothesis [1; 2] [1; 0] 3 [true; true] 1 in
  reachable s ∧ advance s 1 = Ok s ∧ ∀ t, isValid s t = true.
Proof.
  intros s.
  assert (reachable s) as Hs.
  { eapply reachable_step with (word_id := 2); [exact example_mid_reachable|].
    reflexivity. }
  exact (conj Hs (advance_finished s 1 Hs eq_refl)).
Defined.

(** ** Meeting all the constraints in order *)

Lemma init_phrases_constraints constraint_list : ∀ cs sq cs' sq',
  init_phrases constraint_list cs sq = Ok (cs', sq') →
  cs' = cs ++ concat constraint_list.
Proof.
  induction constraint_list as [|phrase rest IH]; intros cs sq cs' sq'; simpl.
  { intros [= <- _]. by rewrite app_nil_r. }
  destruct (py_set _ _ _) as [sq1| |]; cbn [bind]; [|done..].
  intros ->%IH. by rewrite app_assoc.
Qed.

Lemma new_constraints constraint_list eos s0 :
  new_ConstrainedHypothesis constraint_list eos = Ok s0 →
  constraints s0 = concat constraint_list ∧ eos_id s0 = eos.
Proof.
  unfold new_ConstrainedHypothesis, init.
  destruct (init_phrases _ _ _) as [[cs sq]| |] eqn:Hinit; [|done..].
  simpl. intros [= <-]. by apply init_phrases_constraints in Hinit as ->.
Qed.

Lemma advance_all_app word_ids1 word_ids2 : ∀ s,
  advance_all s (word_ids1 ++ word_ids2) =
  let! s' := advance_all s word_ids1 in advance_all s' word_ids2.
Proof.
  induction word_ids1 as [|w ws IH]; intros s; [done|]. simpl.
  destruct (advance s w); simpl; [apply IH|done..].
Qed.

Lemma insert_met_upto n : ∀ m,
  <[n:=true]> (replicate n true ++ replicate (S m) false)
  = replicate (S n) true ++ replicate m false.
Proof. induction n as [|n IH]; intros m; simpl; [done|]. f_equal. apply IH. Qed.

Lemma met_upto_lookup s n j :
  met (met_upto s n) !! j =
  if decide (j < n)%nat then Some true
  else if decide (j < length (constraints s))%nat then Some false else None.
Proof.
  simpl. case_decide as Hj.
  - rewrite lookup_app_l by (by rewrite length_replicate).
    by apply lookup_replicate_2.
  - rewrite lookup_app_r by (rewrite length_replicate; lia).
    rewrite length_replicate. case_decide.
    + apply lookup_replicate_2. lia.
    + apply lookup_ge_None_2. rewrite length_replicate. lia.
Qed.

Lemma advance_met_upto s n c :
  wf (met_upto s n) → constraints s !! n = Some c →
  advance (met_upto s n) c = Ok (met_upto s (S n)).
Proof.
  intros Hwf Hc. pose proof (lookup_lt_Some _ _ _ Hc) as Hn.
  assert (<[n:=true]> (met (met_upto s n)) = met (met_upto s (S n))) as Hmet.
  { simpl. replace (length (constraints s) - n)%nat
      with (S (length (constraints s) - S n)) by lia.
    apply insert_met_upto. }
  assert ((∀ k, lastMet (met_upto s n) = Z.of_nat k → ¬ link (met_upto s n) k) →
          open_for (met_upto s n) c n) as Hopen.
  { intros Hfree. split_and!; [done| |].
    - destruct n as [|k]; simpl; [done|].
      destruct (lookup_lt_is_Some_2 (is_sequence s) k) as [v Hv].
      { pose proof (wf_len_seq _ Hwf) as Hlen. simpl in Hlen. lia. }
      destruct (wf_bits _ Hwf k v Hv) as [-> | ->]; [done|].
      destruct (Hfree k); [simpl; lia|done].
    - rewrite met_upto_lookup. rewrite decide_False by lia. by rewrite decide_True. }
  destruct (advance_cases _ c Hwf) as (s' & -> & Hspec). f_equal.
  destruct Hspec as [k Hk _ _|k e m' Hk _ He Hne _ _ _|pos Hfree Hpos Hmin|Hfree Hnone].
  - simpl in Hk. assert (n = S k) as -> by lia.
    rewrite Hmet. unfold with_progress, met_upto. simpl. f_equal. lia.
  - simpl in Hk, He. assert (n = S k) as -> by lia. congruence.
  - assert (pos = n) as ->.
    { destruct (decide (pos < n)%nat) as [Hlt|].
      - destruct Hpos as (_ & _ & Hm). rewrite met_upto_lookup in Hm.
        by rewrite decide_True in Hm.
      - destruct (decide (n < pos)%nat) as [Hlt|]; [|lia].
        by destruct (Hmin n Hlt), Hopen. }
    rewrite Hmet. unfold with_progress, met_upto. simpl. f_equal. lia.
  - by destruct (Hnone n), Hopen.
Qed.

Lemma feed_prefix s0 n :
  wf s0 → met s0 = (λ _, false) <$> constraints s0 → lastMet s0 = -1 →
  (n ≤ length (constraints s0))%nat →
  advance_all s0 (take n (constraints s0)) = Ok (met_upto s0 n) ∧
  reachable_from s0 (met_upto s0 n).
Proof.
  intros Hwf0 Hmet0 Hlast0. induction n as [|n IH]; intros Hn.
  - assert (met_upto s0 0 = s0) as ->; [|by split; [|constructor]].
    destruct s0 as [c cs sq e m l]. unfold met_upto. simpl in *. subst.
    f_equal. rewrite Nat.sub_0_r. symmetry. apply const_fmap. done.
  - destruct IH as [Hall Hreach]; [lia|].
    destruct (lookup_lt_is_Some_2 (constraints s0) n) as [c Hc]; [lia|].
    destruct (reachable_from_wf _ _ Hwf0 Hreach) as (Hwf & _).
    pose proof (advance_met_upto s0 n c Hwf Hc) as Hadv.
    split.
    + rewrite (take_S_r _ _ _ Hc), advance_all_app, Hall. cbn [bind advance_all].
      by rewrite Hadv.
    + by eapply reachable_advance.
Qed.

(** X5: a hypothesis that emits the tokens of its constraint phrases, phrase
    after phrase in the order given to the constructor, ends finished: every
    constraint token is met, nothing is needed any more, and the
    end-of-sequence token is valid. *)
Theorem advance_all_constraints constraint_list eos s0 :
  new_ConstrainedHypothesis constraint_list eos = Ok s0 →
  ∃ s, advance_all s0 (concat constraint_list) = Ok s ∧
       numMet s = size s0 ∧ numNeeded s = 0 ∧ finished s = true ∧
       isValid s eos = true.
Proof.
  intros Hnew.
  destruct (new_constraints _ _ _ Hnew) as [Hcs Heos].
  pose proof (init_start _ _ _ _ Hnew) as [Hmet0 Hlast0].
  apply init_wf in Hnew as [Hwf0 Hcls0].
  destruct (feed_prefix s0 (length (constraints s0)) Hwf0 Hmet0 Hlast0) as [Hall _];
    [done|].
  rewrite take_ge in Hall by done.
  exists (met_upto s0 (length (constraints s0))). split; [by rewrite <- Hcs|].
  assert (numMet (met_upto s0 (length (constraints s0))) = size s0) as Hnum.
  { unfold numMet, size, len. simpl. rewrite Nat.sub_diag, app_nil_r.
    generalize (length (constraints s0)). intros n.
    induction n as [|n IH]; [done|]. simpl replicate. simpl foldr. lia. }
  assert (numNeeded (met_upto s0 (length (constraints s0))) = 0) as Hneed.
  { unfold numNeeded. rewrite Hnum. unfold size. simpl. lia. }
  assert (finished (met_upto s0 (length (constraints s0))) = true) as Hfin.
  { unfold finished. simpl. rewrite Hcls0. by apply bool_decide_eq_true. }
  split_and!; [done..|]. unfold isValid. simpl. by rewrite Hcls0, Hfin.
Qed.

Lemma advance_all_constraints_witness :
  ∃ s0 s, new_ConstrainedHypothesis [[1; 2]; [4]; [1; 5]] 3 = Ok s0 ∧
          advance_all s0 [1; 2; 4; 1; 5] = Ok s ∧ finished s = true.
Proof.
  eexists.
  destruct (advance_all_constraints [[1; 2]; [4]; [1; 5]] 3 _ eq_refl)
    as (s & Hall & _ & _ & Hfin & _).
  exists s. exact (conj eq_refl (conj Hall Hfin)).
Defined.

(** ** What the constructor builds *)

Lemma set_last_flag sq n :
  py_set (sq ++ replicate (S n) 1) (-1) 0 = Ok (sq ++ replicate n 1 ++ [0]).
Proof.
  unfold py_set. rewrite py_index_neg.
  - f_equal. rewrite length_app, length_replicate.
    replace (Z.to_nat (Z.of_nat (length sq + S n) + -1))
      with (length sq + n)%nat by lia.
    rewrite insert_app_r. f_equal. rewrite replicate_S_end.
    rewrite <- (length_replicate n 1) at 1.
    rewrite <- (Nat.add_0_r (length (replicate n 1))). by rewrite insert_app_r.
  - rewrite length_app, length_replicate. lia.
Qed.

Lemma set_last_flag_again sq :
  sq ≠ [] → (∀ v, last sq = Some v → v = 0) → py_set sq (-1) 0 = Ok sq.
Proof.
  intros Hne Hlast. assert (length sq ≠ 0)%nat by (by destruct sq).
  unfold py_set. rewrite py_index_neg by lia. f_equal.
  apply list_insert_id.
  replace (Z.to_nat (Z.of_nat (length sq) + -1)) with (pred (length sq)) by lia.
  rewrite <- last_lookup. destruct (last sq) as [v|] eqn:Hv.
  - by rewrite (Hlast v eq_refl).
  - rewrite last_lookup in Hv. apply lookup_ge_None in Hv. lia.
Qed.

Lemma init_phrases_spec constraint_list : ∀ cs sq,
  (sq = [] → head constraint_list ≠ Some []) →
  (∀ v, last sq = Some v → v = 0) →
  init_phrases constraint_list cs sq
  = Ok (cs ++ concat constraint_list,
        sq ++ concat (phrase_flags <$> constraint_list)).
Proof.
  induction constraint_list as [|phrase rest IH]; intros cs sq Hfirst Hlast.
  { simpl. by rewrite !app_nil_r. }
  cbn [init_phrases]. cbv zeta. destruct phrase as [|x phrase].
  - assert (sq ≠ []) as Hne by (intros ->; by destruct Hfirst).
    simpl replicate. rewrite !app_nil_r.
    rewrite (set_last_flag_again sq Hne Hlast). cbn [bind].
    rewrite IH by done. done.
  - simpl length. rewrite set_last_flag. cbn [bind].
    rewrite IH.
    + csimpl. by rewrite <- !app_assoc.
    + intros Heq. apply (f_equal length) in Heq.
      rewrite !length_app in Heq. simpl in Heq. lia.
    + intros v. rewrite !app_assoc, last_snoc. by intros [= <-].
Qed.

(** X6: the constructor raises exactly when the first phrase is empty;
    otherwise it returns the state whose constraint tokens are the phrases
    one after the other (empty phrases after the first leave no trace),
    whose sequence flags are 1 on every token of a phrase but its last,
    with nothing met and [lastMet = -1]. *)
Theorem new_ConstrainedHypothesis_spec constraint_list eos :
  (head constraint_list = Some [] →
   new_ConstrainedHypothesis constraint_list eos = Raise IndexError) ∧
  (head constraint_list ≠ Some [] →
   new_ConstrainedHypothesis constraint_list eos
   = Ok {| cls := ConstrainedHypothesis;
           constraints := concat constraint_list;
           is_sequence := concat (phrase_flags <$> constraint_list);
           eos_id := eos;
           met := replicate (length (concat constraint_list)) false;
           lastMet := -1 |}).
Proof.
  split.
  - destruct constraint_list as [|[|x phrase] rest]; by intros [=].
  - intros Hfirst. unfold new_ConstrainedHypothesis, init.
    rewrite init_phrases_spec by done. cbn [bind]. simpl app.
    by rewrite (const_fmap _ (concat constraint_list) false).
Qed.

Lemma new_ConstrainedHypothesis_spec_witness :
  new_ConstrainedHypothesis [[1; 2; 7]; []; [4]] 3
  = Ok (MkHypothesis ConstrainedHypothesis [1; 2; 7; 4] [1; 1; 0; 0] 3
                     [false; false; false; false] (-1)).
Proof.
  assert (head [[1; 2; 7]; []; [4]] ≠ Some []) as Hfirst by (intros H; discriminate H).
  exact (proj2 (new_ConstrainedHypothesis_spec [[1; 2; 7]; []; [4]] 3) Hfirst).
Defined.

(** ** The bank allocator, continued *)

(** X7: for a well-formed call (at least one bank, a capacity of at least 1,
    one non-negative candidate count per bank) [get_bank_sizes] returns
    exactly when there are at least [beam_size] candidates in all, each
    [while] loop needing one pass at most; and what it returns gives no bank
    more slots than it has candidates. *)
Theorem get_bank_sizes_returns_iff budget num_constraints beam_size candidates :
  0 ≤ num_constraints → 1 ≤ beam_size →
  len candidates = num_constraints + 1 →
  Forall (λ c, 0 ≤ c) candidates →
  (returns (get_bank_sizes (S budget) num_constraints beam_size candidates)
   ↔ beam_size ≤ sumZ candidates) ∧
  (∀ res, get_bank_sizes budget num_constraints beam_size candidates = Ok res →
          length res = length candidates ∧
          ∀ k a c, res !! k = Some a → candidates !! k = Some c → 0 ≤ a ≤ c).
Proof.
  intros Hn HC Hlen Hpos.
  assert (0 ≤ beam_size) as HC0 by lia.
  split; [split|].
  - intros [res Hres].
    pose proof (get_bank_sizes_spec candidates beam_size Hpos (S budget)
                  num_constraints Hn HC0 Hlen) as Hspec.
    rewrite Hres in Hspec. destruct Hspec as [[Hlen' Hsum _] Hroom].
    rewrite <- Hsum. by apply room_sum.
  - by apply get_bank_sizes_returns.
  - intros res Hres.
    pose proof (get_bank_sizes_spec candidates beam_size Hpos budget
                  num_constraints Hn HC0 Hlen) as Hspec.
    rewrite Hres in Hspec. destruct Hspec as [[Hlen' _ Hnonneg] Hroom].
    split; [done|]. intros k a c Ha Hc.
    pose proof (Forall_lookup_1 _ _ _ _ Hnonneg Ha) as Ha0. simpl in Ha0.
    specialize (Hroom k (lookup_lt_Some _ _ _ Hc)). unfold room in Hroom.
    rewrite (list_lookup_total_correct _ _ _ Ha) in Hroom.
    rewrite (list_lookup_total_correct _ _ _ Hc) in Hroom. lia.
Qed.

Lemma get_bank_sizes_returns_iff_witness :
  returns (get_bank_sizes 1 2 7 [3; 0; 9]) ∧ 7 ≤ sumZ [3; 0; 9].
Proof.
  assert (Forall (λ c, 0 ≤ c) [3; 0; 9]) as Hpos by (repeat constructor; lia).
  assert (7 ≤ sumZ [3; 0; 9]) as Hsum by (simpl; lia).
  destruct (get_bank_sizes_returns_iff 0 2 7 [3; 0; 9]) as [Hiff _];
    [lia|lia|reflexivity|exact Hpos|].
  exact (conj (proj2 Hiff Hsum) Hsum).
Defined.

Lemma set_last_replicate (n : nat) (x y : Z) :
  py_get (replicate (S n) x) (-1) = Ok x ∧
  py_set (replicate (S n) x) (-1) y = Ok (replicate n x ++ [y]).
Proof.
  split.
  - apply py_get_last. rewrite last_lookup, length_replicate.
    apply lookup_replicate_2. simpl. lia.
  - unfold py_set. rewrite py_index_neg by (rewrite length_replicate; lia).
    f_equal. rewrite length_replicate.
    replace (Z.to_nat (Z.of_nat (S n) + -1)) with (length (replicate n x) + 0)%nat
      by (rewrite length_replicate; lia).
    rewrite replicate_S_end. by rewrite insert_app_r.
Qed.

Lemma banks_loop_no_deficit budget candidates assigned banks :
  len assigned = len candidates →
  Forall (λ i, 0 ≤ i < len candidates ∧
               assigned !!! Z.to_nat i ≤ candidates !!! Z.to_nat i) banks →
  banks_loop budget candidates banks assigned = Ok assigned.
Proof.
  intros Hlen. induction 1 as [|i banks [Hi Hle] _ IH]; [done|].
  cbn [banks_loop].
  rewrite (py_get_in_range candidates i) by done. cbn [bind].
  rewrite (py_get_in_range assigned i) by lia. cbn [bind]. cbv zeta.
  assert (redistribute budget candidates i
            (candidates !!! Z.to_nat i - assigned !!! Z.to_nat i) assigned
          = Ok assigned) as ->.
  { destruct budget; cbn [redistribute]; by rewrite decide_False by lia. }
  cbn [bind]. apply IH.
Qed.

(** X8: when every bank has at least as many candidates as its share of the
    even split (the last bank's share includes the remainder), nothing is
    redistributed: [get_bank_sizes] returns the even split, without a single
    pass of a [while] loop. *)
Theorem get_bank_sizes_even_split budget num_constraints beam_size candidates :
  0 ≤ num_constraints →
  len candidates = num_constraints + 1 →
  let bank_size := beam_size `div` (num_constraints + 1) in
  let remainder := beam_size - bank_size * (num_constraints + 1) in
  (∀ k c, candidates !! k = Some c →
          bank_size + (if decide (Z.of_nat k = num_constraints) then remainder else 0)
          ≤ c) →
  get_bank_sizes budget num_constraints beam_size candidates
  = Ok (replicate (Z.to_nat num_constraints) bank_size ++ [bank_size + remainder]).
Proof.
  intros Hn Hlen bank_size remainder Henough. unfold get_bank_sizes.
  rewrite decide_False by lia. cbv zeta. fold bank_size. fold remainder.
  replace (Z.to_nat (num_constraints + 1)) with (S (Z.to_nat num_constraints)) by lia.
  destruct (set_last_replicate (Z.to_nat num_constraints) bank_size
              (bank_size + remainder)) as [-> Hset].
  cbn [bind]. rewrite Hset. cbn [bind].
  set (assigned := replicate (Z.to_nat num_constraints) bank_size
                   ++ [bank_size + remainder]).
  assert (len assigned = len candidates) as Hlen'.
  { unfold assigned, len in *. rewrite length_app, length_replicate. simpl. lia. }
  apply banks_loop_no_deficit; [done|].
  apply Forall_forall. intros i Hi%elem_of_range. split; [lia|].
  assert (Z.to_nat i < length candidates)%nat as Hlt by (unfold len in *; lia).
  destruct (lookup_lt_is_Some_2 candidates _ Hlt) as [c Hc].
  rewrite (list_lookup_total_correct _ _ _ Hc).
  specialize (Henough _ _ Hc). unfold assigned.
  destruct (decide (Z.of_nat (Z.to_nat i) = num_constraints)) as [Heq|Hne].
  - rewrite list_lookup_total_middle by (rewrite length_replicate; lia). done.
  - rewrite lookup_total_app_l by (rewrite length_replicate; unfold len in *; lia).
    rewrite lookup_total_replicate_2 by (unfold len in *; lia). lia.
Qed.

Lemma get_bank_sizes_even_split_witness :
  get_bank_sizes 0 2 8 [3; 2; 9] = Ok [2; 2; 4].
Proof.
  apply (get_bank_sizes_even_split 0 2 8 [3; 2; 9]); [lia|reflexivity|].
  intros [|[|[|k]]] c; simpl; intros [= <-]; vm_compute; by intros [=].
Defined.

(** X9: the calls [get_bank_sizes] rejects: with [num_constraints = -1]
    there is no bank and the even split divides by zero; below -1 the
    allocation list is empty and [assigned[-1]] raises [IndexError]; with at
    least one bank and an empty list of candidate counts, reading
    [candidates[0]] raises [IndexError]. *)
Theorem get_bank_sizes_rejects budget num_constraints beam_size candidates :
  (num_constraints = -1 →
   get_bank_sizes budget num_constraints beam_size candidates
   = Raise ZeroDivisionError) ∧
  (num_constraints < -1 →
   get_bank_sizes budget num_constraints beam_size candidates
   = Raise IndexError) ∧
  (0 ≤ num_constraints →
   get_bank_sizes budget num_constraints beam_size [] = Raise IndexError).
Proof.
  split_and!.
  - intros ->. done.
  - intros Hn. unfold get_bank_sizes. rewrite decide_False by lia. cbv zeta.
    replace (Z.to_nat (num_constraints + 1)) with O by lia. done.
  - intros Hn. unfold get_bank_sizes. rewrite decide_False by lia. cbv zeta.
    replace (Z.to_nat (num_constraints + 1)) with (S (Z.to_nat num_constraints)) by lia.
    destruct (set_last_replicate (Z.to_nat num_constraints)
                (beam_size `div` (num_constraints + 1))
                (beam_size `div` (num_constraints + 1)
                 + (beam_size - beam_size `div` (num_constraints + 1)
                                * (num_constraints + 1)))) as [Hget Hset].
    rewrite Hget. cbn [bind]. rewrite Hset. cbn [bind]. unfold len. rewrite length_app, length_replicate. simpl length.
    unfold range.
    replace (Z.of_nat (Z.to_nat num_constraints + 1) - 0)
      with (Z.succ (Z.of_nat (Z.to_nat num_constraints))) by lia.
    rewrite seqZ_cons by lia. done.
Qed.

Lemma get_bank_sizes_rejects_witness :
  get_bank_sizes 5 (-1) 4 [1; 2] = Raise ZeroDivisionError ∧
  get_bank_sizes 5 (-3) 4 [1; 2] = Raise IndexError ∧
  get_bank_sizes 5 1 4 [] = Raise IndexError.
Proof.
  destruct (get_bank_sizes_rejects 5 (-1) 4 [1; 2]) as (H1 & _ & _).
  destruct (get_bank_sizes_rejects 5 (-3) 4 [1; 2]) as (_ & H2 & _).
  destruct (get_bank_sizes_rejects 5 1 4 [1; 2]) as (_ & _ & H3).
  split_and!; [apply H1; reflexivity|apply H2; lia|apply H3; lia].
Defined.

(** ** The order of the pass over the banks *)

Section sorted_order.
Context {A : Type} (key : A → Z).

Lemma insert_by_sorted x l :
  StronglySorted (λ a b, key a ≤ key b) l →
  StronglySorted (λ a b, key a ≤ key b) (insert_by Z.leb key x l).
Proof.
  induction 1 as [|y l Hsorted IH Hall]; simpl.
  { repeat constructor. }
  destruct (Z.leb_spec (key x) (key y)) as [Hle|Hgt].
  - constructor; [by constructor|]. constructor; [done|].
    eapply Forall_impl; [exact Hall|]. simpl. intros z Hz. lia.
  - constructor; [done|]. rewrite insert_by_perm. constructor; [lia|done].
Qed.

Lemma sorted_sorted l :
  StronglySorted (λ a b, key a ≤ key b) (sorted Z.leb key l).
Proof.
  induction l as [|x l IH]; simpl; [constructor|]. by apply insert_by_sorted.
Qed.
End sorted_order.

(** X10: for a bank [i] among [n] banks, the pass of [get_bank_sizes] over
    the other banks visits every bank but [i] exactly once, and never a bank
    after one that is farther from [i]. *)
Theorem bank_order_spec i n :
  0 ≤ i < n →
  NoDup (bank_order i n) ∧
  (∀ j, j ∈ bank_order i n ↔ 0 ≤ j < n ∧ j ≠ i) ∧
  StronglySorted (λ a b, Z.abs (a - i) ≤ Z.abs (b - i)) (bank_order i n).
Proof.
  intros Hi. split_and!.
  - apply NoDup_bank_order.
  - intros j. rewrite elem_of_bank_order. lia.
  - apply (sorted_sorted (λ x, Z.abs (x - i))).
Qed.

Lemma bank_order_spec_witness :
  bank_order 2 6 = [1; 3; 0; 4; 5] ∧
  StronglySorted (λ a b, Z.abs (a - 2) ≤ Z.abs (b - 2)) (bank_order 2 6).
Proof.
  assert (0 ≤ 2 < 6) as Hi by lia.
  exact (conj eq_refl (proj2 (proj2 (bank_order_spec 2 6 Hi)))).
Defined.

(** ** The candidates of topk *)

Section candidates.
Context {score_t : Type}.
Implicit Types (cand other : @candidate score_t).
Implicit Types (candidates : list (@candidate score_t)).

Lemma candidate_eqb_key cand other :
  candidate_eqb cand other = true ↔ cand_key cand = cand_key other.
Proof.
  unfold candidate_eqb, cand_key.
  rewrite andb_true_iff, !bool_decide_eq_true. split; [by intros [-> ->]|].
  by intros [= -> ->].
Qed.

Lemma set_add_cases cand candidates :
  (set_add cand candidates = candidates ∧
   cand_key cand ∈ cand_key <$> candidates) ∨
  (set_add cand candidates = candidates ++ [cand] ∧
   cand_key cand ∉ cand_key <$> candidates).
Proof.
  unfold set_add. destruct (existsb _ _) eqn:Hex.
  - left. split; [done|]. apply existsb_exists in Hex as (d & Hd & Heq).
    apply candidate_eqb_key in Heq. rewrite Heq.
    apply list_elem_of_fmap_2. by apply list_elem_of_In.
  - right. split; [done|]. intros (d & Heq & Hd)%list_elem_of_fmap.
    apply not_true_iff_false in Hex. apply Hex, existsb_exists.
    exists d. split; [by apply list_elem_of_In|]. by apply candidate_eqb_key.
Qed.

Lemma set_add_merged hypotheses cand candidates :
  merged hypotheses candidates → well_proposed hypotheses cand →
  merged hypotheses (set_add cand candidates) ∧
  candidates `prefix_of` set_add cand candidates.
Proof.
  intros [Hnodup Hall] Hc.
  destruct (set_add_cases cand candidates) as [[-> _]|[-> Hnew]]; [done|].
  split; [|by apply prefix_app_r]. split.
  - rewrite fmap_app. apply NoDup_app. split_and!; [done| |apply NoDup_singleton].
    intros k Hk ->%list_elem_of_singleton. done.
  - apply Forall_app. split; [done|]. by constructor.
Qed.

Lemma add_best_merged hypotheses best : ∀ candidates res,
  merged hypotheses candidates →
  add_best hypotheses best candidates = Ok res →
  merged hypotheses res ∧ candidates `prefix_of` res.
Proof.
  induction best as [|[[r c] seq_score] best IH]; intros candidates res Hm;
    cbn [add_best].
  { by intros [= <-]. }
  destruct (py_get hypotheses r) as [hyp| |] eqn:Hhyp; cbn [bind]; [|done..].
  destruct (isValid hyp c) eqn:Hvalid.
  - destruct (advance hyp c) as [new_constraint| |] eqn:Hadv; cbn [bind]; [|done..].
    destruct (set_add_merged hypotheses (Candidate r c seq_score new_constraint)
                candidates Hm) as [Hm' Hpre].
    { exists hyp. simpl. auto. }
    intros [Hres Hpre']%IH; [|done]. split; [done|]. by etrans.
  - cbn [bind]. by apply IH.
Qed.

Lemma add_nextones_merged hypotheses scores hyp r nextones : ∀ candidates res,
  py_get hypotheses r = Ok hyp →
  Forall (λ c, isValid hyp c = true ∨ ∃ items, allowed hyp = Ok items ∧ c ∈ items)
         nextones →
  merged hypotheses candidates →
  add_nextones scores hyp r nextones candidates = Ok res →
  merged hypotheses res ∧ candidates `prefix_of` res.
Proof.
  intros candidates res Hhyp Hnext. revert candidates res.
  induction Hnext as [|c nextones Hc _ IH]; intros candidates res Hm;
    cbn [add_nextones].
  { by intros [= <-]. }
  destruct (advance hyp c) as [new_constraint| |] eqn:Hadv; cbn [bind]; [|done..].
  destruct (py_get scores r) as [scores_row| |]; cbn [bind]; [|done..].
  destruct (py_get scores_row c) as [sc| |]; cbn [bind]; [|done..].
  destruct (set_add_merged hypotheses (Candidate r c sc new_constraint)
              candidates Hm) as [Hm' Hpre].
  { exists hyp. simpl. auto. }
  intros [Hres Hpre']%IH; [|done]. split; [done|]. by etrans.
Qed.

Lemma add_rows_merged hypotheses inactive scores best_next rows :
  ∀ candidates res,
  merged hypotheses candidates →
  add_rows inactive scores hypotheses best_next rows candidates = Ok res →
  merged hypotheses res ∧ candidates `prefix_of` res.
Proof.
  induction rows as [|r rows IH]; intros candidates res Hm; cbn [add_rows].
  { by intros [= <-]. }
  destruct (py_get inactive r) as [[]| |]; cbn [bind]; [by apply IH| |done..].
  destruct (py_get hypotheses r) as [hyp| |] eqn:Hhyp; cbn [bind]; [|done..].
  destruct (allowed hyp) as [items| |] eqn:Hitems; cbn [bind]; [|done..].
  destruct (py_get best_next r) as [c| |]; cbn [bind]; [|done..].
  destruct (add_nextones _ _ _ _ _) as [candidates1| |] eqn:Hnext;
    cbn [bind]; [|done..].
  assert (Forall (λ c', isValid hyp c' = true ∨
                        ∃ items', allowed hyp = Ok items' ∧ c' ∈ items')
                 (if isValid hyp c then items ++ [c] else items)) as Hall.
  { assert (Forall (λ c', isValid hyp c' = true ∨
                          ∃ items', allowed hyp = Ok items' ∧ c' ∈ items') items)
      as Hitems'.
    { apply Forall_forall. intros x Hx. right. by exists items. }
    destruct (isValid hyp c) eqn:Hvalid; [|done].
    apply Forall_app. split; [done|]. constructor; [by left|constructor]. }
  destruct (add_nextones_merged hypotheses scores hyp r _ candidates candidates1
              Hhyp Hall Hm Hnext) as [Hm1 Hpre1].
  intros [Hres Hpre]%IH; [|done]. split; [done|]. by etrans.
Qed.
End candidates.

(** X11: the candidates [topk] merges from its three sources hold no two
    members with the same row and column, each member's state is the state
    of its row advanced on its column, and its column is valid for the row
    or offered by [allowed()]; a pair proposed by the first source keeps the
    place and the score it got there. *)
Theorem topk_merged_candidates {score_t} hypotheses
    (best : list (Z * Z * score_t)) inactive scores best_next rows c1 c2 :
  add_best hypotheses best [] = Ok c1 →
  add_rows inactive scores hypotheses best_next rows c1 = Ok c2 →
  NoDup (cand_key <$> c2) ∧ Forall (well_proposed hypotheses) c2 ∧
  c1 `prefix_of` c2.
Proof.
  intros Hbest Hrows.
  apply add_best_merged in Hbest as [Hm1 _]; [|by split; constructor].
  apply add_rows_merged in Hrows as [[Hnodup Hall] Hpre]; done.
Qed.

Lemma topk_merged_candidates_witness :
  let h := MkHypothesis ConstrainedHypothesis [1] [0] 3 [false] (-1) in
  let c1 := [Candidate 0 5 7 h] in
  let c2 := [Candidate 0 5 7 h; Candidate 0 1 8 (with_progress h [true] 0)] in
  add_best [h] [(0, 5, 7)] [] = Ok c1 ∧
  add_rows [false] [[9; 8; 9; 9; 9; 6]] [h] [5] [0] c1 = Ok c2 ∧
  NoDup (cand_key <$> c2) ∧ c1 `prefix_of` c2.
Proof.
  intros h c1 c2.
  assert (add_best [h] [(0, 5, 7)] [] = Ok c1) as H1 by reflexivity.
  assert (add_rows [false] [[9; 8; 9; 9; 9; 6]] [h] [5] [0] c1 = Ok c2) as H2
    by reflexivity.
  destruct (topk_merged_candidates [h] [(0, 5, 7)] [false] [[9; 8; 9; 9; 9; 6]]
              [5] [0] c1 c2 H1 H2) as (Hn & _ & Hp).
  exact (conj H1 (conj H2 (conj Hn Hp))).
Defined.

(** ** Counting and pruning in topk *)

Section pruning.
Context {score_t : Type}.
Implicit Types (new_kbest pruned : list (@candidate score_t)).
Implicit Types (counts : list Z).

Lemma count_banks_sum new_kbest : ∀ counts counts',
  count_banks new_kbest counts = Ok counts' →
  sumZ counts' = sumZ counts + len new_kbest.
Proof.
  induction new_kbest as [|cand rest IH]; intros counts counts'; cbn [count_banks].
  { intros [= <-]. unfold len. simpl. lia. }
  cbv zeta.
  destruct (py_get counts _) as [n| |] eqn:Hget; cbn [bind]; [|done..].
  destruct (py_set counts _ _) as [counts1| |] eqn:Hset; cbn [bind]; [|done..].
  apply py_get_Ok in Hget as (k & Hk & Hn).
  apply py_set_Ok in Hset as (k' & Hk' & ->).
  assert (k' = k) as -> by congruence.
  intros ->%IH. rewrite (sumZ_insert _ _ n) by done.
  unfold len. simpl length. lia.
Qed.

Lemma bank_in_range counts bank :
  0 ≤ bank < len counts →
  py_index counts bank = Some (Z.to_nat bank) ∧
  (Z.to_nat bank < length counts)%nat.
Proof.
  intros Hb. unfold len in Hb. split; [|lia].
  unfold py_index. by rewrite decide_True.
Qed.

Lemma count_banks_returns new_kbest : ∀ counts,
  Forall (λ cand, numMet (cand_constraints cand) < len counts) new_kbest →
  returns (count_banks new_kbest counts).
Proof.
  induction new_kbest as [|cand rest IH]; intros counts Hall; cbn [count_banks].
  { by eexists. }
  apply Forall_cons in Hall as [Hcand Hall]. cbv zeta.
  pose proof (sum_met_bounds (met (cand_constraints cand))) as [Hge _].
  fold (numMet (cand_constraints cand)) in Hge.
  rewrite (py_get_in_range counts) by lia. cbn [bind].
  rewrite (py_set_in_range counts) by lia. cbn [bind].
  apply IH. eapply Forall_impl; [exact Hall|]. simpl. intros x Hx.
  unfold len in *. by rewrite length_insert.
Qed.

Lemma prune_returns new_kbest : ∀ counts pruned,
  Forall (λ cand, numMet (cand_constraints cand) < len counts) new_kbest →
  returns (prune new_kbest counts pruned).
Proof.
  induction new_kbest as [|cand rest IH]; intros counts pruned Hall; cbn [prune].
  { by eexists. }
  apply Forall_cons in Hall as [Hcand Hall]. cbv zeta.
  pose proof (sum_met_bounds (met (cand_constraints cand))) as [Hge _].
  fold (numMet (cand_constraints cand)) in Hge.
  rewrite (py_get_in_range counts) by lia. cbn [bind].
  rewrite (py_set_in_range counts) by lia. cbn [bind].
  rewrite py_get_in_range by (unfold len in *; rewrite length_insert; lia).
  cbn [bind]. apply IH. eapply Forall_impl; [exact Hall|]. simpl. intros x Hx.
  unfold len in *. by rewrite length_insert.
Qed.

(** Pruning keeps candidates in the order they come in. *)
Lemma prune_sublist new_kbest : ∀ counts pruned res,
  prune new_kbest counts pruned = Ok res →
  ∃ kept, res = pruned ++ kept ∧ kept `sublist_of` new_kbest.
Proof.
  induction new_kbest as [|cand rest IH]; intros counts pruned res; cbn [prune].
  { intros [= <-]. exists []. by rewrite app_nil_r. }
  cbv zeta.
  destruct (py_get counts _) as [n| |]; cbn [bind]; [|done..].
  destruct (py_set counts _ _) as [counts1| |]; cbn [bind]; [|done..].
  destruct (py_get counts1 _) as [n1| |]; cbn [bind]; [|done..].
  intros (kept & -> & Hsub)%IH. case_decide.
  - exists (cand :: kept). rewrite <- app_assoc. split; [done|].
    by apply sublist_skip.
  - exists kept. split; [done|]. by apply sublist_cons.
Qed.

(** Every candidate kept uses up one free slot of its bank. *)
Lemma prune_drain new_kbest : ∀ counts pruned res,
  prune new_kbest counts pruned = Ok res →
  ∃ final, drain new_kbest counts = Ok final ∧
           len res + sumZ (Z.max 0 <$> final)
           = len pruned + sumZ (Z.max 0 <$> counts).
Proof.
  induction new_kbest as [|cand rest IH]; intros counts pruned res;
    cbn [prune drain].
  { intros [= <-]. by exists counts. }
  cbv zeta.
  destruct (py_get counts _) as [n| |] eqn:Hget; cbn [bind]; [|done..].
  destruct (py_set counts _ _) as [counts1| |] eqn:Hset; cbn [bind]; [|done..].
  apply py_get_Ok in Hget as (k & Hk & Hn).
  apply py_set_Ok in Hset as (k' & Hk' & ->).
  assert (k' = k) as -> by congruence.
  assert (py_get (<[k:=n - 1]> counts) (numMet (cand_constraints cand))
          = Ok (n - 1)) as ->.
  { unfold py_get, py_index in *. rewrite length_insert, Hk.
    by rewrite list_lookup_insert_eq by by eapply lookup_lt_Some. }
  cbn [bind]. intros (final & Hdrain & Hlen)%IH.
  exists final. split; [done|].
  rewrite list_fmap_insert in Hlen.
  rewrite (sumZ_insert _ _ (0 `max` n)) in Hlen
    by (by rewrite list_lookup_fmap, Hn).
  clear IH. set (total := sumZ (Z.max 0 <$> counts)) in *. clearbody total.
  set (left := sumZ (Z.max 0 <$> final)) in *. clearbody left.
  case_decide; unfold len in *; [rewrite length_app in Hlen; simpl in Hlen|]; lia.
Qed.

(** What the pruning loop takes off the counters is what the counting loop
    had put on. *)
Lemma drain_counts new_kbest : ∀ counts counted final counted',
  length counts = length counted →
  drain new_kbest counts = Ok final →
  count_banks new_kbest counted = Ok counted' →
  length final = length counts ∧
  ∀ k, final !!! k + counted' !!! k = counts !!! k + counted !!! k.
Proof.
  induction new_kbest as [|cand rest IH]; intros counts counted final counted' Hlen;
    cbn [drain count_banks].
  { by intros [= <-] [= <-]. }
  cbv zeta.
  destruct (py_get counts _) as [n| |] eqn:Hget; cbn [bind]; [|done..].
  destruct (py_set counts _ _) as [counts1| |] eqn:Hset; cbn [bind]; [|done..].
  destruct (py_get counted _) as [m| |] eqn:Hget'; cbn [bind]; [|done..].
  destruct (py_set counted _ _) as [counted1| |] eqn:Hset'; cbn [bind]; [|done..].
  apply py_get_Ok in Hget as (k & Hk & Hn).
  apply py_set_Ok in Hset as (k1 & Hk1 & ->).
  apply py_get_Ok in Hget' as (k2 & Hk2 & Hm).
  apply py_set_Ok in Hset' as (k3 & Hk3 & ->).
  assert (k1 = k) as -> by congruence.
  assert (k2 = k) as ->.
  { unfold py_index in *. rewrite <- Hlen in Hk2. congruence. }
  assert (k3 = k) as -> by congruence.
  intros Hdrain Hcount.
  destruct (IH _ _ _ _ (eq_trans (length_insert _ _ _)
                          (eq_trans Hlen (eq_sym (length_insert _ _ _))))
              Hdrain Hcount) as [Hlen' Hsum].
  rewrite length_insert in Hlen'. split; [done|]. intros j. rewrite Hsum.
  destruct (decide (j = k)) as [->|Hne].
  - rewrite !list_lookup_total_insert_eq by (by eapply lookup_lt_Some).
    rewrite (list_lookup_total_correct _ _ _ Hn).
    rewrite (list_lookup_total_correct _ _ _ Hm). lia.
  - by rewrite !list_lookup_total_insert_ne by done.
Qed.

Lemma no_slot_left final :
  Forall (λ x, x ≤ 0) final → sumZ (Z.max 0 <$> final) = 0.
Proof.
  induction 1 as [|x final Hx _ IH]; [done|].
  rewrite fmap_cons, sumZ_cons, IH. lia.
Qed.

Lemma pad_last_elem missing : ∀ n pruned res,
  pad_last missing n pruned = Ok res → ∀ x, x ∈ res → x ∈ pruned.
Proof.
  induction missing as [|missing IH]; intros n pruned res; cbn [pad_last].
  { by intros [= <-]. }
  destruct (py_get pruned _) as [last| |] eqn:Hlast; cbn [bind]; [|done..].
  intros Hres x Hx. apply (IH _ _ _ Hres) in Hx.
  apply elem_of_app in Hx as [Hx|Hx%list_elem_of_singleton]; [done|subst].
  apply py_get_Ok in Hlast as (k & _ & Hk). by eapply list_elem_of_lookup_2.
Qed.

(** When the allocation gives no bank more slots than it has candidates,
    pruning keeps exactly as many candidates as there are slots. *)
Lemma prune_fills new_kbest counts bank_sizes pruned (zeros : nat) :
  count_banks new_kbest (replicate zeros 0) = Ok counts →
  length bank_sizes = length counts →
  Forall (λ a, 0 ≤ a) bank_sizes →
  (∀ k, (k < length counts)%nat → 0 ≤ room counts bank_sizes k) →
  prune new_kbest bank_sizes [] = Ok pruned →
  len pruned = sumZ bank_sizes.
Proof.
  intros Hcount Hlen Hnonneg Hroom Hprune.
  apply prune_drain in Hprune as (final & Hdrain & Hsum).
  pose proof (count_banks_Ok _ _ _ Hcount) as [Hlen0 _].
  destruct (drain_counts _ _ _ _ _ (eq_trans Hlen Hlen0) Hdrain Hcount)
    as [Hlenf Hpoint].
  rewrite (max0_nonneg _ Hnonneg) in Hsum.
  rewrite no_slot_left in Hsum; [unfold len in *; simpl in *; lia|].
  apply Forall_lookup. intros k x Hx.
  pose proof (lookup_lt_Some _ _ _ Hx) as Hk.
  specialize (Hpoint k). specialize (Hroom k). unfold room in Hroom.
  rewrite (list_lookup_total_correct _ _ _ Hx) in Hpoint.
  assert (replicate zeros 0 !!! k = 0) as Hz.
  { apply lookup_total_replicate_2. rewrite length_replicate in Hlen0. lia. }
  rewrite Hz in Hpoint. simpl. assert (k < length counts)%nat by lia.
  specialize (Hroom ltac:(done)). lia.
Qed.
End pruning.

Section banks.
Context {score_t : Type}.
Implicit Types (new_kbest pruned : list (@candidate score_t)).
Implicit Types (counts : list Z).

Lemma numMet_bank (cand : @candidate score_t) counts :
  0 ≤ numMet (cand_constraints cand) ∧
  ∀ k, py_index counts (numMet (cand_constraints cand)) = Some k →
       numMet (cand_constraints cand) = Z.of_nat k.
Proof.
  pose proof (sum_met_bounds (met (cand_constraints cand))) as [Hge _].
  fold (numMet (cand_constraints cand)) in Hge. split; [done|].
  intros k Hk%py_index_Some. lia.
Qed.

Lemma in_bank_cons k (cand : @candidate score_t) l :
  len (in_bank k (cand :: l))
  = (if decide (numMet (cand_constraints cand) = Z.of_nat k) then 1 else 0)
    + len (in_bank k l).
Proof.
  unfold in_bank, len. rewrite filter_cons. case_decide; simpl length; lia.
Qed.

Lemma in_bank_snoc k (cand : @candidate score_t) l :
  len (in_bank k (l ++ [cand]))
  = len (in_bank k l)
    + (if decide (numMet (cand_constraints cand) = Z.of_nat k) then 1 else 0).
Proof.
  unfold in_bank, len. rewrite filter_app, length_app, filter_cons, filter_nil.
  case_decide; simpl length; lia.
Qed.

Lemma count_banks_exact new_kbest : ∀ counts counts',
  count_banks new_kbest counts = Ok counts' →
  ∀ k, (k < length counts)%nat →
       counts' !!! k = counts !!! k + len (in_bank k new_kbest).
Proof.
  induction new_kbest as [|cand rest IH]; intros counts counts'; cbn [count_banks].
  { intros [= <-] k _. unfold in_bank, len. simpl. lia. }
  cbv zeta.
  destruct (py_get counts _) as [n| |] eqn:Hget; cbn [bind]; [|done..].
  destruct (py_set counts _ _) as [counts1| |] eqn:Hset; cbn [bind]; [|done..].
  apply py_get_Ok in Hget as (k0 & Hk0 & Hn).
  apply py_set_Ok in Hset as (k1 & Hk1 & ->).
  assert (k1 = k0) as -> by congruence.
  destruct (numMet_bank cand counts) as [_ Hbank]. specialize (Hbank k0 Hk0).
  intros Hrest k Hk. rewrite (IH _ _ Hrest) by (by rewrite length_insert).
  rewrite in_bank_cons, Hbank.
  destruct (decide (k = k0)) as [->|Hne].
  - rewrite list_lookup_total_insert_eq by done.
    rewrite (list_lookup_total_correct _ _ _ Hn).
    rewrite decide_True by done. lia.
  - rewrite list_lookup_total_insert_ne by done.
    rewrite decide_False by lia. lia.
Qed.

Lemma prune_exact new_kbest : ∀ counts pruned res,
  prune new_kbest counts pruned = Ok res →
  ∀ k, (k < length counts)%nat →
       len (in_bank k res)
       = len (in_bank k pruned)
         + (0 `max` (counts !!! k)) `min` len (in_bank k new_kbest).
Proof.
  induction new_kbest as [|cand rest IH]; intros counts pruned res; cbn [prune].
  { intros [= <-] k _. unfold in_bank at 3. unfold len at 3. simpl. lia. }
  cbv zeta.
  destruct (py_get counts _) as [n| |] eqn:Hget; cbn [bind]; [|done..].
  destruct (py_set counts _ _) as [counts1| |] eqn:Hset; cbn [bind]; [|done..].
  apply py_get_Ok in Hget as (k0 & Hk0 & Hn).
  apply py_set_Ok in Hset as (k1 & Hk1 & ->).
  assert (k1 = k0) as -> by congruence.
  assert (py_get (<[k0:=n - 1]> counts) (numMet (cand_constraints cand))
          = Ok (n - 1)) as ->.
  { unfold py_get, py_index in *. rewrite length_insert, Hk0.
    by rewrite list_lookup_insert_eq by by eapply lookup_lt_Some. }
  cbn [bind].
  destruct (numMet_bank cand counts) as [_ Hbank]. specialize (Hbank k0 Hk0).
  intros Hrest k Hk. rewrite (IH _ _ _ Hrest) by (by rewrite length_insert).
  rewrite in_bank_cons, Hbank.
  assert (0 ≤ len (in_bank k rest)) as Hpos by (unfold len; lia).
  destruct (decide (k = k0)) as [->|Hne].
  - rewrite list_lookup_total_insert_eq by done.
    rewrite (list_lookup_total_correct _ _ _ Hn).
    rewrite (decide_True (P := Z.of_nat k0 = Z.of_nat k0)) by done.
    case_decide.
    + rewrite in_bank_snoc, Hbank, decide_True by done. lia.
    + lia.
  - rewrite list_lookup_total_insert_ne by done.
    rewrite (decide_False (P := Z.of_nat k0 = Z.of_nat k)) by lia.
    case_decide; [|lia].
    rewrite in_bank_snoc, Hbank, decide_False by lia. lia.
Qed.
End banks.

(** X12: after the counting loop of [topk], started from zeros, entry [k] of
    [counts] is the number of candidates whose state has [k] constraint
    tokens met, so the entries add up to the number of candidates; the loop
    returns whenever no candidate has more tokens met than there are banks
    above bank 0. *)
Theorem count_banks_spec {score_t} (new_kbest : list (@candidate score_t)) n :
  (Forall (λ cand, numMet (cand_constraints cand) < Z.of_nat n) new_kbest →
   returns (count_banks new_kbest (replicate n 0))) ∧
  (∀ counts, count_banks new_kbest (replicate n 0) = Ok counts →
     length counts = n ∧ sumZ counts = len new_kbest ∧
     ∀ k, (k < n)%nat → counts !! k = Some (len (in_bank k new_kbest))).
Proof.
  split.
  - intros Hall. apply count_banks_returns.
    unfold len. by rewrite length_replicate.
  - intros counts Hcounts.
    pose proof (count_banks_Ok _ _ _ Hcounts) as [Hlen _].
    rewrite length_replicate in Hlen. split_and!; [done| |].
    + rewrite (count_banks_sum _ _ _ Hcounts), sumZ_replicate. lia.
    + intros k Hk.
      rewrite (list_lookup_lookup_total_lt counts k) by lia. f_equal.
      rewrite (count_banks_exact _ _ _ Hcounts) by (by rewrite length_replicate).
      rewrite lookup_total_replicate_2 by done. lia.
Qed.

Lemma count_banks_spec_witness :
  let h0 := MkHypothesis ConstrainedHypothesis [1] [0] 3 [false] (-1) in
  let h1 := MkHypothesis ConstrainedHypothesis [1] [0] 3 [true] 0 in
  let kbest := [Candidate 0 5 7 h0; Candidate 0 1 8 h1; Candidate 1 4 9 h0] in
  returns (count_banks kbest (replicate 2 0)) ∧
  count_banks kbest (replicate 2 0) = Ok [2; 1].
Proof.
  intros h0 h1 kbest.
  destruct (count_banks_spec kbest 2) as [Hret _].
  split; [|reflexivity]. apply Hret.
  repeat constructor.
Defined.

(** X13: the pruning loop of [topk] keeps candidates in the order they come
    in and, of each bank, as many as the bank has slots or candidates,
    whichever is less (none for a negative slot count). *)
Theorem prune_spec {score_t} (new_kbest : list (@candidate score_t))
    bank_sizes pruned_candidates :
  prune new_kbest bank_sizes [] = Ok pruned_candidates →
  pruned_candidates `sublist_of` new_kbest ∧
  ∀ k size, bank_sizes !! k = Some size →
    len (in_bank k pruned_candidates)
    = (0 `max` size) `min` len (in_bank k new_kbest).
Proof.
  intros Hprune. split.
  - by apply prune_sublist in Hprune as (kept & -> & Hsub).
  - intros k size Hsize.
    rewrite (prune_exact _ _ _ _ Hprune k) by by eapply lookup_lt_Some.
    rewrite (list_lookup_total_correct _ _ _ Hsize).
    unfold in_bank at 1. unfold len at 1. simpl. lia.
Qed.

Lemma prune_spec_witness :
  let h0 := MkHypothesis ConstrainedHypothesis [1] [0] 3 [false] (-1) in
  let h1 := MkHypothesis ConstrainedHypothesis [1] [0] 3 [true] 0 in
  let kbest := [Candidate 0 5 7 h0; Candidate 0 1 8 h1; Candidate 1 4 9 h0] in
  let pruned := [Candidate 0 5 7 h0; Candidate 0 1 8 h1] in
  prune kbest [1; 1] [] = Ok pruned ∧ pruned `sublist_of` kbest.
Proof.
  intros h0 h1 kbest pruned.
  assert (prune kbest [1; 1] [] = Ok pruned) as Hprune by reflexivity.
  exact (conj Hprune (proj1 (prune_spec kbest [1; 1] pruned Hprune))).
Defined.

(** ** One step of topk as a whole *)

Section topk_step.
Context {score_t : Type}.
Variable score_le : score_t → score_t → bool.
Variable inf : score_t.
Variable argmin : list score_t → Z.
Variable set_iter : list (@candidate score_t) → list (@candidate score_t).

Lemma pad_last_none n (pruned : list (@candidate score_t)) :
  pad_last O n pruned = Ok pruned.
Proof. done. Qed.

(** A call that returns went through the two padding loops without a
    single round. *)
Lemma topk_stages budget beam_size inactive scores hypotheses
    best_ids best_word_ids sequence_scores out :
  0 ≤ beam_size →
  topk score_le inf argmin set_iter budget beam_size inactive scores
       hypotheses best_ids best_word_ids sequence_scores = Ok out →
  ∃ c1 c2 kept,
    add_best hypotheses (zip (zip best_ids best_word_ids) sequence_scores) []
    = Ok c1 ∧
    add_rows inactive scores hypotheses (argmin <$> scores) (range 0 beam_size) c1
    = Ok c2 ∧
    beam_size ≤ len (set_iter c2) ∧
    kept `sublist_of` sorted score_le score (set_iter c2) ∧
    len kept = beam_size ∧
    out = (row <$> kept, col <$> kept, (λ x, [score x]) <$> kept,
           cand_constraints <$> kept).
Proof.
  intros Hbeam. unfold topk.
  destruct (py_get hypotheses 0) as [first| |]; cbn [bind]; [|done..].
  destruct (add_best _ _ _) as [c1| |] eqn:H1; cbn [bind]; [|done..].
  destruct (add_rows _ _ _ _ _ _) as [c2| |] eqn:H2; cbn [bind]; [|done..].
  destruct (pad_null _ _ _) as [new_kbest| |] eqn:Hpad; cbn [bind]; [|done..].
  apply pad_null_Ok in Hpad as [Hmissing ->].
  unfold len in Hmissing. rewrite sorted_length in Hmissing.
  destruct (count_banks _ _) as [counts| |] eqn:Hcounts; cbn [bind]; [|done..].
  pose proof (count_banks_Ok _ _ _ Hcounts) as [Hlen Hpos].
  rewrite length_replicate in Hlen.
  assert (0 ≤ size first) as Hsize by (unfold size, len; lia).
  pose proof (get_bank_sizes_spec counts beam_size
                (Hpos (Forall_replicate _ _ _ (Z.le_refl 0)))
                budget (size first) Hsize Hbeam) as Hspec.
  destruct (get_bank_sizes _ _ _ _) as [bank_sizes| |]; cbn [bind]; [|done..].
  destruct Hspec as [[Hlen' Hsum Hnonneg] Hroom]; [unfold len; lia|].
  destruct (prune _ _ _) as [pruned| |] eqn:Hprune; cbn [bind]; [|done..].
  pose proof (prune_fills _ _ _ _ _ Hcounts Hlen' Hnonneg Hroom Hprune) as Hfull.
  apply prune_sublist in Hprune as (kept & -> & Hsub). simpl in Hfull.
  replace (Z.to_nat (beam_size - len ([] ++ kept))) with O by (simpl; lia).
  rewrite pad_last_none. cbn [bind]. intros [= <-].
  exists c1, c2, kept. split_and!; try done; unfold len in *; lia.
Qed.
End topk_step.

(** X14: whenever [topk] returns, for a non-negative [beam_size], neither
    padding loop has added anything: what comes back is exactly [beam_size]
    of the merged candidates, in the order of the sort by score, and the
    four arrays are their rows, columns, scores and states. *)
Theorem topk_selects_candidates {score_t} (score_le : score_t → score_t → bool)
    inf argmin set_iter budget beam_size inactive scores hypotheses
    best_ids best_word_ids sequence_scores rows cols scs hyps :
  0 ≤ beam_size →
  topk score_le inf argmin set_iter budget beam_size inactive scores
       hypotheses best_ids best_word_ids sequence_scores
  = Ok (rows, cols, scs, hyps) →
  ∃ c1 c2 kept,
    add_best hypotheses (zip (zip best_ids best_word_ids) sequence_scores) []
    = Ok c1 ∧
    add_rows inactive scores hypotheses (argmin <$> scores) (range 0 beam_size) c1
    = Ok c2 ∧
    kept `sublist_of` sorted score_le score (set_iter c2) ∧
    len kept = beam_size ∧
    rows = row <$> kept ∧ cols = col <$> kept ∧
    scs = (λ x, [score x]) <$> kept ∧ hyps = cand_constraints <$> kept.
Proof.
  intros Hbeam Htopk.
  destruct (topk_stages _ _ _ _ _ _ _ _ _ _ _ _ _ Hbeam Htopk)
    as (c1 & c2 & kept & H1 & H2 & _ & Hsub & Hlen & [= -> -> -> ->]).
  by exists c1, c2, kept.
Qed.

Lemma topk_selects_candidates_witness :
  let h := MkHypothesis ConstrainedHypothesis [] [] 3 [] (-1) in
  topk Z.leb 1000 (λ _, 5) (λ l, l) 1 2 [false; false]
       [[9; 9; 9; 9; 9; 7]; [9; 9; 9; 9; 9; 4]] [h; h] [0] [5] [7]
  = Ok ([1; 0], [5; 5], [[4]; [7]], [h; h]) ∧
  ∃ kept : list (@candidate Z),
    len kept = 2 ∧ [1; 0] = row <$> kept ∧ [5; 5] = col <$> kept.
Proof.
  intros h.
  assert (topk Z.leb 1000 (λ _, 5) (λ l, l) 1 2 [false; false]
            [[9; 9; 9; 9; 9; 7]; [9; 9; 9; 9; 9; 4]] [h; h] [0] [5] [7]
          = Ok ([1; 0], [5; 5], [[4]; [7]], [h; h])) as Htopk by reflexivity.
  split; [exact Htopk|].
  destruct (topk_selects_candidates Z.leb 1000 (λ _, 5) (λ l, l) 1 2
              [false; false] [[9; 9; 9; 9; 9; 7]; [9; 9; 9; 9; 9; 4]] [h; h]
              [0] [5] [7] _ _ _ _ ltac:(lia) Htopk)
    as (_ & _ & kept & _ & _ & _ & Hlen & Hrows & Hcols & _).
  exists kept. exact (conj Hlen (conj Hrows Hcols)).
Defined.

(** X15: every entry [topk] returns is consistent with the beam it was
    given: the state in slot [i] is the state of row [rows[i]] advanced on
    token [cols[i]], and that token is valid for the row's state or one of
    the tokens its [allowed()] offers.  (The set of candidates is iterated
    over in some order that only yields its members.) *)
Theorem topk_entries_sound {score_t} (score_le : score_t → score_t → bool)
    inf argmin set_iter budget beam_size inactive scores hypotheses
    best_ids best_word_ids sequence_scores rows cols scs hyps :
  (∀ l x, x ∈ set_iter l → x ∈ l) →
  0 ≤ beam_size →
  topk score_le inf argmin set_iter budget beam_size inactive scores
       hypotheses best_ids best_word_ids sequence_scores
  = Ok (rows, cols, scs, hyps) →
  ∀ i r c h, rows !! i = Some r → cols !! i = Some c → hyps !! i = Some h →
    ∃ hyp, py_get hypotheses r = Ok hyp ∧ advance hyp c = Ok h ∧
           (isValid hyp c = true ∨ ∃ items, allowed hyp = Ok items ∧ c ∈ items).
Proof.
  intros Hiter Hbeam Htopk i r c h Hr Hc Hh.
  destruct (topk_stages _ _ _ _ _ _ _ _ _ _ _ _ _ Hbeam Htopk)
    as (c1 & c2 & kept & H1 & H2 & _ & Hsub & _ & [= -> -> -> ->]).
  apply add_best_merged in H1 as [Hm1 _]; [|by split; constructor].
  apply add_rows_merged in H2 as [[_ Hall] _]; [|done].
  rewrite list_lookup_fmap in Hr. rewrite list_lookup_fmap in Hc.
  rewrite list_lookup_fmap in Hh.
  destruct (kept !! i) as [cand|] eqn:Hcand; [|done].
  simpl in Hr, Hc, Hh. injection Hr as <-. injection Hc as <-. injection Hh as <-.
  assert (cand ∈ c2) as Hin.
  { apply Hiter. rewrite <- (sorted_perm score_le score).
    eapply elem_of_sublist; [|exact Hsub]. by eapply list_elem_of_lookup_2. }
  rewrite Forall_forall in Hall. exact (Hall cand Hin).
Qed.

Lemma topk_entries_sound_witness :
  let h := MkHypothesis ConstrainedHypothesis [1] [0] 3 [false] (-1) in
  topk Z.leb 1000 (λ _, 3) (λ l, l) 1 1 [false] [[9; 8; 9; 2]] [h] [] [] []
  = Ok ([0], [1], [[8]], [with_progress h [true] 0]) ∧
  ∃ hyp, py_get [h] 0 = Ok hyp ∧ advance hyp 1 = Ok (with_progress h [true] 0).
Proof.
  intros h.
  assert (topk Z.leb 1000 (λ _, 3) (λ l, l) 1 1 [false] [[9; 8; 9; 2]] [h] [] [] []
          = Ok ([0], [1], [[8]], [with_progress h [true] 0])) as Htopk
    by reflexivity.
  split; [exact Htopk|].
  destruct (topk_entries_sound Z.leb 1000 (λ _, 3) (λ l, l) 1 1 [false]
              [[9; 8; 9; 2]] [h] [] [] [] _ _ _ _ (λ _ _ H, H) ltac:(lia) Htopk
              O 0 1 (with_progress h [true] 0) eq_refl eq_refl eq_refl)
    as (hyp & Hhyp & Hadv & _).
  exists hyp. exact (conj Hhyp Hadv).
Defined.

Lemma well_proposed_bank {score_t} hypotheses n (cand : @candidate score_t) :
  Forall (λ h, reachable h ∧ size h = n) hypotheses →
  well_proposed hypotheses cand →
  numMet (cand_constraints cand) ≤ n.
Proof.
  intros Hall (hyp & Hhyp & Hadv & _).
  apply py_get_Ok in Hhyp as (k & _ & Hk).
  destruct (Forall_lookup_1 _ _ _ _ Hall Hk) as [Hreach <-].
  destruct (reachable_wf hyp Hreach) as [Hwf _].
  destruct (advance_cases hyp (col cand) Hwf) as (s' & Heq & Hspec).
  rewrite Heq in Hadv. injection Hadv as Hs'.
  pose proof (advance_spec_wf _ _ _ Hwf Hspec) as Hwf'.
  destruct (advance_spec_fixed _ _ _ Hspec) as (_ & Hcs & _).
  pose proof (numNeeded_nonneg s' Hwf') as Hneed.
  rewrite <- Hs'. unfold numNeeded, size in *. rewrite Hcs in Hneed. lia.
Qed.

(** X16: [topk] returns when every row of the beam holds a reachable state
    over as many constraint tokens as row 0, the three sources run without
    an error, and they yield at least [beam_size] candidates; each [while]
    loop of the bank allocator then needs one pass at most.  (The set of
    candidates is iterated over in some order of its members.) *)
Theorem topk_returns {score_t} (score_le : score_t → score_t → bool)
    inf argmin set_iter budget beam_size inactive scores hypotheses
    best_ids best_word_ids sequence_scores first c1 c2 :
  (∀ l, set_iter l ≡ₚ l) →
  1 ≤ beam_size →
  py_get hypotheses 0 = Ok first →
  Forall (λ h, reachable h ∧ size h = size first) hypotheses →
  add_best hypotheses (zip (zip best_ids best_word_ids) sequence_scores) [] = Ok c1 →
  add_rows inactive scores hypotheses (argmin <$> scores) (range 0 beam_size) c1
  = Ok c2 →
  beam_size ≤ len c2 →
  returns (topk score_le inf argmin set_iter (S budget) beam_size inactive scores
                hypotheses best_ids best_word_ids sequence_scores).
Proof.
  intros Hiter Hbeam Hfirst Hhyps H1 H2 Henough.
  assert (0 ≤ size first) as Hsize by (unfold size, len; lia).
  set (new_kbest := sorted score_le score (set_iter c2)).
  assert (new_kbest ≡ₚ c2) as Hperm.
  { unfold new_kbest. by rewrite sorted_perm, Hiter. }
  assert (Forall (λ cand, numMet (cand_constraints cand)
                          < len (replicate (Z.to_nat (size first + 1)) 0))
                 new_kbest) as Hbanks.
  { rewrite Hperm. unfold len. rewrite length_replicate.
    pose proof H1 as H1'. apply add_best_merged in H1' as [Hm1 _];
      [|by split; constructor].
    pose proof H2 as H2'. apply add_rows_merged in H2' as [[_ Hall] _]; [|done].
    eapply Forall_impl; [exact Hall|]. simpl. intros cand Hcand.
    pose proof (well_proposed_bank _ _ _ Hhyps Hcand). lia. }
  unfold topk. rewrite Hfirst. cbn [bind]. rewrite H1. cbn [bind].
  rewrite H2. cbn [bind]. fold new_kbest.
  assert (len new_kbest = len c2) as Hlen.
  { unfold len. by rewrite Hperm. }
  replace (Z.to_nat (beam_size - len new_kbest)) with O by lia.
  cbn [pad_null bind].
  destruct (count_banks_returns _ _ Hbanks) as [counts Hcounts].
  rewrite Hcounts. cbn [bind].
  pose proof (count_banks_Ok _ _ _ Hcounts) as [Hlenc Hpos].
  specialize (Hpos (Forall_replicate _ _ _ (Z.le_refl 0))).
  rewrite length_replicate in Hlenc.
  assert (len counts = size first + 1) as Hlenc' by (unfold len; lia).
  assert (beam_size ≤ sumZ counts) as Hsum.
  { rewrite (count_banks_sum _ _ _ Hcounts), sumZ_replicate. lia. }
  destruct (get_bank_sizes_returns counts beam_size Hpos budget (size first))
    as [bank_sizes Hsizes]; [done|lia|done|done|].
  pose proof (get_bank_sizes_spec counts beam_size Hpos (S budget) (size first)
                Hsize ltac:(lia) Hlenc') as Hspec.
  rewrite Hsizes in Hspec |- *. cbn [bind].
  destruct Hspec as [[Hlen' Hsum' Hnonneg] Hroom].
  destruct (prune_returns new_kbest bank_sizes []) as [pruned Hprune].
  { eapply Forall_impl; [exact Hbanks|]. simpl. intros cand Hcand.
    unfold len in *. rewrite length_replicate in Hcand. lia. }
  rewrite Hprune. cbn [bind].
  pose proof (prune_fills _ _ _ _ _ Hcounts Hlen' Hnonneg Hroom Hprune) as Hfull.
  replace (Z.to_nat (beam_size - len pruned)) with O by lia.
  cbn [pad_last bind]. by eexists.
Qed.

Lemma topk_returns_witness :
  let h := MkHypothesis ConstrainedHypothesis [1] [0] 3 [false] (-1) in
  returns (topk Z.leb 1000 (λ _, 2) (λ l, l) 1 2 [false; false]
                [[9; 8; 5]; [7; 6; 4]] [h; h] [0] [2] [5]).
Proof.
  intros h.
  assert (reachable h) as Hh.
  { exists [[1]], 3, h. split; [reflexivity|constructor]. }
  apply (topk_returns Z.leb 1000 (λ _, 2) (λ l, l) 0 2 [false; false]
           [[9; 8; 5]; [7; 6; 4]] [h; h] [0] [2] [5] h
           [Candidate 0 2 5 h]
           [Candidate 0 2 5 h; Candidate 0 1 8 (with_progress h [true] 0);
            Candidate 1 1 6 (with_progress h [true] 0); Candidate 1 2 4 h]).
  - intros l. reflexivity.
  - lia.
  - reflexivity.
  - repeat constructor; exact Hh.
  - reflexivity.
  - reflexivity.
  - unfold len. simpl. lia.
Defined.

(** ** The command-line tool *)

Lemma split_tab_nonempty s : ∃ field fields, split_tab s = field :: fields.
Proof.
  induction s as [|c s (field & fields & IH)]; simpl; [by eexists _, _|].
  case_decide; [by eexists _, _|]. rewrite IH. by eexists _, _.
Qed.

Lemma split_tab_no_tab s : 9 ∉ s → split_tab s = [s].
Proof.
  induction s as [|c s IH]; intros Hs; [done|].
  apply not_elem_of_cons in Hs as [Hc Hs]. cbn [split_tab].
  destruct (decide (c = 9)) as [->|_]; [done|]. by rewrite IH.
Qed.

Lemma split_tab_app s1 s2 :
  9 ∉ s1 → split_tab (s1 ++ 9 :: s2) = s1 :: split_tab s2.
Proof.
  induction s1 as [|c s1 IH]; intros Hs; cbn [app split_tab].
  { by destruct (decide (9 = 9)). }
  apply not_elem_of_cons in Hs as [Hc Hs].
  destruct (decide (c = 9)) as [->|_]; [done|]. by rewrite IH.
Qed.

Lemma split_tab_tab s :
  9 ∈ s → ∃ field field' fields, split_tab s = field :: field' :: fields.
Proof.
  induction s as [|c s IH]; intros Hs; [by apply elem_of_nil in Hs|]. simpl.
  case_decide as Hc.
  - destruct (split_tab_nonempty s) as (field & fields & ->). by eexists _, _, _.
  - apply elem_of_cons in Hs as [Hs|Hs]; [done|].
    destruct (IH Hs) as (field & field' & fields & ->). by eexists _, _, _.
Qed.

Lemma rstrip_snoc s c : is_space c = false → rstrip (s ++ [c]) = s ++ [c].
Proof.
  intros Hc. induction s as [|x s IH]; simpl; [by rewrite Hc|].
  rewrite IH. by destruct s.
Qed.

Lemma rstrip_app_spaces s t :
  Forall (λ c, is_space c = true) t → rstrip (s ++ t) = rstrip s.
Proof.
  intros Ht. assert (rstrip t = []) as Hnil.
  { induction Ht as [|c t Hc _ IH]; simpl; [done|]. by rewrite IH, Hc. }
  induction s as [|x s IH]; simpl; [done|]. by rewrite IH.
Qed.

Section main_facts.
Variable BOS_SYMBOL EOS_SYMBOL : str.
Variable bpe : option (str → str).

Lemma main_line_no_tab a line :
  9 ∉ rstrip line →
  main_line BOS_SYMBOL EOS_SYMBOL bpe a line
  = Ok ({| add_sos := add_sos a; add_eos := add_eos a;
           args_constraints :=
             wrap_constraint BOS_SYMBOL EOS_SYMBOL bpe a <$> args_constraints a |},
        {| text := maybe_segment bpe (rstrip line);
           obj_constraints :=
             match args_constraints a with
             | [] => None
             | _ => Some (wrap_constraint BOS_SYMBOL EOS_SYMBOL bpe a
                            <$> args_constraints a)
             end |}).
Proof.
  intros Hline. unfold main_line. cbv zeta. rewrite decide_False by done.
  repeat f_equal. unfold len. rewrite length_fmap.
  destruct (args_constraints a) as [|c cs]; [done|].
  destruct (decide _) as [_|Hlen]; [done|].
  exfalso. apply Hlen. rewrite length_cons. lia.
Qed.

Lemma wrap_constraint_flags a a' :
  add_sos a = add_sos a' → add_eos a = add_eos a' →
  wrap_constraint BOS_SYMBOL EOS_SYMBOL bpe a
  = wrap_constraint BOS_SYMBOL EOS_SYMBOL bpe a'.
Proof. intros Hs He. unfold wrap_constraint. by rewrite Hs, He. Qed.

Lemma main_loop_no_tab lines : ∀ a printed,
  Forall (λ line, 9 ∉ rstrip line) lines →
  ∃ printed',
    main_loop BOS_SYMBOL EOS_SYMBOL bpe a lines printed
    = Ok ({| add_sos := add_sos a; add_eos := add_eos a;
             args_constraints :=
               Nat.iter (length lines)
                 (fmap (wrap_constraint BOS_SYMBOL EOS_SYMBOL bpe a))
                 (args_constraints a) |},
          printed ++ printed') ∧
    length printed' = length lines ∧
    ∀ j line, lines !! j = Some line →
      printed' !! j
      = Some {| text := maybe_segment bpe (rstrip line);
                obj_constraints :=
                  match args_constraints a with
                  | [] => None
                  | _ => Some (Nat.iter (S j)
                                 (fmap (wrap_constraint BOS_SYMBOL EOS_SYMBOL bpe a))
                                 (args_constraints a))
                  end |}.
Proof.
  induction lines as [|line lines IH]; intros a printed Hlines.
  { exists []. simpl. rewrite app_nil_r. destruct a. done. }
  apply Forall_cons in Hlines as [Hline Hlines].
  cbn [main_loop]. rewrite main_line_no_tab by done. cbn [bind].
  set (a' := {| add_sos := add_sos a; add_eos := add_eos a;
                args_constraints :=
                  wrap_constraint BOS_SYMBOL EOS_SYMBOL bpe a
                    <$> args_constraints a |}).
  destruct (IH a' (printed ++ [{| text := maybe_segment bpe (rstrip line);
                                  obj_constraints :=
                                    match args_constraints a with
                                    | [] => None
                                    | _ => Some (wrap_constraint BOS_SYMBOL
                                                   EOS_SYMBOL bpe a
                                                   <$> args_constraints a)
                                    end |}]) Hlines)
    as (printed' & -> & Hlen & Hprinted).
  assert (wrap_constraint BOS_SYMBOL EOS_SYMBOL bpe a'
          = wrap_constraint BOS_SYMBOL EOS_SYMBOL bpe a) as Hwrap
    by (by apply wrap_constraint_flags).
  rewrite Hwrap in *.
  eexists (_ :: printed'). split_and!.
  - rewrite <- app_assoc. cbn [app length].
    by rewrite (Nat.iter_succ_r (length lines)).
  - cbn [length]. by rewrite Hlen.
  - intros [|j] l Hl.
    + injection Hl as <-. done.
    + change (printed' !! j
              = Some {| text := maybe_segment bpe (rstrip l);
                        obj_constraints :=
                          match args_constraints a with
                          | [] => None
                          | _ => Some (Nat.iter (S (S j))
                                   (fmap (wrap_constraint BOS_SYMBOL EOS_SYMBOL bpe a))
                                   (args_constraints a))
                          end |}).
      rewrite (Hprinted j l Hl). rewrite (Nat.iter_succ_r (S j)).
      subst a'. cbn [args_constraints].
      by destruct (args_constraints a).
Qed.
End main_facts.

(** X17: a line with a tab in it (after [rstrip()]) never touches the
    constraints given on the command line: [args] stays as it is, the text
    is the first field and the object printed always has a [constraints]
    entry, made of the other fields, each wrapped. *)
Theorem main_line_tab BOS_SYMBOL EOS_SYMBOL bpe a line :
  9 ∈ rstrip line →
  ∃ source constraint constraints,
    split_tab (rstrip line) = source :: constraint :: constraints ∧
    main_line BOS_SYMBOL EOS_SYMBOL bpe a line
    = Ok (a, {| text := maybe_segment bpe source;
                obj_constraints :=
                  Some (wrap_constraint BOS_SYMBOL EOS_SYMBOL bpe a
                          <$> constraint :: constraints) |}).
Proof.
  intros Htab.
  destruct (split_tab_tab _ Htab) as (source & constraint & constraints & Hsplit).
  exists source, constraint, constraints. split; [done|].
  unfold main_line. cbv zeta. rewrite decide_True by done. rewrite Hsplit.
  destruct (decide _) as [_|Hlen]; [done|].
  exfalso. apply Hlen. unfold len. rewrite length_fmap, length_cons. lia.
Qed.

Lemma main_line_tab_witness :
  main_line [60; 115; 62] [60; 47; 115; 62] None (Args true false [[120]])
            [97; 32; 98; 9; 99; 9; 100; 32; 101; 10]
  = Ok (Args true false [[120]],
        JsonObj [97; 32; 98] (Some [[60; 115; 62; 32; 99];
                                    [60; 115; 62; 32; 100; 32; 101]])).
Proof.
  assert (9 ∈ rstrip [97; 32; 98; 9; 99; 9; 100; 32; 101; 10]) as Htab.
  { vm_compute. do 3 apply list_elem_of_further. apply list_elem_of_here. }
  destruct (main_line_tab [60; 115; 62] [60; 47; 115; 62] None
              (Args true false [[120]]) _ Htab)
    as (source & constraint & constraints & Hsplit & ->).
  vm_compute in Hsplit. by injection Hsplit as <- <- <-.
Defined.

(** X18: lines without a tab share the list of [args.constraints] and the
    loop writes the wrapped phrases back into it, so the wrapping piles up:
    the object printed for the line of index [j] carries the command-line
    constraints wrapped [j + 1] times, and after [n] such lines
    [args.constraints] holds them wrapped [n] times. *)
Theorem main_loop_rewraps BOS_SYMBOL EOS_SYMBOL bpe a lines :
  Forall (λ line, 9 ∉ rstrip line) lines →
  ∃ printed,
    main_loop BOS_SYMBOL EOS_SYMBOL bpe a lines []
    = Ok ({| add_sos := add_sos a; add_eos := add_eos a;
             args_constraints :=
               Nat.iter (length lines)
                 (fmap (wrap_constraint BOS_SYMBOL EOS_SYMBOL bpe a))
                 (args_constraints a) |}, printed) ∧
    length printed = length lines ∧
    ∀ j line, lines !! j = Some line →
      printed !! j
      = Some {| text := maybe_segment bpe (rstrip line);
                obj_constraints :=
                  match args_constraints a with
                  | [] => None
                  | _ => Some (Nat.iter (S j)
                                 (fmap (wrap_constraint BOS_SYMBOL EOS_SYMBOL bpe a))
                                 (args_constraints a))
                  end |}.
Proof.
  intros Hlines.
  destruct (main_loop_no_tab BOS_SYMBOL EOS_SYMBOL bpe lines a [] Hlines)
    as (printed & Hloop & Hlen & Hprinted).
  by exists printed.
Qed.

Lemma main_loop_rewraps_witness :
  ∃ printed,
    main_loop [60; 115; 62] [60; 47; 115; 62] None (Args true false [[120]])
              [[97; 10]; [98; 10]] []
    = Ok (Args true false [[60; 115; 62; 32; 60; 115; 62; 32; 120]], printed) ∧
    printed !! 0%nat = Some (JsonObj [97] (Some [[60; 115; 62; 32; 120]])) ∧
    printed !! 1%nat
    = Some (JsonObj [98] (Some [[60; 115; 62; 32; 60; 115; 62; 32; 120]])).
Proof.
  assert (Forall (λ line, 9 ∉ rstrip line) [[97; 10]; [98; 10]]) as Hlines.
  { repeat constructor; vm_compute; intros Hin;
      apply list_elem_of_singleton in Hin; discriminate Hin. }
  destruct (main_loop_rewraps [60; 115; 62] [60; 47; 115; 62] None
              (Args true false [[120]]) _ Hlines)
    as (printed & Hloop & _ & Hprinted).
  exists printed. split_and!.
  - rewrite Hloop. reflexivity.
  - rewrite (Hprinted 0%nat [97; 10] eq_refl). reflexivity.
  - rewrite (Hprinted 1%nat [98; 10] eq_refl). reflexivity.
Defined.

Lemma rstrip_app_kept s t : t ≠ [] → rstrip t = t → rstrip (s ++ t) = s ++ t.
Proof.
  intros Ht Hkept. induction s as [|x s IH]; cbn [app rstrip]; [done|].
  rewrite IH. destruct (s ++ t) eqn:Hst; [|done].
  by apply app_eq_nil in Hst as [_ ?].
Qed.

Lemma split_tab_join_tab constraints : ∀ source,
  9 ∉ source → Forall (λ c, 9 ∉ c) constraints →
  split_tab (join_tab source constraints) = source :: constraints.
Proof.
  induction constraints as [|c constraints IH]; intros source Hsource Hcs.
  - unfold join_tab. cbn [fmap list_fmap concat]. rewrite app_nil_r.
    by apply split_tab_no_tab.
  - apply Forall_cons in Hcs as [Hc Hcs].
    change (join_tab source (c :: constraints))
      with (source ++ 9 :: join_tab c constraints).
    rewrite split_tab_app by done. by rewrite IH.
Qed.

Lemma join_tab_snoc source constraints c :
  join_tab source (constraints ++ [c]) = (join_tab source constraints ++ [9]) ++ c.
Proof.
  unfold join_tab. rewrite fmap_app, concat_app. cbn [fmap list_fmap concat].
  rewrite app_nil_r, <- !app_assoc. done.
Qed.

(** X19: the two usages of the docstring agree on one line.  When the
    sentence holds no tab and does not end in white space, the phrases hold
    no tab and the last one is not empty and does not end in white space,
    the object printed for the sentence alone with the phrases given by [-c]
    is the object printed for the line [sentence\tphrase1\t...]; only the
    first usage changes [args.constraints]. *)
Theorem main_line_usages_agree BOS_SYMBOL EOS_SYMBOL bpe sos eos
    source constraints last_constraint other :
  9 ∉ source → rstrip source = source →
  Forall (λ c, 9 ∉ c) (constraints ++ [last_constraint]) →
  last_constraint ≠ [] → rstrip last_constraint = last_constraint →
  let cli := Args sos eos (constraints ++ [last_constraint]) in
  let wrapped :=
    wrap_constraint BOS_SYMBOL EOS_SYMBOL bpe cli
      <$> constraints ++ [last_constraint] in
  let obj := {| text := maybe_segment bpe source;
                obj_constraints := Some wrapped |} in
  main_line BOS_SYMBOL EOS_SYMBOL bpe cli (source ++ [10])
  = Ok (Args sos eos wrapped, obj) ∧
  main_line BOS_SYMBOL EOS_SYMBOL bpe (Args sos eos other)
    (join_tab source (constraints ++ [last_constraint]) ++ [10])
  = Ok (Args sos eos other, obj).
Proof.
  intros Hsource Hkept Hcs Hlast Hlast_kept cli wrapped obj.
  assert (Forall (λ c, is_space c = true) [10]) as Hnl by (by repeat constructor).
  split.
  - assert (rstrip (source ++ [10]) = source) as Hline
      by (by rewrite rstrip_app_spaces).
    rewrite main_line_no_tab by (by rewrite Hline).
    rewrite Hline. subst obj wrapped cli. cbn [args_constraints add_sos add_eos].
    by destruct constraints.
  - assert (rstrip (join_tab source (constraints ++ [last_constraint]) ++ [10])
            = join_tab source (constraints ++ [last_constraint])) as Hline.
    { rewrite rstrip_app_spaces by done.
      rewrite join_tab_snoc. by apply rstrip_app_kept. }
    unfold main_line. cbv zeta. rewrite Hline.
    rewrite split_tab_join_tab by done.
    destruct (decide (9 ∈ _)) as [_|Hno].
    + rewrite (wrap_constraint_flags BOS_SYMBOL EOS_SYMBOL bpe
                 (Args sos eos other) cli) by done.
      destruct (decide _) as [_|Hlen]; [done|].
      exfalso. apply Hlen. unfold len.
      rewrite length_fmap, length_app, length_cons. lia.
    + exfalso. apply Hno. rewrite join_tab_snoc.
      apply elem_of_app. left. apply elem_of_app. right.
      apply list_elem_of_here.
Qed.

Lemma main_line_usages_agree_witness :
  main_line [60; 115; 62] [60; 47; 115; 62] None
    (Args false true [[116]; [108; 32; 116]]) [97; 32; 116; 10]
  = Ok (Args false true [[116; 32; 60; 47; 115; 62];
                         [108; 32; 116; 32; 60; 47; 115; 62]],
        JsonObj [97; 32; 116] (Some [[116; 32; 60; 47; 115; 62];
                                     [108; 32; 116; 32; 60; 47; 115; 62]])) ∧
  main_line [60; 115; 62] [60; 47; 115; 62] None (Args false true [])
    [97; 32; 116; 9; 116; 9; 108; 32; 116; 10]
  = Ok (Args false true [],
        JsonObj [97; 32; 116] (Some [[116; 32; 60; 47; 115; 62];
                                     [108; 32; 116; 32; 60; 47; 115; 62]])).
Proof.
  assert (∀ s : str, bool_decide (9 ∈ s) = false → 9 ∉ s) as Hno.
  { intros s Hs Hin. by rewrite bool_decide_eq_true_2 in Hs. }
  apply (main_line_usages_agree [60; 115; 62] [60; 47; 115; 62] None false true
           [97; 32; 116] [[116]] [108; 32; 116] []).
  - by apply Hno.
  - reflexivity.
  - repeat constructor; by apply Hno.
  - discriminate.
  - reflexivity.
Defined.
